(** * A model of the word-cloud placement engine ([wordcloud.go])

    The development follows the Go source function by function.

    Numbers.  Go's [float64], [float32] and the two halves of a [complex64]
    are modelled by exact rationals ([Q]): rounding, NaN and the infinities
    are outside the model, with the one exception of the real part of the
    "not placed" sentinel (see [f32]).  Go's [int] is modelled by [Z]
    (no wrap-around: canvas sizes and word counts are far from 2^63).

    Failure.  A Go panic is an explicit [Panic] result; a call that blocks
    for ever is [Blocked]. *)

From Stdlib Require Import QArith Qround Lqa ZArith Lia Bool Sorted.
From stdpp Require Import gmap list strings.

Open Scope Q_scope.

(** ** Rational helpers *)

Definition Qltb (a b : Q) : bool := negb (Qle_bool b a).

(** [math.Max] on two finite numbers. *)
Definition Qmax (a b : Q) : Q := if Qle_bool a b then b else a.

(** [int(f)]: Go's conversion of a float to an integer drops the fraction
    (rounds towards zero). *)
Definition Qtrunc (q : Q) : Z := if Qle_bool 0 q then Qfloor q else Qceiling q.

(** [math.Round]: to the nearest integer, halves away from zero. *)
Definition Qround (q : Q) : Z :=
  if Qle_bool 0 q then Qfloor (q + (1 # 2)) else Qceiling (q - (1 # 2)).

(** ** Results of calls that may panic or block *)

Inductive panic : Type :=
| IndexOutOfRange (idx : Z) (len : nat)
| NotSorted (idx : nat) (m count : Z)
| IntegerDivideByZero
| FontLoadFailed
| TooManyFontSizes
| IntnInvalidArgument.

Inductive result (A : Type) : Type :=
| Ok (a : A)
| Panic (p : panic)
| Blocked.
Arguments Ok {A} a.
Arguments Panic {A} p.
Arguments Blocked {A}.

#[global] Instance result_bind : MBind result := fun A B k r =>
  match r with
  | Ok a => k a
  | Panic p => Panic p
  | Blocked => Blocked
  end.
#[global] Instance result_ret : MRet result := fun A a => Ok a.

(** [s[i]] on a Go slice: panics out of range. *)
Definition index {A} (s : list A) (i : nat) : result A :=
  match s !! i with
  | Some a => Ok a
  | None => Panic (IndexOutOfRange (Z.of_nat i) (length s))
  end.

(** [s[i] = v] on a Go slice: panics out of range. *)
Definition assign {A} (s : list A) (i : nat) (v : A) : result (list A) :=
  if decide (i < length s)%nat then Ok (<[i := v]> s)
  else Panic (IndexOutOfRange (Z.of_nat i) (length s)).

(** ** Box / geometry *)

(** The fields of [Box], in the order of its positional literals in
    [Place] and [getPreciseBoundingBoxes]. *)
Record Box : Type := mkBox { Top : Q; Left : Q; Right : Q; Bottom : Q }.

(** Modelled from the spec: [Box.fits] (box.go is not among the sources).
    "true iff the rectangle lies entirely within
    [0, canvasWidth] x [0, canvasHeight]". *)
Definition fits (b : Box) (width height : Q) : bool :=
  Qle_bool 0 (Left b) && Qle_bool (Right b) width
  && Qle_bool 0 (Bottom b) && Qle_bool (Top b) height.

(** Modelled from the spec: [Box.overlaps] (box.go is not among the
    sources).  "true iff the two rectangles' projections intersect on both
    axes (...) strict inequality - edges touching but not crossing do not
    overlap". *)
Definition overlaps (a b : Box) : bool :=
  Qltb (Left a) (Right b) && Qltb (Left b) (Right a)
  && Qltb (Bottom a) (Top b) && Qltb (Bottom b) (Top a).

Definition wellFormed (b : Box) : Prop := Left b <= Right b /\ Bottom b <= Top b.

(** ** Spatial occupancy index *)

(** Modelled from the spec: [spatialHashMap] (spatialhashmap.go is not among
    the sources).  A bucket per cell of a coarse grid; the cell of a
    coordinate is its quotient by the cell size, rounded down.  [inserted]
    is the sequence of the rectangles handed to [Add], kept to state
    properties of "every inserted rectangle". *)
Record spatialHashMap : Type := mkGrid {
  gridWidth : Q;
  gridHeight : Q;
  cellSize : Z;
  cells : gmap (Z * Z) (list Box);
  inserted : list Box
}.

Definition newSpatialHashMap (width height : Q) (cellSize : Z) : spatialHashMap :=
  {| gridWidth := width; gridHeight := height; cellSize := cellSize;
     cells := ∅; inserted := [] |}.

Definition cellOf (g : spatialHashMap) (c : Q) : Z :=
  Qfloor (c / inject_Z (cellSize g)).

(** "the set of cells the rectangle's bounding box spans" *)
Definition spannedCells (g : spatialHashMap) (b : Box) : list (Z * Z) :=
  i ← seqZ (cellOf g (Left b)) (cellOf g (Right b) - cellOf g (Left b) + 1);
  j ← seqZ (cellOf g (Bottom b)) (cellOf g (Top b) - cellOf g (Bottom b) + 1);
  [(i, j)].

Definition bucket (m : gmap (Z * Z) (list Box)) (c : Z * Z) : list Box :=
  default [] (m !! c).

(** "appends the rectangle to each spanned cell's bucket" *)
Definition Add (g : spatialHashMap) (b : Box) : spatialHashMap :=
  {| gridWidth := gridWidth g; gridHeight := gridHeight g;
     cellSize := cellSize g;
     cells := foldr (fun c m => <[c := bucket m c ++ [b]]> m) (cells g)
                    (spannedCells g b);
     inserted := inserted g ++ [b] |}.

(** "for every rectangle recorded in any of those cells, applies
    overlapPredicate; returns true on first match" *)
Definition TestCollision (g : spatialHashMap) (b : Box)
    (test : Box -> Box -> bool) : bool * option Box :=
  match List.find (fun a => test a b)
          (c ← spannedCells g b; bucket (cells g) c) with
  | Some a => (true, Some a)
  | None => (false, None)
  end.

(** A rectangle is recorded when some bucket holds it. *)
Definition recorded (g : spatialHashMap) (a : Box) : Prop :=
  exists c, a ∈ bucket (cells g) c.

(** ** Maps keyed by a [float64]

    [map[float64]V] as an association list; the newest binding of a key is
    the first one, and keys are compared as numbers. *)

Fixpoint qlookup {A} (m : list (Q * A)) (k : Q) : option A :=
  match m with
  | [] => None
  | (k', v) :: m' => if Qeq_bool k' k then Some v else qlookup m' k
  end.

Definition qinsert {A} (k : Q) (v : A) (m : list (Q * A)) : list (Q * A) :=
  (k, v) :: m.

(** ** Candidate points and rings *)

Record point : Type := mkPoint { px : Q; py : Q }.

(** The points of one ring, in generation order ([circle.positions()]). *)
Definition circle : Type := list point.

(** ** Options *)

(** Colours are opaque to the placement engine. *)
Definition color : Type := Z.

(** The fields of [Options] that [wordcloud.go] reads (options.go is not
    among the sources). *)
Record Options : Type := mkOptions {
  FontMaxSize : Z;
  FontMinSize : Z;
  RandomPlacement : bool;
  FontFile : string;
  Colors : list color;
  BackgroundColor : color;
  Width : Z;
  Height : Z;
  Mask : list Box;
  Debug : bool;
  SizeFunction : Q -> Q
}.

(** ** The drawing context *)

(** What has been painted on the canvas so far; the pixels are a function
    of this history (see [ImageAt]). *)
Inductive drawOp : Type :=
| OpClear (c : color)
| OpString (s : string) (x y ax ay : Q) (face : option Z) (c : color)
| OpStrokeRect (b : Box) (c : color).

Record Context : Type := mkContext {
  dcWidth : Z;
  dcHeight : Z;
  dcColor : color;
  dcFace : option Z;
  dcOps : list drawOp
}.

Definition NewContext (width height : Z) : Context :=
  {| dcWidth := width; dcHeight := height; dcColor := 0%Z; dcFace := None;
     dcOps := [] |}.

Definition SetColor (dc : Context) (c : color) : Context :=
  {| dcWidth := dcWidth dc; dcHeight := dcHeight dc; dcColor := c;
     dcFace := dcFace dc; dcOps := dcOps dc |}.

Definition SetFontFace (dc : Context) (face : Z) : Context :=
  {| dcWidth := dcWidth dc; dcHeight := dcHeight dc; dcColor := dcColor dc;
     dcFace := Some face; dcOps := dcOps dc |}.

Definition paint (dc : Context) (op : drawOp) : Context :=
  {| dcWidth := dcWidth dc; dcHeight := dcHeight dc; dcColor := dcColor dc;
     dcFace := dcFace dc; dcOps := dcOps dc ++ [op] |}.

Definition Clear (dc : Context) : Context := paint dc (OpClear (dcColor dc)).

(** [dc.DrawRectangle(b.x(), b.y(), b.w(), b.h()); dc.Stroke()] *)
Definition strokeBox (dc : Context) (b : Box) : Context :=
  paint dc (OpStrokeRect b (dcColor dc)).

Definition DrawStringAnchored (dc : Context) (s : string) (x y ax ay : Q) : Context :=
  paint dc (OpString s x y ax ay (dcFace dc) (dcColor dc)).

(** The colour [SetRGB(0, 0, 0)] selects. *)
Definition black : color := 0%Z.

(** ** The word store *)

(** A [float32] that may be minus infinity: only the sentinel position
    holds one. *)
Inductive f32 : Type :=
| NegInf
| Fin (q : Q).

Record complex64 : Type := Complex { re : f32; im : f32 }.

Definition f32_eqb (a b : f32) : bool :=
  match a, b with
  | NegInf, NegInf => true
  | Fin p, Fin q => Qeq_bool p q
  | _, _ => false
  end.

Definition complex64_eqb (a b : complex64) : bool :=
  f32_eqb (re a) (re b) && f32_eqb (im a) (im b).

Definition notPlacedPos : complex64 := Complex NegInf (Fin 0).

Definition czero : complex64 := Complex (Fin 0) (Fin 0).

Record WordDataCoArrays : Type := mkWords {
  Word : list string;
  Count : list Z;
  ColorIndex : list Z;
  FontSize : list Q;
  Pos : list complex64;
  Rect : list complex64
}.

Definition NewWordDataCoArrays : WordDataCoArrays :=
  {| Word := []; Count := []; ColorIndex := []; FontSize := []; Pos := [];
     Rect := [] |}.

Definition WordAdd (inst : WordDataCoArrays) (word : string) (count : Z)
    (colorIndex : Z) : WordDataCoArrays :=
  {| Word := Word inst ++ [word]; Count := Count inst ++ [count];
     ColorIndex := ColorIndex inst ++ [colorIndex];
     FontSize := FontSize inst; Pos := Pos inst; Rect := Rect inst |}.

(** [slices.Grow(s[:0], n)[:n]]: a slice of length [n] over the old
    backing array, zero where the array had to grow. *)
Definition regrow {A} (zero : A) (s : list A) (n : nat) : list A :=
  take n (s ++ replicate n zero).

Definition Prepare (inst : WordDataCoArrays) : WordDataCoArrays :=
  let n := length (Word inst) in
  {| Word := Word inst; Count := Count inst; ColorIndex := ColorIndex inst;
     FontSize := regrow 0 (FontSize inst) n;
     Pos := replicate n notPlacedPos;
     Rect := regrow czero (Rect inst) n |}.

Definition Length (inst : WordDataCoArrays) : nat := length (Word inst).

Definition PlacedCount (inst : WordDataCoArrays) : nat :=
  length (filter (fun p => complex64_eqb p notPlacedPos = false) (Pos inst)).

Definition setFontSize (inst : WordDataCoArrays) (sizes : list Q) : WordDataCoArrays :=
  {| Word := Word inst; Count := Count inst; ColorIndex := ColorIndex inst;
     FontSize := sizes; Pos := Pos inst; Rect := Rect inst |}.

Definition setPosRect (inst : WordDataCoArrays) (pos rect : list complex64)
    : WordDataCoArrays :=
  {| Word := Word inst; Count := Count inst; ColorIndex := ColorIndex inst;
     FontSize := FontSize inst; Pos := pos; Rect := rect |}.

(** ** The engine *)

Record Wordcloud : Type := mkWordcloud {
  sortedWordList : WordDataCoArrays;
  grid : spatialHashMap;
  dc : Context;
  randomPlacement : bool;
  width : Q;
  height : Q;
  opts : Options;
  circles : list (Q * circle);
  fonts : gset Z;
  radii : list Q;
  (** how many numbers the process-wide generator of [math/rand] has
      handed out *)
  randDraws : nat
}.

Definition canvasWidth (w : Wordcloud) : Q := width w.
Definition canvasHeight (w : Wordcloud) : Q := height w.

(** [w.circles[r].positions()]: the points of the ring stored under
    radius [r].  Every radius of the table has its ring, in every engine
    [NewWordcloud] builds; a radius without ring reads as the empty
    ring. *)
Definition positions (w : Wordcloud) (r : Q) : list point :=
  default [] (qlookup (circles w) r).

(** ** Collaborators

    What the engine calls but does not define: the ring generator
    (circle.go, not among the sources), the font and drawing library, and
    the random generator. *)
Record Platform : Type := mkPlatform {
  (** [newCircle(cx, cy, radius, 512).positions()] *)
  newCircle : Q -> Q -> Q -> Z -> circle;
  (** [dc.MeasureString(word)] under the current font face *)
  MeasureString : option Z -> string -> Q * Q;
  (** whether [gg.LoadFontFace(file, size)] succeeds *)
  LoadFontFace : string -> Z -> bool;
  (** [dc.Image().At(i, j)] after the given drawing history *)
  ImageAt : Context -> Z -> Z -> color;
  (** the [k]-th number of the random stream, drawn with bound [n] *)
  Intn : nat -> Z -> Z;
  (** [runtime.NumCPU()] *)
  NumCPU : nat
}.

Section Engine.

Context (P : Platform).

(** *** Construction: [NewWordcloud] *)

(** The size of a word of the given count: the body of the
    size-assignment loop between the sortedness check and the store. *)
Definition wordSize (o : Options) (wordCountMax : Q) (count : Z) : Q :=
  let size := SizeFunction o (inject_Z count / wordCountMax)
              * inject_Z (FontMaxSize o) in
  if Qltb size (inject_Z (FontMinSize o)) then inject_Z (FontMinSize o)
  else size.

(** The size-assignment loop of [NewWordcloud]: [counts] is what is left of
    [sortedWordList.Count], [idx] the index of its head, [m] the count seen
    just before. *)
Fixpoint assignSizes (o : Options) (wordCountMax : Q) (counts : list Z)
    (idx : nat) (m : Z) (sizes : list Q) : result (list Q) :=
  match counts with
  | [] => Ok sizes
  | count :: rest =>
      if (m <? count)%Z then Panic (NotSorted idx m count)
      else
        sizes' ← assign sizes idx (wordSize o wordCountMax count);
        assignSizes o wordCountMax rest (S idx) count sizes'
  end.

(** The mask loop: every mask rectangle goes into the index, and onto the
    canvas in debug mode. *)
Fixpoint addMask (debug : bool) (mask : list Box) (dc : Context)
    (g : spatialHashMap) : Context * spatialHashMap :=
  match mask with
  | [] => (dc, g)
  | b :: rest =>
      let dc := if debug then strokeBox dc b else dc in
      addMask debug rest dc (Add g b)
  end.

(** The ring loop, [for radius < maxRadius], with
    [maxRadius = math.Sqrt(float64(diag2))]: a positive [radius] is below
    the square root exactly when its square is below [diag2].  [fuel]
    bounds the number of rounds. *)
Fixpoint ringLoop (fuel : nat) (cx cy : Q) (diag2 : Z) (radius : Q)
    (circles : list (Q * circle)) (radii : list Q)
    : list (Q * circle) * list Q :=
  match fuel with
  | O => (circles, radii)
  | S fuel' =>
      if Qltb (radius * radius) (inject_Z diag2) then
        ringLoop fuel' cx cy diag2 (radius + 5)
          ((radius, newCircle P cx cy radius 512) :: circles)
          (radii ++ [radius])
      else (circles, radii)
  end.

Definition NewWordcloud (sortedWordList : WordDataCoArrays) (o : Options)
    : result Wordcloud :=
  wordCountMaxInt ← index (Count sortedWordList) 0;
  let wordCountMax := inject_Z wordCountMaxInt in
  let sortedWordList := Prepare sortedWordList in
  sizes ← assignSizes o wordCountMax (Count sortedWordList) 0 wordCountMaxInt
            (FontSize sortedWordList);
  let sortedWordList := setFontSize sortedWordList sizes in
  let dc := NewContext (Width o) (Height o) in
  let dc := SetColor dc (BackgroundColor o) in
  let dc := Clear dc in
  let dc := SetColor dc black in
  let grid := newSpatialHashMap (inject_Z (Width o)) (inject_Z (Height o))
                (Height o ÷ 10) in
  let '(dc, grid) := addMask (Debug o) (Mask o) dc grid in
  let diag2 := (Width o * Width o + Height o * Height o)%Z in
  let '(circles, radii) :=
    ringLoop (Z.to_nat (Z.sqrt diag2)) (inject_Z (Width o ÷ 2))
      (inject_Z (Height o ÷ 2)) diag2 1 [] [] in
  Ok {| sortedWordList := sortedWordList;
        grid := grid;
        dc := dc;
        randomPlacement := RandomPlacement o;
        width := inject_Z (Width o);
        height := inject_Z (Height o);
        opts := o;
        circles := circles;
        fonts := ∅;
        radii := radii;
        randDraws := 0 |}.

(** *** The search: [testRadius], [nextRandom], [nextPos] *)

(** The rectangle a search tests around the point [(x, y)]. *)
Definition candidate (x y width height : Q) : Box :=
  {| Top := y + height / 2; Left := x - width / 2;
     Right := x + width / 2; Bottom := y - height / 2 |}.

(** [w.grid.TestCollision(&box, func(a, b) { return a.overlaps(b) })] *)
Definition colliding (w : Wordcloud) (box : Box) : bool :=
  fst (TestCollision (grid w) box overlaps).

(** Results sent from placement workers. *)
Record res : Type := mkRes { radius : Q; resx : Q; resy : Q; failed : bool }.

(** The zero value a map of [res] yields for a missing key. *)
Definition zeroRes : res := {| radius := 0; resx := 0; resy := 0; failed := false |}.

Fixpoint testRadiusLoop (w : Wordcloud) (points : list point) (x y : Q)
    (radius width height : Q) : res :=
  match points with
  | [] => {| radius := radius; resx := x; resy := y; failed := true |}
  | p :: rest =>
      let y := py p in
      let x := px p in
      let box := candidate x y width height in
      if negb (fits box (canvasWidth w) (canvasHeight w)) then
        testRadiusLoop w rest x y radius width height
      else if negb (colliding w box) then
        {| radius := radius; resx := x; resy := y; failed := false |}
      else testRadiusLoop w rest x y radius width height
  end.

Definition testRadius (w : Wordcloud) (radius : Q) (points : list point)
    (width height : Q) : res :=
  testRadiusLoop w points 0 0 radius width height.

(** [rand.Intn(n)]: panics unless [n] is positive. *)
Definition randIntn (draws : nat) (n : Z) : result Z :=
  if (n <=? 0)%Z then Panic IntnInvalidArgument else Ok (Intn P draws n).

(** What [nextRandom] leaves behind: its three results, the final value of
    [tries], and the position in the random stream. *)
Record randomOutcome : Type := mkRandomOutcome {
  rox : Q; roy : Q; rospace : bool; rotries : Z; rodraws : nat
}.

Definition maxTries : Z := 5000000.

(** The loop of [nextRandom]; [budget] bounds the number of rounds and is
    never the reason to stop when it starts at [maxTries - tries]. *)
Fixpoint nextRandomLoop (budget : nat) (w : Wordcloud) (width height : Q)
    (tries : Z) (x y : Q) (draws : nat) : result randomOutcome :=
  match budget with
  | O => Ok {| rox := x; roy := y; rospace := false; rotries := tries;
               rodraws := draws |}
  | S budget' =>
      if (tries <? maxTries)%Z then
        let tries := (tries + 1)%Z in
        xi ← randIntn draws (dcWidth (dc w));
        yi ← randIntn (S draws) (dcHeight (dc w));
        let x := inject_Z xi in
        let y := inject_Z yi in
        let draws := S (S draws) in
        let box := candidate x y width height in
        if negb (fits box (canvasWidth w) (canvasHeight w)) then
          nextRandomLoop budget' w width height tries x y draws
        else if negb (colliding w box) then
          Ok {| rox := x; roy := y; rospace := true; rotries := tries;
                rodraws := draws |}
        else nextRandomLoop budget' w width height tries x y draws
      else Ok {| rox := x; roy := y; rospace := false; rotries := tries;
                 rodraws := draws |}
  end.

Definition withDraws (w : Wordcloud) (draws : nat) : Wordcloud :=
  {| sortedWordList := sortedWordList w; grid := grid w; dc := dc w;
     randomPlacement := randomPlacement w; width := width w;
     height := height w; opts := opts w; circles := circles w;
     fonts := fonts w; radii := radii w; randDraws := draws |}.

Definition nextRandom (w : Wordcloud) (width height : Q)
    : result (Wordcloud * (Q * Q * bool)) :=
  o ← nextRandomLoop (Z.to_nat maxTries) w width height 0 0 0 (randDraws w);
  Ok (withDraws w (rodraws o), (rox o, roy o, rospace o)).

(** The aggregator's bookkeeping: [results] and [done]. *)
Record tally : Type := mkTally {
  results : list (Q * res);
  done : list (Q * bool)
}.

Definition emptyTally : tally := {| results := []; done := [] |}.

Definition isDone (t : tally) (r : Q) : bool := default false (qlookup (done t) r).
Definition resultOf (t : tally) (r : Q) : res := default zeroRes (qlookup (results t) r).

Inductive verdict : Type :=
| Found (x y : Q)
| Exhausted
| Pending.

(** The inner loop of the aggregator, over [w.radii]. *)
Fixpoint scan (radii : list Q) (t : tally) : verdict :=
  match radii with
  | [] => Exhausted
  | r :: rest =>
      if negb (isDone t r) then Pending
      else if negb (failed (resultOf t r)) then
        Found (resx (resultOf t r)) (resy (resultOf t r))
      else scan rest t
  end.

(** One round of the aggregator: book the result [d], then look for a
    final answer. *)
Definition record (d : res) (t : tally) : tally :=
  {| results := qinsert (radius d) d (results t);
     done := qinsert (radius d) true (done t) |}.

Definition answer (w : Wordcloud) (v : verdict) : option (Q * Q * bool) :=
  match v with
  | Found x y => Some (x, y, true)
  | Exhausted => Some (canvasWidth w, canvasHeight w, false)
  | Pending => None
  end.

(** The aggregator fed with the results in their order of arrival: the
    value [nextPos] returns, or [None] while it waits for more. *)
Fixpoint aggregate (w : Wordcloud) (arrivals : list res) (t : tally)
    : option (Q * Q * bool) :=
  match arrivals with
  | [] => None
  | d :: rest =>
      let t := record d t in
      match answer w (scan (radii w) t) with
      | Some v => Some v
      | None => aggregate w rest t
      end
  end.

(** The result a worker posts for the ring of radius [r]. *)
Definition ringResult (w : Wordcloud) (width height : Q) (r : Q) : res :=
  testRadius w r (positions w r) width height.

(** [nextPos].  In the concurrent mode the answer is that of the
    aggregator when the rings report in dispatch order; the arrival order
    does not change it, as the section on the goroutines shows for every
    schedule.  Without any ring no result ever arrives and the aggregator
    waits for ever. *)
Definition nextPos (w : Wordcloud) (width height : Q)
    : result (Wordcloud * (Q * Q * bool)) :=
  if randomPlacement w then nextRandom w width height
  else
    match aggregate w (map (ringResult w width height) (radii w)) emptyTally with
    | Some v => Ok (w, v)
    | None => Blocked
    end.

(** *** Placement: [setFont], [getPreciseBoundingBoxes], [Place], [Draw] *)

Definition withFonts (w : Wordcloud) (fs : gset Z) : Wordcloud :=
  {| sortedWordList := sortedWordList w; grid := grid w; dc := dc w;
     randomPlacement := randomPlacement w; width := width w;
     height := height w; opts := opts w; circles := circles w;
     fonts := fs; radii := radii w; randDraws := randDraws w |}.

Definition withDc (w : Wordcloud) (c : Context) : Wordcloud :=
  {| sortedWordList := sortedWordList w; grid := grid w; dc := c;
     randomPlacement := randomPlacement w; width := width w;
     height := height w; opts := opts w; circles := circles w;
     fonts := fonts w; radii := radii w; randDraws := randDraws w |}.

Definition withGrid (w : Wordcloud) (g : spatialHashMap) : Wordcloud :=
  {| sortedWordList := sortedWordList w; grid := g; dc := dc w;
     randomPlacement := randomPlacement w; width := width w;
     height := height w; opts := opts w; circles := circles w;
     fonts := fonts w; radii := radii w; randDraws := randDraws w |}.

Definition withWords (w : Wordcloud) (d : WordDataCoArrays) : Wordcloud :=
  {| sortedWordList := d; grid := grid w; dc := dc w;
     randomPlacement := randomPlacement w; width := width w;
     height := height w; opts := opts w; circles := circles w;
     fonts := fonts w; radii := radii w; randDraws := randDraws w |}.

Definition setFont (w : Wordcloud) (fontSize : Q) : result Wordcloud :=
  let rounded := Qround fontSize in
  w ← (if decide (rounded ∈ fonts w) then Ok w
       else if negb (LoadFontFace P (FontFile (opts w)) rounded) then
         Panic FontLoadFailed
       else if decide (100 < size (fonts w))%nat then Panic TooManyFontSizes
       else Ok (withFonts w ({[rounded]} ∪ fonts w)));
  Ok (withDc w (SetFontFace (dc w) rounded)).

(** The values [lo, lo + 5, lo + 10, ...] below [hi]: the range of a loop
    [for i := lo; i < hi; i = i + step] with [step = 5]. *)
Definition stepsBelow (lo hi : Z) : list Z :=
  (fun k => lo + 5 * k)%Z <$> seqZ 0 ((hi - lo + 4) `div` 5).

Definition getPreciseBoundingBoxes (w : Wordcloud) (b : Box) : list Box :=
  let step := 5%Z in
  let defColor := BackgroundColor (opts w) in
  i ← stepsBelow (Qfloor (Left b)) (Qtrunc (Right b));
  j ← stepsBelow (Qtrunc (Bottom b)) (Qtrunc (Top b));
  if decide (ImageAt P (dc w) i j ≠ defColor) then
    [ {| Top := inject_Z (j + step) + 5; Left := inject_Z i - 5;
         Right := inject_Z (i + step) + 5; Bottom := inject_Z j - 5 |} ]
  else [].

(** The loop of [Place] over the refined rectangles. *)
Fixpoint addPrecise (debug : bool) (boxes : list Box) (dc : Context)
    (g : spatialHashMap) : Context * spatialHashMap :=
  match boxes with
  | [] => (dc, g)
  | pb :: rest =>
      let g := Add g pb in
      let dc := if debug then strokeBox dc pb else dc in
      addPrecise debug rest dc g
  end.

(** The rectangle [Place] reserves for a word drawn around [(x, y)]. *)
Definition reservedBox (x y width height : Q) : Box :=
  {| Top := y + height / 2 + 0.3 * height; Left := x - width / 2;
     Right := x + width / 2; Bottom := Qmax (y - height / 2) 0 |}.

(** [Place(idx)], for the indices [Draw] passes (never negative). *)
Definition Place (w : Wordcloud) (idx : nat) : result (Wordcloud * bool) :=
  let data := sortedWordList w in
  word ← index (Word data) idx;
  let colors := Colors (opts w) in
  ci ← index (ColorIndex data) idx;
  k ← (if decide (length colors = 0%nat) then Panic IntegerDivideByZero
       else Ok (Z.to_nat (ci `rem` Z.of_nat (length colors))));
  c ← index colors k;
  let w := withDc w (SetColor (dc w) c) in
  fs ← index (FontSize data) idx;
  w ← setFont w fs;
  let '(width, height) := MeasureString P (dcFace (dc w)) word in
  let width := width + 5 in
  let height := height + 5 in
  '(w, (x, y, space)) ← nextPos w width height;
  let data := sortedWordList w in
  if negb space then
    pos ← assign (Pos data) idx notPlacedPos;
    rect ← assign (Rect data) idx czero;
    Ok (withWords w (setPosRect data pos rect), false)
  else
    let ax := 0.5 in
    let ay := 0.5 in
    let w := withDc w (DrawStringAnchored (dc w) word x y ax ay) in
    pos ← assign (Pos data) idx
            (Complex (Fin (x - ax * (width - 5))) (Fin (y - ay * (height - 5))));
    rect ← assign (Rect data) idx (Complex (Fin (width - 5)) (Fin (height - 5)));
    let w := withWords w (setPosRect data pos rect) in
    let box := reservedBox x y width height in
    if Qltb 40 height then
      let preciseBoxes := getPreciseBoundingBoxes w box in
      let '(dc', g) := addPrecise (Debug (opts w)) preciseBoxes (dc w) (grid w) in
      Ok (withDc (withGrid w g) dc', true)
    else Ok (withGrid w (Add (grid w) box), true).

(** The loop of [Draw]: [n] words are left, [i] is the next index.  Beside
    the engine it yields the indices it handed to [Place], each with the
    answer of [Place]. *)
Fixpoint DrawLoop (n : nat) (w : Wordcloud) (i : nat) (consecutiveMisses : nat)
    : result (Wordcloud * list (nat * bool)) :=
  match n with
  | O => Ok (w, [])
  | S n' =>
      '(w, success) ← Place w i;
      if negb success then
        let consecutiveMisses := S consecutiveMisses in
        if decide (10 < consecutiveMisses)%nat then Ok (w, [(i, false)])
        else
          '(w, log) ← DrawLoop n' w (S i) consecutiveMisses;
          Ok (w, (i, false) :: log)
      else
        '(w, log) ← DrawLoop n' w (S i) 0;
        Ok (w, (i, true) :: log)
  end.

Definition DrawLog (w : Wordcloud) : result (Wordcloud * list (nat * bool)) :=
  DrawLoop (Length (sortedWordList w)) w 0 0.


End Engine.


(** ** More of the word store: [ApplyColorPaletteSize], [AllPlaced] *)

(** The loop of [ApplyColorPaletteSize]: [ci[i] = idx % sz] on [uint16]
    values; the remainder by zero panics, at the first entry. *)
Fixpoint applyPaletteLoop (ci : list Z) (sz : Z) : result (list Z) :=
  match ci with
  | [] => Ok []
  | idx :: rest =>
      if (sz =? 0)%Z then Panic IntegerDivideByZero
      else rest' ← applyPaletteLoop rest sz; Ok ((idx `rem` sz)%Z :: rest')
  end.

Definition ApplyColorPaletteSize (inst : WordDataCoArrays) (sz : Z)
    : result WordDataCoArrays :=
  ci ← applyPaletteLoop (ColorIndex inst) sz;
  Ok {| Word := Word inst; Count := Count inst; ColorIndex := ci;
        FontSize := FontSize inst; Pos := Pos inst; Rect := Rect inst |}.

(** The iterator [AllPlaced()] run against a consumer.  [yield] stands for
    the consumer's answer, which may depend on everything it was handed so
    far (the newest index last); the result is what the consumer was
    handed when the iterator returns. *)
Fixpoint allPlacedLoop (pos : list complex64) (i : nat)
    (yield : list nat -> bool) (handed : list nat) : list nat :=
  match pos with
  | [] => handed
  | p :: rest =>
      if negb (complex64_eqb p notPlacedPos) then
        let handed := handed ++ [i] in
        if negb (yield handed) then handed
        else allPlacedLoop rest (S i) yield handed
      else allPlacedLoop rest (S i) yield handed
  end.

Definition AllPlaced (inst : WordDataCoArrays) (yield : list nat -> bool)
    : list nat :=
  allPlacedLoop (Pos inst) 0 yield [].

(** * Notions the properties are stated with *)

(** A word store filled through [Add], one entry (word, count, colour
    index) at a time. *)
Definition fromEntries (es : list (string * Z * Z)) : WordDataCoArrays :=
  foldl (fun d e => WordAdd d e.1.1 e.1.2 e.2) NewWordDataCoArrays es.

(** Counts in non-increasing order: no later count exceeds an earlier one. *)
Definition nonIncreasing (counts : list Z) : Prop :=
  forall i j a b, (i <= j)%nat ->
    counts !! i = Some a -> counts !! j = Some b -> (b <= a)%Z.

(** Some count strictly exceeds the count just before it. *)
Definition adjacentRise (counts : list Z) : Prop :=
  exists i a b, counts !! i = Some a /\ counts !! S i = Some b /\ (a < b)%Z.

(** The check of the size-assignment loop, on its own. *)
Fixpoint descendingFrom (m : Z) (counts : list Z) : bool :=
  match counts with
  | [] => true
  | count :: rest => negb (m <? count)%Z && descendingFrom count rest
  end.



(** A candidate rectangle is valid when it fits the canvas and the index
    reports no collision. *)
Definition valid (w : Wordcloud) (box : Box) : Prop :=
  fits box (canvasWidth w) (canvasHeight w) = true /\ colliding w box = false.

(** The rectangle tried around a candidate point. *)
Definition candidateAt (p : point) (width height : Q) : Box :=
  candidate (px p) (py p) width height.

(** The run of the loop of [nextRandom] from the top of the function. *)
Abbreviation nextRandomOutcome P w width height :=
  (nextRandomLoop P (Z.to_nat maxTries) w width height 0 0 0 (randDraws w)).

(** The point the random search samples with the draws number [draws] and
    [draws + 1] of the random stream. *)
Definition sample (P : Platform) (w : Wordcloud) (draws : nat) : Q * Q :=
  (inject_Z (Intn P draws (dcWidth (dc w))),
   inject_Z (Intn P (S draws) (dcHeight (dc w)))).

(** The aggregator's bookkeeping after the given results were booked, in
    order. *)
Definition bookAll (arrivals : list res) (t : tally) : tally :=
  foldl (fun t d => record d t) t arrivals.

(** Radii in strictly increasing order. *)
Definition increasing (rs : list Q) : Prop :=
  forall i j a b, (i < j)%nat -> rs !! i = Some a -> rs !! j = Some b -> a < b.

(** The engines a program can hold: built by [NewWordcloud], then changed
    by calls of [Place] only. *)
Inductive engineState (P : Platform) : Wordcloud -> Prop :=
| engine_new wl o w :
    NewWordcloud P wl o = Ok w -> engineState P w
| engine_place w idx w' b :
    engineState P w -> Place P w idx = Ok (w', b) -> engineState P w'.

(** The fields of an engine that no placement changes. *)
Definition sameTable (w w' : Wordcloud) : Prop :=
  radii w' = radii w /\ circles w' = circles w
  /\ width w' = width w /\ height w' = height w
  /\ opts w' = opts w /\ randomPlacement w' = randomPlacement w.

(** The same engine up to the drawing context, the font cache and the
    position in the random stream. *)
Definition sameIndex (w w' : Wordcloud) : Prop :=
  sameTable w w' /\ grid w' = grid w /\ sortedWordList w' = sortedWordList w.

(** Every radius booked as done was reported by one of the results booked,
    and the result kept for it is the one reported last. *)
Definition booked (seen : list res) (t : tally) : Prop :=
  forall r, isDone t r = true ->
    exists d, d ∈ seen /\ radius d == r /\ resultOf t r = d.

(** The rectangles [Place] hands to the index for a word whose padded box
    is [width] x [height], drawn around [(x, y)]; [w] is the engine after
    the word was painted. *)
Definition boxesFor (P : Platform) (w : Wordcloud) (x y width height : Q)
    : list Box :=
  if Qltb 40 height then
    getPreciseBoundingBoxes P w (reservedBox x y width height)
  else [reservedBox x y width height].

(** The engine after [Place] painted word [idx] around [(x, y)] and stored
    its position and size. *)
Definition painted (w : Wordcloud) (idx : nat) (word : string)
    (x y width height : Q) : Wordcloud :=
  withWords (withDc w (DrawStringAnchored (dc w) word x y 0.5 0.5))
    (setPosRect (sortedWordList w)
       (<[idx := Complex (Fin (x - 0.5 * (width - 5)))
                         (Fin (y - 0.5 * (height - 5)))]>
          (Pos (sortedWordList w)))
       (<[idx := Complex (Fin (width - 5)) (Fin (height - 5))]>
          (Rect (sortedWordList w)))).

(** The engine after [Place] marked word [idx] as not placed. *)
Definition unplaced (w : Wordcloud) (idx : nat) : Wordcloud :=
  withWords w
    (setPosRect (sortedWordList w)
       (<[idx := notPlacedPos]> (Pos (sortedWordList w)))
       (<[idx := czero]> (Rect (sortedWordList w)))).

(** The value of the consecutive-failure counter of [Draw] after the given
    answers of [Place]: a success resets it, a failure adds one. *)
Definition consecutiveMissesAfter (start : nat) (outcomes : list bool) : nat :=
  foldl (fun (c : nat) (success : bool) => if success then 0%nat else S c)
    start outcomes.

(** A word counts as placed when its position is not the sentinel. *)
Definition isPlaced (p : complex64) : bool := negb (complex64_eqb p notPlacedPos).

(** The indices of the placed words, in increasing order, from index [i]
    on. *)
Fixpoint placedIndices (pos : list complex64) (i : nat) : list nat :=
  match pos with
  | [] => []
  | p :: rest =>
      if isPlaced p then i :: placedIndices rest (S i)
      else placedIndices rest (S i)
  end.

(** A [uint16] value. *)
Definition isUint16 (z : Z) : Prop := (0 <= z < 65536)%Z.

(** The answer of the search read off the ring table: the first ring, in
    table order, that has a valid point, with its first valid point; the
    canvas size and failure when no ring has one. *)
Fixpoint searchResult (w : Wordcloud) (width height : Q) (rs : list Q)
    : Q * Q * bool :=
  match rs with
  | [] => (canvasWidth w, canvasHeight w, false)
  | r :: rest =>
      let d := ringResult w width height r in
      if failed d then searchResult w width height rest
      else (resx d, resy d, true)
  end.

(** The buckets agree with the insertion log: every inserted rectangle is
    in the bucket of each cell it spans. *)
Definition indexed (g : spatialHashMap) : Prop :=
  forall a c, a ∈ inserted g -> c ∈ spannedCells g a -> a ∈ bucket (cells g) c.

(** The part of a reserved rectangle the search had tested: [Place]
    reserves 1.3 times the padded height, from the bottom of the tested
    rectangle upwards, so the tested part is the lower ten thirteenths. *)
Definition testedPart (b : Box) : Box :=
  {| Top := Bottom b + (Top b - Bottom b) * (10 # 13); Left := Left b;
     Right := Right b; Bottom := Bottom b |}.

(** The insertion log of a pass in which every word takes the coarse path
    of [Place]: the mask rectangles, then one reserved rectangle per
    placed word; each is well formed, and the tested part of a word's
    rectangle overlaps nothing inserted before it. *)
Definition apart (masks : nat) (log : list Box) : Prop :=
  (forall a, a ∈ log -> wellFormed a)
  /\ forall i j a b, (i < j)%nat -> (masks <= j)%nat ->
       log !! i = Some a -> log !! j = Some b ->
       overlaps a (testedPart b) = false.

(** * The goroutines of [nextPos]

    The concurrent mode of [nextPos] as a transition system: the calling
    goroutine ("main"), the workers, the goroutine that posts the rings and
    the goroutine that purges the result channel, communicating through
    buffered channels and a wait group.  One [action] is one step of one
    goroutine; a [select] with several ready cases is resolved by the
    action chosen.  A goroutine that cannot proceed (empty or full channel,
    wait group not at zero) has no step. *)

(** Data sent to placement workers. *)
Record workerData : Type := mkWorkerData {
  wdRadius : Q;
  wdPositions : list point;
  wdWidth : Q;
  wdHeight : Q
}.

(** A buffered channel. *)
Record chan (A : Type) : Type := mkChan {
  buffer : list A;
  capacity : nat;
  closed : bool
}.
Arguments mkChan {A} buffer capacity closed.
Arguments buffer {A} c.
Arguments capacity {A} c.
Arguments closed {A} c.

Definition makeChan {A} (capacity : nat) : chan A :=
  {| buffer := []; capacity := capacity; closed := false |}.

(** [c <- a]: possible when the buffer has room. *)
Definition send {A} (c : chan A) (a : A) : option (chan A) :=
  if decide (length (buffer c) < capacity c)%nat then
    Some {| buffer := buffer c ++ [a]; capacity := capacity c;
            closed := closed c |}
  else None.

(** [<-c] on a channel that holds a value. *)
Definition receive {A} (c : chan A) : option (A * chan A) :=
  match buffer c with
  | a :: rest =>
      Some (a, {| buffer := rest; capacity := capacity c; closed := closed c |})
  | [] => None
  end.

Definition close {A} (c : chan A) : chan A :=
  {| buffer := buffer c; capacity := capacity c; closed := true |}.

(** Where a worker is in its loop. *)
Inductive workerPc : Type :=
| WSelect                      (* at the [select] *)
| WTesting (d : workerData)    (* inside [w.testRadius], reading the index *)
| WPosting (r : res)           (* at [aggCh <- ...] *)
| WReturning                   (* left the loop; [wg.Done] is still due *)
| WStopped.

(** Where the goroutine that posts the rings is: the radii it has not
    offered yet, or finished. *)
Inductive senderPc : Type :=
| SNotStarted
| SSelect (rest : list Q)
| SFinished.

Inductive purgerPc : Type :=
| PNotStarted
| PRunning
| PFinished.

(** Where the caller of [nextPos] is. *)
Inductive mainPc : Type :=
| MEntry
| MSpawn (i : nat)                               (* the loop starting workers *)
| MStartSender
| MAggregate                                     (* [for d := range aggCh] *)
| MDeferStopSending (v : Q * Q * bool)           (* the deferred function ... *)
| MDeferStopWorkers (v : Q * Q * bool) (i : nat)
| MDeferPurge (v : Q * Q * bool)
| MDeferWait (v : Q * Q * bool)                  (* ... at [wg.Wait()] *)
| MReturned (v : Q * Q * bool).

Record search : Type := mkSearch {
  main : mainPc;
  book : tally;
  workers : list workerPc;
  stopChannels : list (chan unit);
  sender : senderPc;
  purger : purgerPc;
  stopSendingCh : chan unit;
  aggCh : chan res;
  workCh : chan workerData;
  wg : nat
}.

Inductive action : Type :=
| ActMain
| ActWorkerTake (i : nat)      (* [case d, ok := <-workCh], a value *)
| ActWorkerClosed (i : nat)    (* [case d, ok := <-workCh], closed *)
| ActWorkerStop (i : nat)      (* [case <-ch] *)
| ActWorkerTest (i : nat)      (* [w.testRadius(...)] *)
| ActWorkerPost (i : nat)      (* [aggCh <- ...] *)
| ActWorkerDone (i : nat)      (* the deferred [wg.Done()] *)
| ActSenderStop                (* [case <-stopSendingCh] *)
| ActSenderSend                (* [case workCh <- workerData{...}] *)
| ActSenderClose               (* [close(workCh)] after the loop *)
| ActPurgerDrain               (* [case <-aggCh] *)
| ActPurgerQuit.               (* [default: return] *)

Section Search.

Context (P : Platform) (w : Wordcloud) (width height : Q).

Definition searchStart : search :=
  {| main := MEntry; book := emptyTally; workers := []; stopChannels := [];
     sender := SNotStarted; purger := PNotStarted;
     stopSendingCh := makeChan 1; aggCh := makeChan 100;
     workCh := makeChan (NumCPU P); wg := 0 |}.

Definition setMain (s : search) (m : mainPc) : search :=
  {| main := m; book := book s; workers := workers s;
     stopChannels := stopChannels s; sender := sender s; purger := purger s;
     stopSendingCh := stopSendingCh s; aggCh := aggCh s; workCh := workCh s;
     wg := wg s |}.

Definition setWorker (s : search) (i : nat) (k : workerPc) : search :=
  {| main := main s; book := book s; workers := <[i := k]> (workers s);
     stopChannels := stopChannels s; sender := sender s; purger := purger s;
     stopSendingCh := stopSendingCh s; aggCh := aggCh s; workCh := workCh s;
     wg := wg s |}.

Definition setSender (s : search) (k : senderPc) : search :=
  {| main := main s; book := book s; workers := workers s;
     stopChannels := stopChannels s; sender := k; purger := purger s;
     stopSendingCh := stopSendingCh s; aggCh := aggCh s; workCh := workCh s;
     wg := wg s |}.

Definition setPurger (s : search) (k : purgerPc) : search :=
  {| main := main s; book := book s; workers := workers s;
     stopChannels := stopChannels s; sender := sender s; purger := k;
     stopSendingCh := stopSendingCh s; aggCh := aggCh s; workCh := workCh s;
     wg := wg s |}.

Definition setAggCh (s : search) (c : chan res) : search :=
  {| main := main s; book := book s; workers := workers s;
     stopChannels := stopChannels s; sender := sender s; purger := purger s;
     stopSendingCh := stopSendingCh s; aggCh := c; workCh := workCh s;
     wg := wg s |}.

Definition setWorkCh (s : search) (c : chan workerData) : search :=
  {| main := main s; book := book s; workers := workers s;
     stopChannels := stopChannels s; sender := sender s; purger := purger s;
     stopSendingCh := stopSendingCh s; aggCh := aggCh s; workCh := c;
     wg := wg s |}.

Definition setStopSendingCh (s : search) (c : chan unit) : search :=
  {| main := main s; book := book s; workers := workers s;
     stopChannels := stopChannels s; sender := sender s; purger := purger s;
     stopSendingCh := c; aggCh := aggCh s; workCh := workCh s;
     wg := wg s |}.

Definition setStopChannel (s : search) (i : nat) (c : chan unit) : search :=
  {| main := main s; book := book s; workers := workers s;
     stopChannels := <[i := c]> (stopChannels s); sender := sender s;
     purger := purger s; stopSendingCh := stopSendingCh s; aggCh := aggCh s;
     workCh := workCh s; wg := wg s |}.

(** [wg.Add(1)], a fresh stop channel, and the [go] statement of a
    worker. *)
Definition spawnWorker (s : search) : search :=
  {| main := main s; book := book s; workers := workers s ++ [WSelect];
     stopChannels := stopChannels s ++ [makeChan 1]; sender := sender s;
     purger := purger s; stopSendingCh := stopSendingCh s; aggCh := aggCh s;
     workCh := workCh s; wg := S (wg s) |}.

Definition setBook (s : search) (t : tally) : search :=
  {| main := main s; book := t; workers := workers s;
     stopChannels := stopChannels s; sender := sender s; purger := purger s;
     stopSendingCh := stopSendingCh s; aggCh := aggCh s; workCh := workCh s;
     wg := wg s |}.

Definition wgDone (s : search) : search :=
  {| main := main s; book := book s; workers := workers s;
     stopChannels := stopChannels s; sender := sender s; purger := purger s;
     stopSendingCh := stopSendingCh s; aggCh := aggCh s; workCh := workCh s;
     wg := pred (wg s) |}.

(** One step of the calling goroutine. *)
Definition stepMain (s : search) : option search :=
  match main s with
  | MEntry =>
      if randomPlacement w then
        match nextRandom P w width height with
        | Ok (_, v) => Some (setMain s (MReturned v))
        | _ => None
        end
      else Some (setMain s (MSpawn 0))
  | MSpawn i =>
      if decide (i < NumCPU P)%nat then
        Some (setMain (spawnWorker s) (MSpawn (S i)))
      else Some (setMain s MStartSender)
  | MStartSender =>
      Some (setMain (setSender s (SSelect (radii w))) MAggregate)
  | MAggregate =>
      '(d, c) ← receive (aggCh s);
      let t := record d (book s) in
      let s := setBook (setAggCh s c) t in
      match answer w (scan (radii w) t) with
      | Some v => Some (setMain s (MDeferStopSending v))
      | None => Some s
      end
  | MDeferStopSending v =>
      c ← send (stopSendingCh s) ();
      Some (setMain (setStopSendingCh s c) (MDeferStopWorkers v 0))
  | MDeferStopWorkers v i =>
      match stopChannels s !! i with
      | Some ch =>
          c ← send ch ();
          Some (setMain (setStopChannel s i c) (MDeferStopWorkers v (S i)))
      | None => Some (setMain s (MDeferPurge v))
      end
  | MDeferPurge v => Some (setMain (setPurger s PRunning) (MDeferWait v))
  | MDeferWait v =>
      if decide (wg s = 0)%nat then Some (setMain s (MReturned v)) else None
  | MReturned _ => None
  end.

(** One step of a goroutine. *)
Definition fire (a : action) (s : search) : option search :=
  match a with
  | ActMain => stepMain s
  | ActWorkerTake i =>
      match workers s !! i with
      | Some WSelect =>
          '(d, c) ← receive (workCh s);
          Some (setWorker (setWorkCh s c) i (WTesting d))
      | _ => None
      end
  | ActWorkerClosed i =>
      match workers s !! i, buffer (workCh s), closed (workCh s) with
      | Some WSelect, [], true => Some (setWorker s i WReturning)
      | _, _, _ => None
      end
  | ActWorkerStop i =>
      match workers s !! i, stopChannels s !! i with
      | Some WSelect, Some ch =>
          '(_, c) ← receive ch;
          Some (setWorker (setStopChannel s i c) i WReturning)
      | _, _ => None
      end
  | ActWorkerTest i =>
      match workers s !! i with
      | Some (WTesting d) =>
          Some (setWorker s i
                  (WPosting (testRadius w (wdRadius d) (wdPositions d)
                               (wdWidth d) (wdHeight d))))
      | _ => None
      end
  | ActWorkerPost i =>
      match workers s !! i with
      | Some (WPosting r) =>
          c ← send (aggCh s) r;
          Some (setWorker (setAggCh s c) i WSelect)
      | _ => None
      end
  | ActWorkerDone i =>
      match workers s !! i with
      | Some WReturning => Some (wgDone (setWorker s i WStopped))
      | _ => None
      end
  | ActSenderStop =>
      match sender s with
      | SSelect (_ :: _) =>
          '(_, c) ← receive (stopSendingCh s);
          Some (setSender (setWorkCh (setStopSendingCh s c) (close (workCh s)))
                  SFinished)
      | _ => None
      end
  | ActSenderSend =>
      match sender s with
      | SSelect (r :: rest) =>
          c ← send (workCh s)
                {| wdRadius := r; wdPositions := positions w r;
                   wdWidth := width; wdHeight := height |};
          Some (setSender (setWorkCh s c) (SSelect rest))
      | _ => None
      end
  | ActSenderClose =>
      match sender s with
      | SSelect [] => Some (setSender (setWorkCh s (close (workCh s))) SFinished)
      | _ => None
      end
  | ActPurgerDrain =>
      match purger s with
      | PRunning =>
          '(_, c) ← receive (aggCh s);
          Some (setPurger (setAggCh s c) PRunning)
      | _ => None
      end
  | ActPurgerQuit =>
      match purger s, buffer (aggCh s) with
      | PRunning, [] => Some (setPurger s PFinished)
      | _, _ => None
      end
  end.

(** A schedule: the actions fired one after the other. *)
Fixpoint run (schedule : list action) (s : search) : option search :=
  match schedule with
  | [] => Some s
  | a :: rest => s' ← fire a s; run rest s'
  end.

(** The states some schedule leads to from the call of [nextPos]. *)
Definition reachable (s : search) : Prop :=
  exists schedule, run schedule searchStart = Some s.

End Search.

(** A worker goroutine is live until its deferred [wg.Done()] has run. *)
Definition isLive (k : workerPc) : bool :=
  match k with
  | WStopped => false
  | _ => true
  end.

Fixpoint liveCount (ws : list workerPc) : nat :=
  match ws with
  | [] => 0
  | k :: rest => if isLive k then S (liveCount rest) else liveCount rest
  end.

(** A worker inside [testRadius] is reading the occupancy index. *)
Definition readsIndex (k : workerPc) : bool :=
  match k with
  | WTesting _ => true
  | _ => false
  end.

(** The answer the caller has settled on, once it has left the loop over
    the results. *)
Definition settled (m : mainPc) : option (Q * Q * bool) :=
  match m with
  | MDeferStopSending v | MDeferStopWorkers v _ | MDeferPurge v
  | MDeferWait v | MReturned v => Some v
  | _ => None
  end.

(** The work item the posting goroutine builds for radius [r]. *)
Definition workFor (w : Wordcloud) (width height : Q) (r : Q) : workerData :=
  {| wdRadius := r; wdPositions := positions w r;
     wdWidth := width; wdHeight := height |}.

Section SearchInvariants.

Context (P : Platform) (w : Wordcloud) (width height : Q).

(** What holds in every state of the search about the wait group: its
    counter is the number of live workers, and the caller is past the
    worker-start loop only with all [NumCPU] workers started. *)
Definition joinInv (s : search) : Prop :=
  wg s = liveCount (workers s)
  /\ length (stopChannels s) = length (workers s)
  /\ match main s with
     | MEntry => workers s = []
     | MSpawn i =>
         length (workers s) = i /\ (i <= NumCPU P)%nat
         /\ randomPlacement w = false
     | MReturned _ =>
         (randomPlacement w = true /\ workers s = [])
         \/ (randomPlacement w = false /\ length (workers s) = NumCPU P
             /\ wg s = 0%nat)
     | _ => randomPlacement w = false /\ length (workers s) = NumCPU P
     end.

Definition isRingResult (d : res) : Prop :=
  exists r, r ∈ radii w /\ d = ringResult w width height r.

Definition isRingWork (d : workerData) : Prop :=
  exists r, r ∈ radii w /\ d = workFor w width height r.

(** A worker holds work and results of rings of the table only. *)
Definition workerOk (k : workerPc) : Prop :=
  match k with
  | WTesting d => isRingWork d
  | WPosting d => isRingResult d
  | _ => True
  end.

(** What holds in every state of the search about the data in flight:
    work items and results, in the channels and in the hands of the
    workers, belong to rings of the table. *)
Definition inFlight (s : search) : Prop :=
  (forall d, d ∈ buffer (aggCh s) -> isRingResult d)
  /\ (forall d, d ∈ buffer (workCh s) -> isRingWork d)
  /\ (forall i k, workers s !! i = Some k -> workerOk k)
  /\ match sender s with
     | SSelect rest => forall r, r ∈ rest -> r ∈ radii w
     | _ => True
     end.

(** What holds in every state of the search about the answer: in the
    random mode the caller goes from the entry straight to the return with
    the value of [nextRandom]; in the concurrent mode the bookkeeping holds
    results received, at least one once the caller has settled, and the
    settled answer is the verdict on the bookkeeping. *)
Definition settledInv (s : search) : Prop :=
  (randomPlacement w = true ->
     main s = MEntry
     \/ exists v w', main s = MReturned v
                     /\ nextRandom P w width height = Ok (w', v))
  /\ exists seen,
       book s = bookAll seen emptyTally
       /\ (forall d, d ∈ seen -> isRingResult d)
       /\ (randomPlacement w = false ->
           forall v, settled (main s) = Some v ->
             seen <> []
             /\ answer w (scan (radii w) (book s)) = Some v).

Definition resultInv (s : search) : Prop := inFlight s /\ settledInv s.

End SearchInvariants.

(** ** A schedule on which the search returns

    The caller starts [n] workers and the posting goroutine; then, ring
    after ring, the ring is posted, worker 0 takes it, tests it and posts
    the result, and the caller books it; once the caller has settled it
    signals everybody, starts the purger and waits, the workers take their
    stop signals one after the other, and the caller returns. *)
Definition startWorkers (n : nat) : list action :=
  ActMain :: replicate n ActMain ++ [ActMain; ActMain].

Definition ringRound : list action :=
  [ ActSenderSend; ActWorkerTake 0; ActWorkerTest 0; ActWorkerPost 0; ActMain ].

Definition stopWorkers (n : nat) : list action :=
  ActMain :: replicate n ActMain ++ [ActMain; ActMain]
  ++ flat_map (fun i => [ActWorkerStop i; ActWorkerDone i]) (seq 0 n)
  ++ [ActMain].

Definition oneWorkerSchedule (n rounds : nat) : list action :=
  startWorkers n ++ concat (replicate rounds ringRound) ++ stopWorkers n.

(** A stop channel that holds its signal. *)
Definition signalled : chan unit :=
  {| buffer := [()]; capacity := 1; closed := false |}.

(** * Concrete engines

    Small platforms, options and word lists the examples run on. *)

Module Fixture.

(** A ring of four points: east, north, west and south of the centre. *)
Definition compass (cx cy r : Q) (n : Z) : circle :=
  [ mkPoint (cx + r) cy; mkPoint cx (cy + r);
    mkPoint (cx - r) cy; mkPoint cx (cy - r) ].

(** Every glyph is ten units high and ten units wide per letter. *)
Definition measure (face : option Z) (word : string) : Q * Q :=
  (inject_Z (Z.of_nat (String.length word)) * 10, 10).

Definition platform : Platform :=
  {| newCircle := compass;
     MeasureString := measure;
     LoadFontFace := fun _ _ => true;
     ImageAt := fun _ _ _ => 0%Z;
     Intn := fun k n => ((Z.of_nat k * 7 + 10) `mod` n)%Z;
     NumCPU := 2 |}.

Definition linear (x : Q) : Q := x.

Definition options (width height : Z) (random : bool) : Options :=
  {| FontMaxSize := 20; FontMinSize := 10; RandomPlacement := random;
     FontFile := "font.ttf"; Colors := [1%Z; 2%Z]; BackgroundColor := 7%Z;
     Width := width; Height := height; Mask := []; Debug := false;
     SizeFunction := linear |}.

(** The counts of the monotonic-sizing scenario. *)
Definition fourWords : list (string * Z * Z) :=
  [ ("alpha", 100, 0); ("beta", 80, 1); ("gamma", 80, 0); ("delta", 10, 1) ]%Z.


(** An engine without words and without rings, on a 100 x 100 canvas. *)
Definition blank : Wordcloud :=
  {| sortedWordList := NewWordDataCoArrays;
     grid := newSpatialHashMap 100 100 10;
     dc := NewContext 100 100;
     randomPlacement := false;
     width := 100; height := 100;
     opts := options 100 100 false;
     circles := []; fonts := ∅; radii := []; randDraws := 0 |}.

(** The engine [NewWordcloud] builds for the given words and options. *)
Definition engine (es : list (string * Z * Z)) (o : Options) : Wordcloud :=
  match NewWordcloud platform (fromEntries es) o with
  | Ok w => w
  | _ => blank
  end.

(** The engine after [Place] was called on word [idx]. *)
Definition placed (w : Wordcloud) (idx : nat) : Wordcloud :=
  match Place platform w idx with
  | Ok (w', _) => w'
  | _ => blank
  end.

(** One word, far too wide for a canvas of 100 x 100. *)
Definition wideWord : list (string * Z * Z) :=
  [ ("incomprehensibilities", 3, 0) ]%Z.

(** Five short words, then thirteen words too wide for the canvas. *)
Definition saturating : list (string * Z * Z) :=
  [ ("a", 30, 0); ("b", 29, 0); ("c", 28, 0); ("d", 27, 0); ("e", 26, 0);
    ("incomprehensibilities", 25, 0); ("incomprehensibilities", 24, 0);
    ("incomprehensibilities", 23, 0); ("incomprehensibilities", 22, 0);
    ("incomprehensibilities", 21, 0); ("incomprehensibilities", 20, 0);
    ("incomprehensibilities", 19, 0); ("incomprehensibilities", 18, 0);
    ("incomprehensibilities", 17, 0); ("incomprehensibilities", 16, 0);
    ("incomprehensibilities", 15, 0); ("incomprehensibilities", 14, 0);
    ("incomprehensibilities", 13, 0) ]%Z.

(** What [Draw] leaves behind on the given engine. *)
Definition drawn (w : Wordcloud) : Wordcloud * list (nat * bool) :=
  match DrawLog platform w with
  | Ok r => r
  | _ => (blank, [])
  end.

(** A store of four words with large colour indices. *)
Definition colourful : WordDataCoArrays :=
  fromEntries [ ("a", 4, 7); ("b", 3, 12); ("c", 2, 3); ("d", 1, 65535) ]%Z.

(** Options with one mask rectangle, in debug mode. *)
Definition maskedOptions : Options :=
  {| FontMaxSize := 20; FontMinSize := 10; RandomPlacement := false;
     FontFile := "font.ttf"; Colors := [1%Z; 2%Z]; BackgroundColor := 7%Z;
     Width := 100; Height := 100;
     Mask := [ {| Top := 60; Left := 40; Right := 60; Bottom := 40 |} ];
     Debug := true; SizeFunction := linear |}.

(** A schedule of the concurrent search with two workers: both workers
    and the posting goroutine are started, the first ring is posted, taken
    and tested by worker 0, the caller receives its result and settles,
    signals everybody, starts the purger and waits; the workers take their
    stop signals and leave; the caller returns. *)
Definition schedule : list action :=
  [ ActMain; ActMain; ActMain; ActMain; ActMain;
    ActSenderSend; ActWorkerTake 0; ActWorkerTest 0; ActWorkerPost 0;
    ActMain;
    ActMain; ActMain; ActMain; ActMain; ActMain;
    ActPurgerQuit;
    ActWorkerStop 0; ActWorkerDone 0; ActWorkerStop 1; ActWorkerDone 1;
    ActMain ].

(** The state the schedule leads to, for a box of 15 x 15. *)
Definition finalState (w : Wordcloud) : search :=
  match run platform w 15 15 schedule (searchStart platform) with
  | Some s => s
  | None => searchStart platform
  end.

End Fixture.
(** * Proofs *)

(** ** Rationals and geometry *)

Lemma Qltb_lt (a b : Q) : Qltb a b = true <-> a < b.
Proof.
  unfold Qltb. rewrite negb_true_iff.
  destruct (Qle_bool b a) eqn:E.
  - apply Qle_bool_iff in E. split; [discriminate | intros H; lra].
  - split; [intros _ | reflexivity].
    destruct (Qlt_le_dec a b) as [H | H]; [exact H |].
    apply Qle_bool_iff in H. congruence.
Qed.

Lemma Qltb_ge (a b : Q) : Qltb a b = false <-> b <= a.
Proof.
  unfold Qltb. rewrite negb_false_iff. apply Qle_bool_iff.
Qed.

Lemma Qle_bool_gt (a b : Q) : Qle_bool a b = false <-> b < a.
Proof.
  rewrite <- Qltb_lt. unfold Qltb. rewrite negb_true_iff. reflexivity.
Qed.

(** Division by the literal 2 and the literal [0.3], in the form [lra]
    understands. *)
Ltac qarith :=
  unfold Qdiv in *; change (/ 2) with (1 # 2) in *; lra.

Lemma fits_spec b width height :
  fits b width height = true <->
  0 <= Left b /\ Right b <= width /\ 0 <= Bottom b /\ Top b <= height.
Proof.
  unfold fits. rewrite !andb_true_iff, !Qle_bool_iff. tauto.
Qed.

Lemma overlaps_spec a b :
  overlaps a b = true <->
  Left a < Right b /\ Left b < Right a /\ Bottom a < Top b /\ Bottom b < Top a.
Proof.
  unfold overlaps. rewrite !andb_true_iff, !Qltb_lt. tauto.
Qed.


(** ** The word store and the size assignment *)

Lemma fromEntries_fields es :
  Word (fromEntries es) = es.*1.*1 /\ Count (fromEntries es) = es.*1.*2
  /\ ColorIndex (fromEntries es) = es.*2
  /\ FontSize (fromEntries es) = [] /\ Pos (fromEntries es) = []
  /\ Rect (fromEntries es) = [].
Proof.
  unfold fromEntries.
  induction es as [| e es IH] using rev_ind; [by simpl |].
  rewrite foldl_app. simpl. rewrite !fmap_app. simpl.
  destruct IH as (-> & -> & -> & -> & -> & ->). done.
Qed.

Lemma fromEntries_lengths es :
  length (Word (fromEntries es)) = length (Count (fromEntries es)).
Proof.
  destruct (fromEntries_fields es) as (-> & -> & _).
  by rewrite !length_fmap.
Qed.

Lemma regrow_length {A} (zero : A) s n : length (regrow zero s n) = n.
Proof.
  unfold regrow. rewrite length_take, length_app, length_replicate. lia.
Qed.

Lemma nonIncreasing_cons m counts :
  nonIncreasing (m :: counts) <->
  match counts with
  | [] => True
  | count :: _ => (count <= m)%Z /\ nonIncreasing counts
  end.
Proof.
  destruct counts as [| c rest].
  - split; [done |]. intros _ i j a b Hij Ha Hb.
    destruct i, j; simpl in *; simplify_eq; try lia; done.
  - split.
    + intros H. split.
      * apply (H 0%nat 1%nat); simpl; [lia | done | done].
      * intros i j a b Hij Ha Hb. apply (H (S i) (S j)); [lia | done | done].
    + intros [Hc H] i j a b Hij Ha Hb.
      destruct i as [| i].
      * simpl in Ha. simplify_eq. destruct j as [| j]; simpl in Hb.
        -- simplify_eq. lia.
        -- assert (b <= c)%Z; [| lia].
           apply (H 0%nat j); [lia | done | done].
      * destruct j as [| j]; [lia |]. simpl in *.
        apply (H i j); [lia | done | done].
Qed.

Lemma descendingFrom_true m counts :
  descendingFrom m counts = true <-> nonIncreasing (m :: counts).
Proof.
  revert m. induction counts as [| c rest IH]; intros m.
  - rewrite nonIncreasing_cons. done.
  - simpl. rewrite nonIncreasing_cons, andb_true_iff, negb_true_iff, IH.
    rewrite Z.ltb_ge. done.
Qed.

Lemma descendingFrom_false m counts :
  descendingFrom m counts = false <-> adjacentRise (m :: counts).
Proof.
  revert m. induction counts as [| c rest IH]; intros m.
  - simpl. split; [done |]. intros (i & a & b & _ & Hb & _).
    destruct i; done.
  - simpl. rewrite andb_false_iff, negb_false_iff, Z.ltb_lt, IH. split.
    + intros [H | (i & a & b & Ha & Hb & Hlt)].
      * exists 0%nat, m, c. done.
      * exists (S i), a, b. done.
    + intros (i & a & b & Ha & Hb & Hlt). destruct i as [| i].
      * simpl in *. simplify_eq. by left.
      * right. exists i, a, b. done.
Qed.

(** Not non-increasing means a rise between two neighbours. *)
Lemma not_nonIncreasing_rise counts :
  ~ nonIncreasing counts <-> adjacentRise counts.
Proof.
  destruct counts as [| m counts].
  - split.
    + intros H. destruct H. intros i j a b _ Ha. done.
    + intros (i & a & b & Ha & _). done.
  - rewrite <- descendingFrom_true, <- descendingFrom_false.
    destruct (descendingFrom m counts); split; done.
Qed.

Section Sizing.

Context (P : Platform).

(** The size loop either finds a rise and panics with it, or fills the
    sizes in. *)
Lemma assignSizes_outcome o wordCountMax counts idx m sizes :
  (idx + length counts <= length sizes)%nat ->
  if descendingFrom m counts then
    exists sizes', assignSizes o wordCountMax counts idx m sizes = Ok sizes'
      /\ length sizes' = length sizes
      /\ (forall k c, counts !! k = Some c ->
            sizes' !! (idx + k)%nat = Some (wordSize o wordCountMax c))
      /\ (forall k, (k < idx)%nat -> sizes' !! k = sizes !! k)
  else
    exists i a b, assignSizes o wordCountMax counts idx m sizes
                  = Panic (NotSorted i a b) /\ (a < b)%Z.
Proof.
  revert idx m sizes. induction counts as [| c rest IH]; intros idx m sizes Hlen.
  - simpl. exists sizes. done.
  - simpl in *. destruct (m <? c)%Z eqn:E; simpl.
    + exists idx, m, c. split; [done |]. by apply Z.ltb_lt.
    + unfold assign. destruct (decide (idx < length sizes)%nat); [| lia].
      simpl. unfold mbind, result_bind.
      specialize (IH (S idx) c (<[idx := wordSize o wordCountMax c]> sizes)).
      rewrite length_insert in IH. specialize (IH ltac:(lia)).
      destruct (descendingFrom c rest); [| exact IH].
      destruct IH as (sizes' & -> & Hl & Hnew & Hold).
      exists sizes'. split; [done |]. split; [done |]. split.
      * intros [| k] c' Hk; simpl in Hk.
        -- simplify_eq. rewrite Nat.add_0_r, Hold by lia.
           by apply list_lookup_insert_eq.
        -- replace (idx + S k)%nat with (S idx + k)%nat by lia. by apply Hnew.
      * intros k Hk. rewrite Hold by lia.
        apply list_lookup_insert_ne. lia.
Qed.

Lemma NewWordcloud_outcome wl o :
  NewWordcloud P wl o =
  match Count wl with
  | [] => Panic (IndexOutOfRange 0 0)
  | m :: _ =>
      match assignSizes o (inject_Z m) (Count wl) 0 m
              (regrow 0 (FontSize wl) (length (Word wl))) with
      | Ok sizes =>
          let d := setFontSize (Prepare wl) sizes in
          let dg := addMask (Debug o) (Mask o)
                      (SetColor (Clear (SetColor (NewContext (Width o) (Height o))
                                          (BackgroundColor o))) black)
                      (newSpatialHashMap (inject_Z (Width o)) (inject_Z (Height o))
                         (Height o ÷ 10)) in
          let diag2 := (Width o * Width o + Height o * Height o)%Z in
          let cr := ringLoop P (Z.to_nat (Z.sqrt diag2)) (inject_Z (Width o ÷ 2))
                      (inject_Z (Height o ÷ 2)) diag2 1 [] [] in
          Ok {| sortedWordList := d; grid := dg.2; dc := dg.1;
                randomPlacement := RandomPlacement o;
                width := inject_Z (Width o); height := inject_Z (Height o);
                opts := o; circles := cr.1; fonts := ∅; radii := cr.2;
                randDraws := 0 |}
      | Panic p => Panic p
      | Blocked => Blocked
      end
  end.
Proof.
  unfold NewWordcloud, index.
  destruct (Count wl) as [| m rest] eqn:E; simpl; [done |].
  rewrite E. simpl.
  destruct (if (m <? m)%Z then _ else _) as [sizes | p |]; simpl; try done.
  destruct (addMask _ _ _ _) as [dc' g'].
  destruct (ringLoop _ _ _ _ _ _ _ _) as [cs rs]. done.
Qed.

End Sizing.

(** *** Construction on an empty word list *)

(** C10: [NewWordcloud] reads the count of the first word before anything
    else, so a word list without counts makes construction panic with an
    index out of range instead of returning an engine. *)
Theorem NewWordcloud_empty_panics (P : Platform) (wl : WordDataCoArrays)
    (o : Options) :
  Count wl = [] -> NewWordcloud P wl o = Panic (IndexOutOfRange 0 0).
Proof.
  intros H. rewrite NewWordcloud_outcome, H. reflexivity.
Qed.

Lemma NewWordcloud_empty_panics_witness :
  NewWordcloud Fixture.platform NewWordDataCoArrays
    (Fixture.options 100 100 false) = Panic (IndexOutOfRange 0 0).
Proof.
  apply NewWordcloud_empty_panics. reflexivity.
Defined.

(** *** The sortedness check *)

(** C7: on a word store filled through [Add], construction stops with the
    "not sorted" panic exactly when the counts are not in non-increasing
    order, which is exactly when some count strictly exceeds the count just
    before it; in particular a store with non-increasing counts never
    triggers that panic. *)
Theorem sizing_aborts_iff_not_sorted (P : Platform)
    (es : list (string * Z * Z)) (o : Options) :
  ((exists idx m count,
      NewWordcloud P (fromEntries es) o = Panic (NotSorted idx m count))
   <-> ~ nonIncreasing (Count (fromEntries es)))
  /\ (~ nonIncreasing (Count (fromEntries es))
      <-> adjacentRise (Count (fromEntries es))).
Proof.
  split; [| apply not_nonIncreasing_rise].
  rewrite NewWordcloud_outcome.
  pose proof (fromEntries_lengths es) as Hlen.
  destruct (Count (fromEntries es)) as [| m rest] eqn:E.
  - split.
    + intros (idx & a & b & H). discriminate.
    + intros H. destruct H. intros i j a b _ Ha. done.
  - pose proof (assignSizes_outcome o (inject_Z m) (m :: rest) 0 m
                  (regrow 0 (FontSize (fromEntries es))
                     (length (Word (fromEntries es))))) as Hout.
    specialize (Hout ltac:(rewrite regrow_length, Hlen; simpl; lia)).
    assert (descendingFrom m (m :: rest) = descendingFrom m rest) as Hd.
    { simpl. by rewrite Z.ltb_irrefl. }
    rewrite Hd in Hout. rewrite <- descendingFrom_true.
    destruct (descendingFrom m rest).
    + destruct Hout as (sizes' & -> & _). split; [| done].
      intros (idx & a & b & H). discriminate.
    + destruct Hout as (i & a & b & -> & _). split; [done |]. eauto.
Qed.

(** *** Monotonic sizing *)






(** ** The random search *)

Section Random.

Context (P : Platform).

Lemma valid_dec w box :
  valid w box \/ ~ valid w box.
Proof.
  unfold valid.
  destruct (fits box (canvasWidth w) (canvasHeight w)), (colliding w box);
    [right | left | right | right]; intuition congruence.
Qed.

(** With a budget that covers the tries that are left, the loop of
    [nextRandom] stops on the first valid sample or when [tries] reaches
    [maxTries]. *)
Lemma nextRandomLoop_spec w width height budget :
  forall tries x y draws o,
    (0 <= tries <= maxTries)%Z ->
    (maxTries - tries <= Z.of_nat budget)%Z ->
    nextRandomLoop P budget w width height tries x y draws = Ok o ->
    (tries <= rotries o <= maxTries)%Z
    /\ rodraws o = (draws + 2 * Z.to_nat (rotries o - tries))%nat
    /\ (forall k, (k < Z.to_nat (rotries o - tries) - 1)%nat ->
          ~ valid w (candidate (sample P w (draws + 2 * k)).1
                       (sample P w (draws + 2 * k)).2 width height))
    /\ (rospace o = true ->
          (tries < rotries o)%Z
          /\ (rox o, roy o) = sample P w (rodraws o - 2)
          /\ valid w (candidate (rox o) (roy o) width height))
    /\ (rospace o = false ->
          rotries o = maxTries
          /\ forall k, (Z.of_nat k < maxTries - tries)%Z ->
               ~ valid w (candidate (sample P w (draws + 2 * k)).1
                            (sample P w (draws + 2 * k)).2 width height)).
Proof.
  induction budget as [| budget IH]; intros tries x y draws o Htries Hbudget Hrun.
  - simpl in Hrun. injection Hrun as <-. simpl.
    assert (tries = maxTries) as -> by lia.
    rewrite Z.sub_diag. simpl.
    repeat split; try lia; try done; intros k Hk; lia.
  - simpl in Hrun. destruct (tries <? maxTries)%Z eqn:E.
    2: { injection Hrun as <-. simpl. apply Z.ltb_ge in E.
         assert (tries = maxTries) as -> by lia.
         rewrite Z.sub_diag. simpl.
         repeat split; try lia; try done; intros k Hk; lia. }
    apply Z.ltb_lt in E.
    unfold randIntn in Hrun.
    destruct (dcWidth (dc w) <=? 0)%Z; [discriminate |].
    destruct (dcHeight (dc w) <=? 0)%Z; [discriminate |].
    simpl in Hrun.
    set (xi := inject_Z (Intn P draws (dcWidth (dc w)))) in *.
    set (yi := inject_Z (Intn P (S draws) (dcHeight (dc w)))) in *.
    assert (sample P w (draws + 2 * 0) = (xi, yi)) as Hs0.
    { unfold sample. by rewrite Nat.add_0_r. }
    assert (forall o',
      nextRandomLoop P budget w width height (tries + 1) xi yi (S (S draws)) = Ok o' ->
      ~ valid w (candidate xi yi width height) ->
      (tries <= rotries o' <= maxTries)%Z
      /\ rodraws o' = (draws + 2 * Z.to_nat (rotries o' - tries))%nat
      /\ (forall k, (k < Z.to_nat (rotries o' - tries) - 1)%nat ->
            ~ valid w (candidate (sample P w (draws + 2 * k)).1
                         (sample P w (draws + 2 * k)).2 width height))
      /\ (rospace o' = true ->
            (tries < rotries o')%Z
            /\ (rox o', roy o') = sample P w (rodraws o' - 2)
            /\ valid w (candidate (rox o') (roy o') width height))
      /\ (rospace o' = false ->
            rotries o' = maxTries
            /\ forall k, (Z.of_nat k < maxTries - tries)%Z ->
                 ~ valid w (candidate (sample P w (draws + 2 * k)).1
                              (sample P w (draws + 2 * k)).2 width height))) as Hnext.
    { intros o' Ho' Hinvalid.
      destruct (IH (tries + 1)%Z xi yi (S (S draws)) o' ltac:(lia) ltac:(lia) Ho')
        as (Hr & Hd & Hskip & Hfound & Hnone).
      assert (forall k, (draws + 2 * S k = S (S draws) + 2 * k)%nat) as Hshift
        by (intros; lia).
      split; [lia |]. split; [lia |]. split; [| split].
      - intros [| k] Hk; [by rewrite Hs0 |].
        rewrite Hshift. apply Hskip. lia.
      - intros Hsp. destruct (Hfound Hsp) as (? & ? & ?). split; [lia | done].
      - intros Hsp. destruct (Hnone Hsp) as (? & Hall). split; [done |].
        intros [| k] Hk; [by rewrite Hs0 |].
        rewrite Hshift. apply Hall. lia. }
    destruct (fits (candidate xi yi width height) (canvasWidth w) (canvasHeight w))
      eqn:Hfit; simpl in Hrun.
    2: { apply Hnext; [done |]. unfold valid. rewrite Hfit. intros [? _]. done. }
    destruct (colliding w (candidate xi yi width height)) eqn:Hcol; simpl in Hrun.
    { apply Hnext; [done |]. unfold valid. rewrite Hcol. intros [_ ?]. done. }
    injection Hrun as <-. simpl.
    replace (tries + 1 - tries)%Z with 1%Z by lia. simpl.
    split; [lia |]. split; [lia |]. split; [intros k Hk; lia |]. split.
    + intros _. split; [lia |]. split; [| done].
      rewrite Nat.sub_0_r. done.
    + done.
Qed.

(** The loop runs to an outcome unless [rand.Intn] rejects the canvas
    size. *)
Lemma nextRandomLoop_returns w width height budget :
  (0 < dcWidth (dc w))%Z -> (0 < dcHeight (dc w))%Z ->
  forall tries x y draws,
    exists o, nextRandomLoop P budget w width height tries x y draws = Ok o.
Proof.
  intros Hw Hh. induction budget as [| budget IH]; intros tries x y draws.
  - simpl. eauto.
  - simpl. destruct (tries <? maxTries)%Z; [| eauto].
    unfold randIntn.
    destruct (Z.leb_spec (dcWidth (dc w)) 0); [lia |].
    destruct (Z.leb_spec (dcHeight (dc w)) 0); [lia |].
    simpl.
    destruct (fits _ _ _); simpl; [| apply IH].
    destruct (colliding _ _); simpl; [apply IH | eauto].
Qed.

(** A sample the loop accepts is valid. *)
Lemma nextRandomOutcome_found w width height o :
  nextRandomOutcome P w width height = Ok o ->
  rospace o = true ->
  valid w (candidate (rox o) (roy o) width height).
Proof.
  intros Ho Hsp.
  assert (maxTries - 0 <= Z.of_nat (Z.to_nat maxTries))%Z as Hbudget.
  { rewrite Z2Nat.id; unfold maxTries; lia. }
  assert (0 <= 0 <= maxTries)%Z as Hstart by (unfold maxTries; lia).
  revert Ho Hbudget. generalize (Z.to_nat maxTries). intros budget Ho Hbudget.
  destruct (nextRandomLoop_spec w width height budget 0%Z 0 0 (randDraws w)
              o Hstart Hbudget Ho) as (_ & _ & _ & Hfound & _).
  by destruct (Hfound Hsp) as (_ & _ & Hv).
Qed.

End Random.

(** C9: the random search makes at most 5,000,000 attempts (two draws of
    the random stream each); it returns unless the canvas has no positive
    size; when it reports success the box around the returned point fits
    the canvas and collides with nothing recorded, and that point is the
    last sample drawn; when it reports failure all 5,000,000 attempts were
    made and every sampled box was invalid. *)
Theorem nextRandom_budget_and_validity (P : Platform) (w : Wordcloud)
    (width height : Q) :
  ((0 < dcWidth (dc w))%Z -> (0 < dcHeight (dc w))%Z ->
   exists o, nextRandomOutcome P w width height = Ok o)
  /\ forall o, nextRandomOutcome P w width height = Ok o ->
       (0 <= rotries o <= 5000000)%Z
       /\ rodraws o = (randDraws w + 2 * Z.to_nat (rotries o))%nat
       /\ nextRandom P w width height
          = Ok (withDraws w (rodraws o), (rox o, roy o, rospace o))
       /\ (rospace o = true ->
             (rox o, roy o) = sample P w (rodraws o - 2)
             /\ fits (candidate (rox o) (roy o) width height)
                  (canvasWidth w) (canvasHeight w) = true
             /\ colliding w (candidate (rox o) (roy o) width height) = false)
       /\ (rospace o = false ->
             rotries o = 5000000%Z
             /\ forall k, (Z.of_nat k < 5000000)%Z ->
                  ~ valid w (candidate (sample P w (randDraws w + 2 * k)).1
                               (sample P w (randDraws w + 2 * k)).2
                               width height)).
Proof.
  split.
  - intros Hw Hh.
    exact (nextRandomLoop_returns P w width height (Z.to_nat maxTries) Hw Hh
             0%Z 0 0 (randDraws w)).
  - intros o Ho.
    assert (nextRandom P w width height
            = Ok (withDraws w (rodraws o), (rox o, roy o, rospace o))) as Hret.
    { unfold nextRandom. by rewrite Ho. }
    assert (maxTries - 0 <= Z.of_nat (Z.to_nat maxTries))%Z as Hbudget.
    { rewrite Z2Nat.id; unfold maxTries; lia. }
    assert (0 <= 0 <= maxTries)%Z as Hstart by (unfold maxTries; lia).
    revert Ho Hbudget. generalize (Z.to_nat maxTries). intros budget Ho Hbudget.
    destruct (nextRandomLoop_spec P w width height budget 0%Z 0 0 (randDraws w)
                o Hstart Hbudget Ho) as (Hr & Hd & _ & Hfound & Hnone).
    clear Ho Hbudget Hstart budget.
    rewrite Z.sub_0_r in Hd. unfold maxTries in Hr, Hnone.
    split; [lia |]. split; [done |]. split; [done |]. split.
    + intros Hsp. destruct (Hfound Hsp) as (_ & Hs & Hfit & Hcol). done.
    + intros Hsp. destruct (Hnone Hsp) as (Ht & Hall). split; [done |].
      intros k Hk. apply Hall. lia.
Qed.

Lemma nextRandom_budget_and_validity_witness :
  exists o,
    nextRandomOutcome Fixture.platform
      (Fixture.engine Fixture.fourWords (Fixture.options 100 100 true)) 15 15
    = Ok o
    /\ rospace o = true
    /\ (0 <= rotries o <= 5000000)%Z
    /\ fits (candidate (rox o) (roy o) 15 15) 100 100 = true.
Proof.
  assert (nextRandomOutcome Fixture.platform
            (Fixture.engine Fixture.fourWords (Fixture.options 100 100 true))
            15 15
          = Ok {| rox := 10; roy := 17; rospace := true; rotries := 1;
                  rodraws := 2 |}) as Hrun
    by (vm_compute; reflexivity).
  destruct (proj2 (nextRandom_budget_and_validity Fixture.platform
                     (Fixture.engine Fixture.fourWords
                        (Fixture.options 100 100 true)) 15 15) _ Hrun)
    as (Htries & _ & _ & Hfound & _).
  eexists. split; [exact Hrun |]. split; [reflexivity |].
  split; [exact Htries |].
  destruct (Hfound eq_refl) as (_ & Hfit & _). exact Hfit.
Defined.

(** ** Rings and the aggregator *)

Lemma qlookup_key_eq {A} (m : list (Q * A)) k1 k2 :
  k1 == k2 -> qlookup m k1 = qlookup m k2.
Proof.
  intros Hk. induction m as [| [k v] m IH]; [done |]. simpl.
  destruct (Qeq_bool k k1) eqn:E1; destruct (Qeq_bool k k2) eqn:E2;
    try done.
  - apply Qeq_bool_iff in E1. apply Qeq_bool_neq in E2.
    destruct E2. by rewrite E1.
  - apply Qeq_bool_iff in E2. apply Qeq_bool_neq in E1.
    destruct E1. by rewrite E2, Hk.
Qed.

Lemma positions_key_eq w r1 r2 : r1 == r2 -> positions w r1 = positions w r2.
Proof.
  intros H. unfold positions. by rewrite (qlookup_key_eq _ _ _ H).
Qed.

Lemma isDone_record d t r :
  isDone (record d t) r = if Qeq_bool (radius d) r then true else isDone t r.
Proof.
  unfold isDone, record, qinsert. simpl. by destruct (Qeq_bool (radius d) r).
Qed.

Lemma resultOf_record d t r :
  resultOf (record d t) r = if Qeq_bool (radius d) r then d else resultOf t r.
Proof.
  unfold resultOf, record, qinsert. simpl. by destruct (Qeq_bool (radius d) r).
Qed.

Section Rings.

Context (P : Platform) (w : Wordcloud) (width height : Q).

Lemma testRadiusLoop_radius points x y r :
  radius (testRadiusLoop w points x y r width height) = r.
Proof.
  revert x y. induction points as [| p ps IH]; intros x y; simpl; [done |].
  destruct (fits _ _ _); simpl; [| apply IH].
  destruct (colliding _ _); simpl; [apply IH | done].
Qed.

(** A ring is reported as failed exactly when none of its points is
    valid. *)
Lemma testRadiusLoop_failed points x y r :
  failed (testRadiusLoop w points x y r width height) = true <->
  forall p, p ∈ points -> ~ valid w (candidateAt p width height).
Proof.
  revert x y. induction points as [| p ps IH]; intros x y; simpl.
  - split; [| done]. intros _ p Hp. by apply elem_of_nil in Hp.
  - unfold valid, candidateAt in *.
    destruct (fits (candidate (px p) (py p) width height) _ _) eqn:Hfit; simpl.
    + destruct (colliding w (candidate (px p) (py p) width height)) eqn:Hcol;
        simpl.
      * rewrite IH. split.
        -- intros H q Hq. apply elem_of_cons in Hq as [-> | Hq].
           ++ rewrite Hcol. intros [_ ?]. done.
           ++ by apply H.
        -- intros H q Hq. apply H. by apply elem_of_cons; right.
      * split; [done |]. intros H. destruct (H p); [apply elem_of_cons; by left |].
        done.
    + rewrite IH. split.
      * intros H q Hq. apply elem_of_cons in Hq as [-> | Hq].
        -- rewrite Hfit. intros [? _]. done.
        -- by apply H.
      * intros H q Hq. apply H. by apply elem_of_cons; right.
Qed.

(** A ring is reported as a success with its first valid point. *)
Lemma testRadiusLoop_found points x y r :
  failed (testRadiusLoop w points x y r width height) = false ->
  exists before p after,
    points = before ++ p :: after
    /\ resx (testRadiusLoop w points x y r width height) = px p
    /\ resy (testRadiusLoop w points x y r width height) = py p
    /\ valid w (candidateAt p width height)
    /\ forall q, q ∈ before -> ~ valid w (candidateAt q width height).
Proof.
  revert x y. induction points as [| p ps IH]; intros x y; simpl; [done |].
  unfold valid, candidateAt in *.
  assert (forall x' y',
    ~ (fits (candidate (px p) (py p) width height) (canvasWidth w) (canvasHeight w) = true
       /\ colliding w (candidate (px p) (py p) width height) = false) ->
    failed (testRadiusLoop w ps x' y' r width height) = false ->
    exists before p0 after,
      p :: ps = before ++ p0 :: after
      /\ resx (testRadiusLoop w ps x' y' r width height) = px p0
      /\ resy (testRadiusLoop w ps x' y' r width height) = py p0
      /\ (fits (candidate (px p0) (py p0) width height) (canvasWidth w) (canvasHeight w) = true
          /\ colliding w (candidate (px p0) (py p0) width height) = false)
      /\ forall q, q ∈ before ->
           ~ (fits (candidate (px q) (py q) width height) (canvasWidth w) (canvasHeight w) = true
              /\ colliding w (candidate (px q) (py q) width height) = false)) as Hskip.
  { intros x' y' Hbad Hf.
    destruct (IH x' y' Hf) as (before & p0 & after & -> & Hx & Hy & Hv & Hb).
    exists (p :: before), p0, after. split; [done |].
    split; [done |]. split; [done |]. split; [done |].
    intros q Hq. apply elem_of_cons in Hq as [-> | Hq]; [done | by apply Hb]. }
  destruct (fits (candidate (px p) (py p) width height) _ _) eqn:Hfit; simpl.
  - destruct (colliding w (candidate (px p) (py p) width height)) eqn:Hcol; simpl.
    + apply Hskip. intros [_ ?]. done.
    + intros _. exists [], p, ps. split; [done |].
      split; [done |]. split; [done |]. split; [done |].
      intros q Hq. by apply elem_of_nil in Hq.
  - apply Hskip. intros [? _]. done.
Qed.

Lemma ringResult_radius r : radius (ringResult w width height r) = r.
Proof. apply testRadiusLoop_radius. Qed.

(** What the inner loop of the aggregator concludes. *)
Lemma scan_found rs t x y :
  scan rs t = Found x y ->
  exists before r after,
    rs = before ++ r :: after
    /\ (forall r', r' ∈ before ->
          isDone t r' = true /\ failed (resultOf t r') = true)
    /\ isDone t r = true /\ failed (resultOf t r) = false
    /\ x = resx (resultOf t r) /\ y = resy (resultOf t r).
Proof.
  induction rs as [| r rs IH]; simpl; [done |].
  destruct (isDone t r) eqn:Hd; simpl; [| done].
  destruct (failed (resultOf t r)) eqn:Hf; simpl.
  - intros H. destruct (IH H) as (before & r0 & after & -> & Hb & Hrest).
    exists (r :: before), r0, after. split; [done |]. split; [| done].
    intros r' Hr'. apply elem_of_cons in Hr' as [-> | Hr']; [done | by apply Hb].
  - intros H. injection H as <- <-. exists [], r, rs.
    split; [done |]. split; [| done].
    intros r' Hr'. by apply elem_of_nil in Hr'.
Qed.

Lemma scan_exhausted rs t :
  scan rs t = Exhausted <->
  forall r, r ∈ rs -> isDone t r = true /\ failed (resultOf t r) = true.
Proof.
  induction rs as [| r rs IH]; simpl.
  - split; [| done]. intros _ r Hr. by apply elem_of_nil in Hr.
  - destruct (isDone t r) eqn:Hd; simpl.
    + destruct (failed (resultOf t r)) eqn:Hf; simpl.
      * rewrite IH. split.
        -- intros H r' Hr'. apply elem_of_cons in Hr' as [-> | Hr']; [done | by apply H].
        -- intros H r' Hr'. apply H. apply elem_of_cons. by right.
      * split; [done |]. intros H.
        destruct (H r) as [_ ?]; [apply elem_of_cons; by left |]. congruence.
    + split; [done |]. intros H.
      destruct (H r) as [? _]; [apply elem_of_cons; by left |]. congruence.
Qed.

Lemma booked_empty : booked [] emptyTally.
Proof. intros r H. done. Qed.

Lemma booked_record seen t d :
  booked seen t -> booked (seen ++ [d]) (record d t).
Proof.
  intros H r Hr. rewrite isDone_record in Hr. rewrite resultOf_record.
  destruct (Qeq_bool (radius d) r) eqn:E.
  - exists d. split; [apply elem_of_app; right; by apply list_elem_of_singleton |].
    split; [by apply Qeq_bool_iff | done].
  - destruct (H r Hr) as (d' & Hin & Hrad & Hres).
    exists d'. split; [apply elem_of_app; by left | done].
Qed.

Lemma booked_bookAll arrivals seen t :
  booked seen t -> booked (seen ++ arrivals) (bookAll arrivals t).
Proof.
  revert seen t. induction arrivals as [| d ds IH]; intros seen t H; simpl.
  - by rewrite app_nil_r.
  - replace (seen ++ d :: ds) with ((seen ++ [d]) ++ ds)
      by (by rewrite <- app_assoc).
    apply IH. by apply booked_record.
Qed.

(** The aggregator answers with the verdict of the first round that has
    one. *)
Lemma aggregate_answer arrivals t v :
  aggregate w arrivals t = Some v ->
  exists n, (0 < n <= length arrivals)%nat
    /\ answer w (scan (radii w) (bookAll (take n arrivals) t)) = Some v
    /\ forall k, (0 < k < n)%nat ->
         answer w (scan (radii w) (bookAll (take k arrivals) t)) = None.
Proof.
  revert t. induction arrivals as [| d ds IH]; intros t; simpl; [done |].
  destruct (answer w (scan (radii w) (record d t))) as [v' |] eqn:E.
  - intros H. injection H as <-. exists 1%nat. simpl.
    split; [lia |]. split; [done |]. intros k Hk. lia.
  - intros H. destruct (IH _ H) as (n & Hn & Hans & Hnone).
    exists (S n). split; [simpl; lia |]. split; [done |].
    intros [| k] Hk; [lia |]. simpl.
    destruct k as [| k]; [by rewrite take_0 |]. apply Hnone. lia.
Qed.

(** The heart of the minimality argument: when the bookkeeping holds only
    results of rings of the table and the inner loop finds a success at
    some radius, the success is a valid point of that ring and no ring
    before it in the table has a valid point. *)
Lemma found_is_minimal seen t x y :
  booked seen t ->
  (forall d, d ∈ seen -> exists r, r ∈ radii w /\ d = ringResult w width height r) ->
  scan (radii w) t = Found x y ->
  exists before r after,
    radii w = before ++ r :: after
    /\ (exists p, p ∈ positions w r /\ x = px p /\ y = py p
                  /\ valid w (candidateAt p width height))
    /\ forall r', r' ∈ before ->
         isDone t r' = true
         /\ forall p, p ∈ positions w r' -> ~ valid w (candidateAt p width height).
Proof.
  intros Hbooked Hseen Hscan.
  destruct (scan_found _ _ _ _ Hscan)
    as (before & r & after & Hsplit & Hbefore & Hdone & Hok & -> & ->).
  exists before, r, after. split; [done |]. split.
  - destruct (Hbooked r Hdone) as (d & Hin & Hrad & Hres).
    destruct (Hseen d Hin) as (r0 & Hr0 & ->).
    rewrite ringResult_radius in Hrad. rewrite Hres in *.
    unfold ringResult, testRadius in *.
    destruct (testRadiusLoop_found _ _ _ _ Hok)
      as (l1 & p & l2 & Hpts & Hx & Hy & Hv & _).
    exists p. split; [| done].
    rewrite <- (positions_key_eq w r0 r Hrad), Hpts.
    apply elem_of_app. right. apply elem_of_cons. by left.
  - intros r' Hr'. destruct (Hbefore r' Hr') as [Hd Hf]. split; [done |].
    destruct (Hbooked r' Hd) as (d & Hin & Hrad & Hres).
    destruct (Hseen d Hin) as (r0 & Hr0 & ->).
    rewrite ringResult_radius in Hrad. rewrite Hres in Hf.
    unfold ringResult, testRadius in Hf.
    rewrite <- (positions_key_eq w r0 r' Hrad).
    exact (proj1 (testRadiusLoop_failed _ _ _ _) Hf).
Qed.

End Rings.

(** ** One placement *)

Lemma bind_Ok_inv {A B} (r : result A) (k : A -> result B) (b : B) :
  r ≫= k = Ok b -> exists a, r = Ok a /\ k a = Ok b.
Proof.
  destruct r as [a | p |]; simpl; [eauto | done | done].
Qed.

Lemma assign_Ok_inv {A} (s s' : list A) i v :
  assign s i v = Ok s' -> (i < length s)%nat /\ s' = <[i := v]> s.
Proof.
  unfold assign. destruct (decide (i < length s)%nat); [| done].
  intros H. injection H as <-. done.
Qed.

Lemma index_Ok_inv {A} (s : list A) i a :
  index s i = Ok a -> s !! i = Some a.
Proof.
  unfold index. destruct (s !! i); [| done]. intros H. by injection H as ->.
Qed.

Lemma sameTable_refl w : sameTable w w.
Proof. by repeat split. Qed.

Lemma sameTable_trans w1 w2 w3 :
  sameTable w1 w2 -> sameTable w2 w3 -> sameTable w1 w3.
Proof.
  unfold sameTable. intros (? & ? & ? & ? & ? & ?) (? & ? & ? & ? & ? & ?).
  repeat split; congruence.
Qed.

Lemma sameIndex_refl w : sameIndex w w.
Proof. split; [apply sameTable_refl | done]. Qed.

Lemma sameIndex_trans w1 w2 w3 :
  sameIndex w1 w2 -> sameIndex w2 w3 -> sameIndex w1 w3.
Proof.
  intros [H1 [? ?]] [H2 [? ?]]. split; [by eapply sameTable_trans |].
  split; congruence.
Qed.

Section Placement.

Context (P : Platform).

Lemma setFont_sameIndex w fs w' :
  setFont P w fs = Ok w' -> sameIndex w w'.
Proof.
  unfold setFont. intros H. apply bind_Ok_inv in H as (w1 & H1 & H).
  injection H as <-.
  destruct (decide (Qround fs ∈ fonts w)).
  { injection H1 as <-. by repeat split. }
  destruct (negb _); [done |].
  destruct (decide _); [done |]. injection H1 as <-. by repeat split.
Qed.

Lemma nextRandom_sameIndex w width height w' v :
  nextRandom P w width height = Ok (w', v) -> sameIndex w w' /\ dc w' = dc w.
Proof.
  unfold nextRandom. intros H. apply bind_Ok_inv in H as (o & _ & H).
  injection H as <- <-. by repeat split.
Qed.

Lemma nextPos_sameIndex w width height w' v :
  nextPos P w width height = Ok (w', v) -> sameIndex w w' /\ dc w' = dc w.
Proof.
  unfold nextPos. destruct (randomPlacement w).
  - apply nextRandom_sameIndex.
  - destruct (aggregate _ _ _); [| done]. intros H. injection H as <- <-.
    split; [apply sameIndex_refl | done].
Qed.

(** What a search that reports success has established about the
    rectangle around the returned point. *)
Lemma nextPos_success_valid w width height w' x y :
  nextPos P w width height = Ok (w', (x, y, true)) ->
  valid w (candidate x y width height).
Proof.
  unfold nextPos. destruct (randomPlacement w) eqn:Hmode.
  - unfold nextRandom. intros H. apply bind_Ok_inv in H as (o & Ho & H).
    injection H as _ <- <- Hsp.
    exact (nextRandomOutcome_found P w width height o Ho Hsp).
  - destruct (aggregate _ _ _) as [v |] eqn:Hagg; [| done].
    intros H. injection H as _ ->.
    destruct (aggregate_answer w _ _ _ Hagg) as (n & Hn & Hans & _).
    destruct (scan _ _) eqn:Hscan; simpl in Hans; try done.
    injection Hans as -> ->.
    assert (forall d, d ∈ take n (map (ringResult w width height) (radii w)) ->
              exists r, r ∈ radii w /\ d = ringResult w width height r) as Hseen.
    { intros d Hd. apply elem_of_take in Hd as (i & Hd & _).
      apply list_lookup_fmap_Some in Hd as (r & -> & Hr).
      exists r. split; [by eapply list_elem_of_lookup_2 | done]. }
    destruct (found_is_minimal w width height _ _ _ _
                (booked_bookAll _ [] _ booked_empty) Hseen Hscan)
      as (before & r & after & _ & (p & _ & -> & -> & Hv) & _).
    exact Hv.
Qed.

Lemma addPrecise_grid debug boxes c g :
  (addPrecise debug boxes c g).2 = foldl Add g boxes.
Proof.
  revert c g. induction boxes as [| b bs IH]; intros c g; simpl; [done |].
  apply IH.
Qed.

Lemma inserted_foldl_Add g boxes :
  inserted (foldl Add g boxes) = inserted g ++ boxes.
Proof.
  revert g. induction boxes as [| b bs IH]; intros g; simpl.
  - by rewrite app_nil_r.
  - rewrite IH. simpl. by rewrite <- app_assoc.
Qed.

(** [Place], taken apart: the word is looked up, colour and font are set
    (engine [w1]), the padded box is searched for (engine [w2]), and the
    outcome is stored. *)
Lemma Place_inv w idx w' b :
  Place P w idx = Ok (w', b) ->
  exists word w1 wd ht w2 x y,
    Word (sortedWordList w) !! idx = Some word
    /\ sameIndex w w1
    /\ MeasureString P (dcFace (dc w1)) word = (wd, ht)
    /\ nextPos P w1 (wd + 5) (ht + 5) = Ok (w2, (x, y, b))
    /\ (idx < length (Pos (sortedWordList w2)))%nat
    /\ (idx < length (Rect (sortedWordList w2)))%nat
    /\ if b then
         let w3 := painted w2 idx word x y (wd + 5) (ht + 5) in
         grid w' = foldl Add (grid w3) (boxesFor P w3 x y (wd + 5) (ht + 5))
         /\ sortedWordList w' = sortedWordList w3
         /\ sameTable w3 w'
       else w' = unplaced w2 idx.
Proof.
  unfold Place. intros H.
  apply bind_Ok_inv in H as (word & Hword & H). apply index_Ok_inv in Hword.
  apply bind_Ok_inv in H as (ci & Hci & H).
  apply bind_Ok_inv in H as (k & Hk & H).
  apply bind_Ok_inv in H as (c & Hc & H).
  apply bind_Ok_inv in H as (fs & Hfs & H).
  apply bind_Ok_inv in H as (w1 & Hfont & H).
  apply setFont_sameIndex in Hfont.
  destruct (MeasureString P (dcFace (dc w1)) word) as [wd ht] eqn:Hm.
  apply bind_Ok_inv in H as ([w2 [[x y] space]] & Hpos & H).
  exists word, w1, wd, ht, w2, x, y. split; [done |].
  split.
  { eapply sameIndex_trans; [| exact Hfont]. by repeat split. }
  split; [done |].
  destruct space; simpl in H.
  - apply bind_Ok_inv in H as (pos & Hp & H). apply assign_Ok_inv in Hp as [Hlp ->].
    apply bind_Ok_inv in H as (rect & Hr & H). apply assign_Ok_inv in Hr as [Hlr ->].
    unfold boxesFor, painted.
    destruct (Qltb 40 (ht + 5)).
    + destruct (addPrecise _ _ _ _) as [dc' g] eqn:Hadd.
      injection H as <- <-. split; [done |]. split; [done |]. split; [done |].
      split; [| by repeat split].
      simpl. pose proof (addPrecise_grid (Debug (opts w2))
        (getPreciseBoundingBoxes P
           (withWords (withDc w2 (DrawStringAnchored (dc w2) word x y 0.5 0.5))
              (setPosRect (sortedWordList w2)
                 (<[idx := Complex (Fin (x - 0.5 * (wd + 5 - 5)))
                                   (Fin (y - 0.5 * (ht + 5 - 5)))]>
                    (Pos (sortedWordList w2)))
                 (<[idx := Complex (Fin (wd + 5 - 5)) (Fin (ht + 5 - 5))]>
                    (Rect (sortedWordList w2)))))
           (reservedBox x y (wd + 5) (ht + 5)))
        (DrawStringAnchored (dc w2) word x y 0.5 0.5) (grid w2)) as Hg.
      simpl in Hadd. rewrite Hadd in Hg. simpl in Hg. by rewrite Hg.
    + injection H as <- <-. split; [done |]. split; [done |]. split; [done |].
      by repeat split.
  - apply bind_Ok_inv in H as (pos & Hp & H). apply assign_Ok_inv in Hp as [Hlp ->].
    apply bind_Ok_inv in H as (rect & Hr & H). apply assign_Ok_inv in Hr as [Hlr ->].
    injection H as <- <-. done.
Qed.

End Placement.

(** ** A placement miss *)

Section PlacementFacts.

Context (P : Platform).

Lemma DrawLoop_step n w i misses :
  DrawLoop P (S n) w i misses =
  Place P w i ≫= fun '(w, success) =>
    if negb success then
      if decide (10 < S misses)%nat then Ok (w, [(i, false)])
      else DrawLoop P n w (S i) (S misses) ≫= fun '(w, log) =>
             Ok (w, (i, false) :: log)
    else DrawLoop P n w (S i) 0 ≫= fun '(w, log) => Ok (w, (i, true) :: log).
Proof. reflexivity. Qed.

Lemma Place_sameTable w idx w' b :
  Place P w idx = Ok (w', b) -> sameTable w w'.
Proof.
  intros H.
  destruct (Place_inv P _ _ _ _ H)
    as (word & w1 & wd & ht & w2 & x & y & _ & [H1 _] & _ & Hpos & _ & _ & Hw').
  apply nextPos_sameIndex in Hpos as [[H2 _] _].
  eapply sameTable_trans; [exact H1 |]. eapply sameTable_trans; [exact H2 |].
  destruct b.
  - destruct Hw' as (_ & _ & H3). eapply sameTable_trans; [| exact H3].
    by repeat split.
  - subst w'. by repeat split.
Qed.

(** The word store after [Place]: only entry [idx] of the positions and of
    the sizes changes; the position becomes the sentinel exactly on a
    miss. *)
Lemma Place_words w idx w' b :
  Place P w idx = Ok (w', b) ->
  exists pos rect,
    Pos (sortedWordList w') = <[idx := pos]> (Pos (sortedWordList w))
    /\ Rect (sortedWordList w') = <[idx := rect]> (Rect (sortedWordList w))
    /\ (idx < length (Pos (sortedWordList w)))%nat
    /\ (idx < length (Rect (sortedWordList w)))%nat
    /\ Word (sortedWordList w') = Word (sortedWordList w)
    /\ isPlaced pos = b
    /\ (b = false -> pos = notPlacedPos /\ rect = czero).
Proof.
  intros H.
  destruct (Place_inv P _ _ _ _ H)
    as (word & w1 & wd & ht & w2 & x & y & _ & (_ & _ & Hw1) & _ & Hpos
        & Hlp & Hlr & Hw').
  apply nextPos_sameIndex in Hpos as [(_ & _ & Hw2) _].
  rewrite Hw2, Hw1 in *.
  destruct b.
  - destruct Hw' as (_ & -> & _). simpl. rewrite ?Hw2.
    eexists _, _. repeat split; try done.
  - subst w'. simpl. rewrite ?Hw2.
    eexists _, _. repeat split; try done.
Qed.

End PlacementFacts.

(** X21: when [Place] returns false the occupancy index is the one it was
    (same buckets, same inserted rectangles), the word's position is the
    "not placed" sentinel and its rectangle is zero, the other words keep
    their positions, and the pass is not aborted: [Draw] either goes on
    with the next word or, on the eleventh miss in a row, returns
    normally. *)
Theorem Place_miss_leaves_index (P : Platform) (w w' : Wordcloud) (idx : nat) :
  Place P w idx = Ok (w', false) ->
  grid w' = grid w
  /\ Pos (sortedWordList w') !! idx = Some notPlacedPos
  /\ Rect (sortedWordList w') !! idx = Some czero
  /\ (forall j, j <> idx ->
        Pos (sortedWordList w') !! j = Pos (sortedWordList w) !! j
        /\ Rect (sortedWordList w') !! j = Rect (sortedWordList w) !! j)
  /\ forall n misses,
       DrawLoop P (S n) w idx misses =
       if decide (10 < S misses)%nat then Ok (w', [(idx, false)])
       else DrawLoop P n w' (S idx) (S misses) ≫= fun '(w'', log) =>
              Ok (w'', (idx, false) :: log).
Proof.
  intros H. split; [| split; [| split; [| split]]].
  - destruct (Place_inv P _ _ _ _ H)
      as (word & w1 & wd & ht & w2 & x & y & _ & (_ & Hg1 & _) & _ & Hpos
          & _ & _ & ->).
    apply nextPos_sameIndex in Hpos as [(_ & Hg2 & _) _].
    simpl. congruence.
  - destruct (Place_words P _ _ _ _ H)
      as (pos & rect & -> & _ & Hl & _ & _ & _ & Hmiss).
    destruct (Hmiss eq_refl) as [-> _]. by apply list_lookup_insert_eq.
  - destruct (Place_words P _ _ _ _ H)
      as (pos & rect & _ & -> & _ & Hl & _ & _ & Hmiss).
    destruct (Hmiss eq_refl) as [_ ->]. by apply list_lookup_insert_eq.
  - intros j Hj.
    destruct (Place_words P _ _ _ _ H) as (pos & rect & -> & -> & _).
    split; by apply list_lookup_insert_ne.
  - intros n misses. rewrite DrawLoop_step, H. reflexivity.
Qed.

Lemma Place_miss_leaves_index_witness :
  Place Fixture.platform
    (Fixture.engine Fixture.wideWord (Fixture.options 100 100 false)) 0
  = Ok (Fixture.placed
          (Fixture.engine Fixture.wideWord (Fixture.options 100 100 false)) 0,
        false)
  /\ grid (Fixture.placed
             (Fixture.engine Fixture.wideWord (Fixture.options 100 100 false)) 0)
     = grid (Fixture.engine Fixture.wideWord (Fixture.options 100 100 false))
  /\ Pos (sortedWordList
            (Fixture.placed
               (Fixture.engine Fixture.wideWord (Fixture.options 100 100 false))
               0)) !! 0%nat
     = Some notPlacedPos.
Proof.
  assert (Place Fixture.platform
            (Fixture.engine Fixture.wideWord (Fixture.options 100 100 false)) 0
          = Ok (Fixture.placed
                  (Fixture.engine Fixture.wideWord
                     (Fixture.options 100 100 false)) 0,
                false)) as Hmiss
    by (vm_compute; reflexivity).
  split; [exact Hmiss |].
  destruct (Place_miss_leaves_index _ _ _ _ Hmiss) as (Hgrid & Hpos & _).
  split; [exact Hgrid | exact Hpos].
Defined.

(** ** The driving loop *)

Lemma consecutiveMissesAfter_app c l1 l2 :
  consecutiveMissesAfter c (l1 ++ l2)
  = consecutiveMissesAfter (consecutiveMissesAfter c l1) l2.
Proof. apply foldl_app. Qed.

Lemma consecutiveMissesAfter_misses c l :
  (forall b, b ∈ l -> b = false) ->
  consecutiveMissesAfter c l = (c + length l)%nat.
Proof.
  revert c. induction l as [| b l IH]; intros c H; simpl; [lia |].
  rewrite (H b) by (apply elem_of_cons; by left).
  unfold consecutiveMissesAfter in *. rewrite IH; [lia |].
  intros b' Hb'. apply H. apply elem_of_cons. by right.
Qed.

Lemma consecutiveMissesAfter_hit c l :
  consecutiveMissesAfter c (l ++ [true]) = 0%nat.
Proof. by rewrite consecutiveMissesAfter_app. Qed.

(** Among positions that are placed exactly below index [k], [k] are
    placed. *)
Lemma placed_prefix_count (l : list complex64) :
  forall k,
    (k <= length l)%nat ->
    (forall j p, l !! j = Some p -> (isPlaced p = true <-> (j < k)%nat)) ->
    length (filter (fun p => complex64_eqb p notPlacedPos = false) l) = k.
Proof.
  induction l as [| p l IH]; intros k Hk H; simpl in *.
  - lia.
  - destruct k as [| k].
    + rewrite filter_cons_False.
      * apply IH; [lia |]. intros j q Hq. split; [| lia].
        intros Hp. apply (H (S j) q) in Hp; [lia | done].
      * intros Hp. assert (isPlaced p = true) as Hp'
          by (unfold isPlaced; by rewrite Hp).
        apply (H 0%nat p) in Hp'; [lia | done].
    + rewrite filter_cons_True.
      * simpl. f_equal. apply IH; [lia |]. intros j q Hq.
        rewrite (H (S j) q Hq). lia.
      * assert (isPlaced p = true) as Hp by (apply (H 0%nat p); [done | lia]).
        unfold isPlaced in Hp. by apply negb_true_iff in Hp.
Qed.

Section Drawing.

Context (P : Platform).

(** The log of the loop: the indices in order, and the failure counter
    never above ten before an attempt. *)
Lemma DrawLoop_log n :
  forall w i misses w' log,
    (misses <= 10)%nat ->
    DrawLoop P n w i misses = Ok (w', log) ->
    log.*1 = seq i (length log)
    /\ (length log <= n)%nat
    /\ (forall k, (k < length log)%nat ->
          (consecutiveMissesAfter misses (take k log.*2) <= 10)%nat)
    /\ ((length log < n)%nat ->
          consecutiveMissesAfter misses log.*2 = 11%nat).
Proof.
  induction n as [| n IH]; intros w i misses w' log Hm H.
  - simpl in H. injection H as <- <-. simpl.
    split; [done |]. split; [lia |]. split; intros; lia.
  - rewrite DrawLoop_step in H.
    apply bind_Ok_inv in H as ([w1 success] & Hplace & H).
    destruct success; simpl in H.
    + apply bind_Ok_inv in H as ([w2 log'] & Hrest & H). injection H as <- <-.
      destruct (IH w1 (S i) 0%nat w2 log' ltac:(lia) Hrest)
        as (Hidx & Hlen & Hcount & Hstop).
      rewrite !fmap_cons. simpl. rewrite Hidx.
      split; [done |]. split; [lia |]. split.
      * intros [| k] Hk; simpl; [lia |]. apply Hcount. lia.
      * intros Hk. apply Hstop. lia.
    + destruct (decide (10 < S misses)%nat) as [Hten | Hten].
      * injection H as <- <-. simpl. split; [done |]. split; [lia |]. split.
        -- intros k Hk. assert (k = 0%nat) as -> by lia. simpl. lia.
        -- intros _. lia.
      * apply bind_Ok_inv in H as ([w2 log'] & Hrest & H). injection H as <- <-.
        destruct (IH w1 (S i) (S misses) w2 log' ltac:(lia) Hrest)
          as (Hidx & Hlen & Hcount & Hstop).
        rewrite !fmap_cons. simpl. rewrite Hidx.
      split; [done |]. split; [lia |]. split.
        -- intros [| k] Hk; simpl; [lia |]. apply Hcount. lia.
        -- intros Hk. apply Hstop. lia.
Qed.

(** The positions after the loop: an attempted word is placed exactly when
    [Place] answered true; the other words are untouched. *)
Lemma DrawLoop_positions n :
  forall w i misses w' log,
    DrawLoop P n w i misses = Ok (w', log) ->
    length (Pos (sortedWordList w')) = length (Pos (sortedWordList w))
    /\ forall j,
         (forall k b, log.*2 !! k = Some b -> j = (i + k)%nat ->
            exists p, Pos (sortedWordList w') !! j = Some p /\ isPlaced p = b)
         /\ ((j < i)%nat \/ (i + length log <= j)%nat ->
               Pos (sortedWordList w') !! j = Pos (sortedWordList w) !! j).
Proof.
  induction n as [| n IH]; intros w i misses w' log H.
  - simpl in H. injection H as <- <-. simpl. split; [done |].
    intros j. split; [| done]. intros k b Hk. done.
  - rewrite DrawLoop_step in H.
    apply bind_Ok_inv in H as ([w1 success] & Hplace & H).
    destruct (Place_words P _ _ _ _ Hplace)
      as (pos & rect & Hpos & _ & Hlp & _ & _ & Hplaced & _).
    assert (forall w2 log',
      DrawLoop P n w1 (S i) (if success then 0 else S misses) = Ok (w2, log') ->
      length (Pos (sortedWordList w2)) = length (Pos (sortedWordList w))
      /\ forall j,
           (forall k b, ((i, success) :: log').*2 !! k = Some b -> j = (i + k)%nat ->
              exists p, Pos (sortedWordList w2) !! j = Some p /\ isPlaced p = b)
           /\ ((j < i)%nat \/ (i + length ((i, success) :: log') <= j)%nat ->
                 Pos (sortedWordList w2) !! j = Pos (sortedWordList w) !! j)) as Hgo.
    { intros w2 log' Hrest.
      destruct (IH _ _ _ _ _ Hrest) as (Hlen & Hj).
      rewrite Hpos, length_insert in Hlen. split; [done |].
      intros j. destruct (Hj j) as [Hin Hout]. split.
      - intros [| k] b Hk ->; simpl in Hk.
        + injection Hk as <-. exists pos. split; [| done].
          rewrite Hout by lia. rewrite Hpos, Nat.add_0_r.
          by apply list_lookup_insert_eq.
        + apply (Hin k b Hk). lia.
      - simpl. intros Hrange. rewrite Hout by lia. rewrite Hpos.
        apply list_lookup_insert_ne. lia. }
    destruct success; simpl in H.
    + apply bind_Ok_inv in H as ([w2 log'] & Hrest & H). injection H as <- <-.
      by apply Hgo.
    + destruct (decide (10 < S misses)%nat).
      * injection H as <- <-. rewrite Hpos, length_insert. split; [done |].
        intros j. split.
        -- intros [| k] b Hk ->; simpl in Hk; [| done]. injection Hk as <-.
           exists pos. split; [| done]. rewrite Nat.add_0_r.
           by apply list_lookup_insert_eq.
        -- simpl. intros Hrange. apply list_lookup_insert_ne. lia.
      * apply bind_Ok_inv in H as ([w2 log'] & Hrest & H). injection H as <- <-.
        by apply Hgo.
Qed.

Lemma NewWordcloud_positions wl o w :
  NewWordcloud P wl o = Ok w ->
  Pos (sortedWordList w) = replicate (Length (sortedWordList w)) notPlacedPos.
Proof.
  rewrite NewWordcloud_outcome. destruct (Count wl); [done |].
  destruct (assignSizes _ _ _ _ _ _); [| done | done].
  intros H. injection H as <-. done.
Qed.

End Drawing.

Lemma placed_count_outcomes (ps : list complex64) (bs : list bool) :
  Forall2 (fun p b => isPlaced p = b) ps bs ->
  length (filter (fun p => complex64_eqb p notPlacedPos = false) ps)
  = length (filter (fun b => b = true) bs).
Proof.
  induction 1 as [| p b ps bs Hpb _ IH]; [done |].
  unfold isPlaced in Hpb.
  destruct b.
  - apply negb_true_iff in Hpb.
    rewrite (filter_cons_True _ p ps Hpb), filter_cons_True by done.
    simpl. by rewrite IH.
  - apply negb_false_iff in Hpb.
    rewrite (filter_cons_False _ p ps), filter_cons_False; [done | done |].
    congruence.
Qed.

Lemma placed_count_none (ps : list complex64) :
  (forall p, p ∈ ps -> p = notPlacedPos) ->
  length (filter (fun p => complex64_eqb p notPlacedPos = false) ps) = 0%nat.
Proof.
  induction ps as [| p ps IH]; intros H; [done |].
  rewrite filter_cons_False.
  - apply IH. intros q Hq. apply H. apply elem_of_cons. by right.
  - rewrite (H p) by (apply elem_of_cons; by left). done.
Qed.

(** X1: the stop rule of [Draw].  The pass hands the words to [Place] in
    index order without gaps; before every call the consecutive-failure
    counter (a failure adds one, a success resets it) is at most ten; and
    when the pass ends before the last word, the counter has just reached
    eleven. *)
Theorem Draw_stop_rule (P : Platform) (w w' : Wordcloud)
    (log : list (nat * bool)) :
  DrawLog P w = Ok (w', log) ->
  log.*1 = seq 0 (length log)
  /\ (length log <= Length (sortedWordList w))%nat
  /\ (forall k, (k < length log)%nat ->
        (consecutiveMissesAfter 0 (take k log.*2) <= 10)%nat)
  /\ ((length log < Length (sortedWordList w))%nat ->
        consecutiveMissesAfter 0 log.*2 = 11%nat).
Proof.
  intros H.
  exact (DrawLoop_log P (Length (sortedWordList w)) w 0 0 w' log
           ltac:(lia) H).
Qed.

Lemma Draw_stop_rule_witness :
  DrawLog Fixture.platform
    (Fixture.engine Fixture.saturating (Fixture.options 100 100 false))
  = Ok ((Fixture.drawn
           (Fixture.engine Fixture.saturating (Fixture.options 100 100 false))).1,
        (Fixture.drawn
           (Fixture.engine Fixture.saturating (Fixture.options 100 100 false))).2)
  /\ length (Fixture.drawn
               (Fixture.engine Fixture.saturating
                  (Fixture.options 100 100 false))).2 = 16%nat
  /\ consecutiveMissesAfter 0
       (Fixture.drawn
          (Fixture.engine Fixture.saturating (Fixture.options 100 100 false))).2.*2
     = 11%nat.
Proof.
  assert (DrawLog Fixture.platform
            (Fixture.engine Fixture.saturating (Fixture.options 100 100 false))
          = Ok ((Fixture.drawn
                   (Fixture.engine Fixture.saturating
                      (Fixture.options 100 100 false))).1,
                (Fixture.drawn
                   (Fixture.engine Fixture.saturating
                      (Fixture.options 100 100 false))).2)) as Hrun
    by (vm_compute; reflexivity).
  split; [exact Hrun |].
  assert (length (Fixture.drawn
                    (Fixture.engine Fixture.saturating
                       (Fixture.options 100 100 false))).2 = 16%nat) as Hlen
    by (vm_compute; reflexivity).
  split; [exact Hlen |].
  destruct (Draw_stop_rule _ _ _ _ Hrun) as (_ & _ & _ & Hstop).
  apply Hstop. rewrite Hlen. vm_compute. lia.
Defined.

(** X2: after a pass of [Draw] over a freshly built engine, [PlacedCount]
    is the number of words for which [Place] answered true; a word has a
    position other than the sentinel exactly when it was attempted and
    placed. *)
Theorem Draw_placed_count (P : Platform) (wl : WordDataCoArrays) (o : Options)
    (w w' : Wordcloud) (log : list (nat * bool)) :
  NewWordcloud P wl o = Ok w ->
  DrawLog P w = Ok (w', log) ->
  PlacedCount (sortedWordList w')
  = length (filter (fun b => b = true) log.*2)
  /\ forall j p, Pos (sortedWordList w') !! j = Some p ->
       (isPlaced p = true <-> log !! j = Some (j, true)).
Proof.
  intros Hnew Hrun.
  pose proof (NewWordcloud_positions P _ _ _ Hnew) as Hfresh.
  destruct (DrawLoop_log P (Length (sortedWordList w)) w 0 0 w' log
              ltac:(lia) Hrun) as (Hidx & Hlen & _).
  destruct (DrawLoop_positions P _ _ _ _ _ _ Hrun) as (Hsame & Hpos).
  rewrite Hfresh, length_replicate in Hsame.
  assert (forall j p, Pos (sortedWordList w') !! j = Some p ->
            (length log <= j)%nat -> p = notPlacedPos) as Hrest.
  { intros j p Hj Hge. destruct (Hpos j) as [_ Hout].
    rewrite Hout, Hfresh in Hj by lia.
    apply lookup_replicate in Hj as [-> _]. done. }
  assert (forall j b, log.*2 !! j = Some b ->
            exists p, Pos (sortedWordList w') !! j = Some p /\ isPlaced p = b)
    as Hin.
  { intros j b Hb. destruct (Hpos j) as [Hin _]. by apply (Hin j b). }
  split.
  - unfold PlacedCount.
    rewrite <- (take_drop (length log) (Pos (sortedWordList w'))).
    rewrite filter_app, length_app.
    rewrite (placed_count_none (drop _ _)).
    + rewrite Nat.add_0_r. apply placed_count_outcomes.
      apply Forall2_same_length_lookup_2.
      * rewrite length_take, length_fmap, Hsame. unfold Length in *. lia.
      * intros j p b Hp Hb. apply lookup_take_Some in Hp as [Hp _].
        destruct (Hin j b Hb) as (p' & Hp' & <-). congruence.
    + intros p Hp. apply list_elem_of_lookup_1 in Hp as [j Hj].
      rewrite lookup_drop in Hj. apply (Hrest _ _ Hj). lia.
  - intros j p Hj. split.
    + intros Hplaced.
      destruct (decide (j < length log)%nat) as [Hlt | Hge].
      * destruct (lookup_lt_is_Some_2 log j Hlt) as [[i b] Hjb].
        assert (log.*1 !! j = Some i) as Hi
          by (rewrite list_lookup_fmap, Hjb; done).
        rewrite Hidx in Hi. apply lookup_seq in Hi as [-> _].
        assert (log.*2 !! j = Some b) as Hb
          by (rewrite list_lookup_fmap, Hjb; done).
        destruct (Hin j b Hb) as (p' & Hp' & <-).
        simpl in Hjb. assert (p' = p) as -> by congruence.
        by rewrite Hjb, Hplaced.
      * rewrite (Hrest j p Hj) in Hplaced by lia. done.
    + intros Hjb.
      assert (log.*2 !! j = Some true) as Hb
        by (rewrite list_lookup_fmap, Hjb; done).
      destruct (Hin j true Hb) as (p' & Hp' & Hpl). congruence.
Qed.

Lemma Draw_placed_count_witness :
  PlacedCount
    (sortedWordList
       (Fixture.drawn
          (Fixture.engine Fixture.saturating (Fixture.options 100 100 false))).1)
  = 5%nat.
Proof.
  assert (NewWordcloud Fixture.platform (fromEntries Fixture.saturating)
            (Fixture.options 100 100 false)
          = Ok (Fixture.engine Fixture.saturating
                  (Fixture.options 100 100 false))) as Hnew
    by (vm_compute; reflexivity).
  assert (DrawLog Fixture.platform
            (Fixture.engine Fixture.saturating (Fixture.options 100 100 false))
          = Ok ((Fixture.drawn
                   (Fixture.engine Fixture.saturating
                      (Fixture.options 100 100 false))).1,
                (Fixture.drawn
                   (Fixture.engine Fixture.saturating
                      (Fixture.options 100 100 false))).2)) as Hrun
    by (vm_compute; reflexivity).
  destruct (Draw_placed_count _ _ _ _ _ _ Hnew Hrun) as [-> _].
  vm_compute. reflexivity.
Defined.

(** ** Properties of the search *)

Lemma testRadiusLoop_last w points x y r width height :
  failed (testRadiusLoop w points x y r width height) = true ->
  (resx (testRadiusLoop w points x y r width height),
   resy (testRadiusLoop w points x y r width height))
  = match last points with
    | Some p => (px p, py p)
    | None => (x, y)
    end.
Proof.
  revert x y. induction points as [| p ps IH]; intros x y; simpl; [done |].
  assert (forall H : failed (testRadiusLoop w ps (px p) (py p) r width height) = true,
    (resx (testRadiusLoop w ps (px p) (py p) r width height),
     resy (testRadiusLoop w ps (px p) (py p) r width height))
    = match last (p :: ps) with
      | Some p0 => (px p0, py p0)
      | None => (x, y)
      end) as Hnext.
  { intros H. rewrite (IH _ _ H). destruct ps as [| q qs]; [done |].
    rewrite last_cons_cons. destruct (last (q :: qs)) eqn:E; [done |].
    by apply last_None in E. }
  destruct (fits _ _ _); simpl; [| exact Hnext].
  destruct (colliding _ _); simpl; [exact Hnext | done].
Qed.

(** X3: [testRadius] keeps the radius it was given; it reports failure
    exactly when no point of the ring gives a valid rectangle, and then
    returns the coordinates of the last point tested (zero for an empty
    ring); otherwise it returns the first point, in the order of the ring,
    whose rectangle fits the canvas and collides with nothing. *)
Theorem testRadius_first_valid_point (w : Wordcloud) (r : Q)
    (points : list point) (width height : Q) :
  radius (testRadius w r points width height) = r
  /\ if failed (testRadius w r points width height) then
       (forall p, p ∈ points -> ~ valid w (candidateAt p width height))
       /\ (resx (testRadius w r points width height),
           resy (testRadius w r points width height))
          = match last points with
            | Some p => (px p, py p)
            | None => (0, 0)
            end
     else
       exists before p after,
         points = before ++ p :: after
         /\ resx (testRadius w r points width height) = px p
         /\ resy (testRadius w r points width height) = py p
         /\ valid w (candidateAt p width height)
         /\ forall q, q ∈ before -> ~ valid w (candidateAt q width height).
Proof.
  split; [apply testRadiusLoop_radius |].
  unfold testRadius.
  destruct (failed (testRadiusLoop w points 0 0 r width height)) eqn:E.
  - split.
    + exact (proj1 (testRadiusLoop_failed _ _ _ _ _ _ _) E).
    + by apply testRadiusLoop_last.
  - by apply testRadiusLoop_found.
Qed.

Lemma aggregate_minimal (w : Wordcloud) (width height : Q)
    (arrivals : list res) (x y : Q) (space : bool) :
  (forall d, d ∈ arrivals ->
     exists r, r ∈ radii w /\ d = ringResult w width height r) ->
  aggregate w arrivals emptyTally = Some (x, y, space) ->
  if space then
    exists before r after,
      radii w = before ++ r :: after
      /\ (exists p, p ∈ positions w r /\ x = px p /\ y = py p
                    /\ valid w (candidateAt p width height))
      /\ forall r', r' ∈ before ->
           (exists d, d ∈ arrivals /\ radius d == r')
           /\ forall p, p ∈ positions w r' ->
                ~ valid w (candidateAt p width height)
  else
    x = canvasWidth w /\ y = canvasHeight w
    /\ forall r, r ∈ radii w ->
         (exists d, d ∈ arrivals /\ radius d == r)
         /\ forall p, p ∈ positions w r ->
              ~ valid w (candidateAt p width height).
Proof.
  intros Hrings Hagg.
  destruct (aggregate_answer w _ _ _ Hagg) as (n & Hn & Hans & _).
  pose proof (booked_bookAll (take n arrivals) [] emptyTally booked_empty)
    as Hbooked.
  simpl in Hbooked.
  assert (forall d, d ∈ take n arrivals ->
            exists r, r ∈ radii w /\ d = ringResult w width height r) as Hseen.
  { intros d Hd. apply Hrings. apply elem_of_take in Hd as (i & Hd & _).
    by eapply list_elem_of_lookup_2. }
  assert (forall r', isDone (bookAll (take n arrivals) emptyTally) r' = true ->
            exists d, d ∈ arrivals /\ radius d == r') as Hreported.
  { intros r' Hd. destruct (Hbooked r' Hd) as (d & Hin & Hrad & _).
    exists d. split; [| done]. apply elem_of_take in Hin as (i & Hin & _).
    by eapply list_elem_of_lookup_2. }
  destruct (scan (radii w) (bookAll (take n arrivals) emptyTally)) eqn:Hscan;
    simpl in Hans; [| | done].
  - injection Hans as <- <- <-.
    destruct (found_is_minimal w width height _ _ _ _ Hbooked Hseen Hscan)
      as (before & r & after & Hsplit & Hpoint & Hbefore).
    exists before, r, after. split; [done |]. split; [done |].
    intros r' Hr'. destruct (Hbefore r' Hr') as [Hd Hnone].
    split; [by apply Hreported | done].
  - injection Hans as <- <- <-. split; [done |]. split; [done |].
    intros r Hr.
    destruct (proj1 (scan_exhausted _ _) Hscan r Hr) as [Hd Hf].
    split; [by apply Hreported |].
    destruct (Hbooked r Hd) as (d & Hin & Hrad & Hres).
    destruct (Hseen d Hin) as (r0 & Hr0 & ->).
    rewrite ringResult_radius in Hrad. rewrite Hres in Hf.
    unfold ringResult, testRadius in Hf.
    rewrite <- (positions_key_eq w r0 r Hrad).
    exact (proj1 (testRadiusLoop_failed _ _ _ _ _ _ _) Hf).
Qed.

(** X4: the aggregator of [nextPos], whatever the order in which the rings
    report.  When it answers with success, the point returned is a valid
    point of some ring of the table, and every ring before that one in the
    table has reported before the answer and has no valid point.  When it
    answers with failure, it returns the canvas size as coordinates, and
    every ring of the table has reported and has no valid point. *)
Theorem aggregate_first_ring (w : Wordcloud) (width height : Q)
    (arrivals : list res) (x y : Q) (space : bool) :
  (forall d, d ∈ arrivals ->
     exists r, r ∈ radii w /\ d = ringResult w width height r) ->
  aggregate w arrivals emptyTally = Some (x, y, space) ->
  if space then
    exists before r after,
      radii w = before ++ r :: after
      /\ (exists p, p ∈ positions w r /\ x = px p /\ y = py p
                    /\ valid w (candidateAt p width height))
      /\ forall r', r' ∈ before ->
           (exists d, d ∈ arrivals /\ radius d == r')
           /\ forall p, p ∈ positions w r' ->
                ~ valid w (candidateAt p width height)
  else
    x = canvasWidth w /\ y = canvasHeight w
    /\ forall r, r ∈ radii w ->
         (exists d, d ∈ arrivals /\ radius d == r)
         /\ forall p, p ∈ positions w r ->
              ~ valid w (candidateAt p width height).
Proof. exact (aggregate_minimal w width height arrivals x y space). Qed.

Lemma aggregate_first_ring_witness :
  aggregate
    (Fixture.engine Fixture.fourWords (Fixture.options 100 100 false))
    (map (ringResult
            (Fixture.engine Fixture.fourWords (Fixture.options 100 100 false))
            15 15)
       (reverse
          (radii (Fixture.engine Fixture.fourWords
                    (Fixture.options 100 100 false)))))
    emptyTally
  = Some (51, 50, true)
  /\ exists before r after,
       radii (Fixture.engine Fixture.fourWords (Fixture.options 100 100 false))
       = before ++ r :: after
       /\ (exists p,
             p ∈ positions
                   (Fixture.engine Fixture.fourWords
                      (Fixture.options 100 100 false)) r
             /\ 51 = px p /\ 50 = py p
             /\ valid (Fixture.engine Fixture.fourWords
                         (Fixture.options 100 100 false))
                  (candidateAt p 15 15))
       /\ forall r', r' ∈ before ->
            (exists d,
               d ∈ map (ringResult
                          (Fixture.engine Fixture.fourWords
                             (Fixture.options 100 100 false)) 15 15)
                     (reverse
                        (radii (Fixture.engine Fixture.fourWords
                                  (Fixture.options 100 100 false))))
               /\ radius d == r')
            /\ forall p,
                 p ∈ positions
                       (Fixture.engine Fixture.fourWords
                          (Fixture.options 100 100 false)) r' ->
                 ~ valid (Fixture.engine Fixture.fourWords
                            (Fixture.options 100 100 false))
                     (candidateAt p 15 15).
Proof.
  assert (aggregate
            (Fixture.engine Fixture.fourWords (Fixture.options 100 100 false))
            (map (ringResult
                    (Fixture.engine Fixture.fourWords
                       (Fixture.options 100 100 false)) 15 15)
               (reverse
                  (radii (Fixture.engine Fixture.fourWords
                            (Fixture.options 100 100 false)))))
            emptyTally
          = Some (51, 50, true)) as Hrun
    by (vm_compute; reflexivity).
  split; [exact Hrun |].
  apply (aggregate_first_ring _ 15 15 _ 51 50 true); [| exact Hrun].
  intros d Hd. apply list_elem_of_fmap in Hd as (r & -> & Hr).
  exists r. split; [| reflexivity]. by apply elem_of_reverse.
Defined.

(** X5: what a call of [nextPos] that returns has done, in either mode.
    The engine is unchanged except for the position in the random stream
    (and entirely unchanged in the concurrent mode).  On success the
    rectangle around the returned point fits the canvas and collides with
    nothing recorded.  In the concurrent mode a success is on the first
    ring of the table that has a valid point, and a failure returns the
    canvas size and means that no point of any ring is valid. *)
Theorem nextPos_outcome (P : Platform) (w w' : Wordcloud) (width height : Q)
    (x y : Q) (space : bool) :
  nextPos P w width height = Ok (w', (x, y, space)) ->
  sameIndex w w' /\ dc w' = dc w
  /\ (space = true -> valid w (candidate x y width height))
  /\ (randomPlacement w = false ->
      w' = w
      /\ if space then
           exists before r after,
             radii w = before ++ r :: after
             /\ (exists p, p ∈ positions w r /\ x = px p /\ y = py p)
             /\ forall r' p, r' ∈ before -> p ∈ positions w r' ->
                  ~ valid w (candidateAt p width height)
         else
           x = canvasWidth w /\ y = canvasHeight w
           /\ forall r p, r ∈ radii w -> p ∈ positions w r ->
                ~ valid w (candidateAt p width height)).
Proof.
  intros H.
  destruct (nextPos_sameIndex P _ _ _ _ _ H) as [Hsame Hdc].
  split; [done |]. split; [done |]. split.
  { intros ->. by eapply nextPos_success_valid. }
  intros Hmode. unfold nextPos in H. rewrite Hmode in H.
  destruct (aggregate _ _ _) as [v |] eqn:Hagg; [| done].
  injection H as <- ->. split; [done |].
  assert (forall d, d ∈ map (ringResult w width height) (radii w) ->
            exists r, r ∈ radii w /\ d = ringResult w width height r) as Hrings.
  { intros d Hd. apply list_elem_of_fmap in Hd as (r & -> & Hr). eauto. }
  pose proof (aggregate_minimal w width height _ x y space Hrings Hagg) as Hres.
  destruct space.
  - destruct Hres as (before & r & after & Hsplit & (p & Hp & Hx & Hy & _) & Hbefore).
    exists before, r, after. split; [done |]. split; [eauto |].
    intros r' q Hr' Hq. destruct (Hbefore r' Hr') as [_ Hnone]. by apply Hnone.
  - destruct Hres as (Hx & Hy & Hall). split; [done |]. split; [done |].
    intros r p Hr Hp. destruct (Hall r Hr) as [_ Hnone]. by apply Hnone.
Qed.

Lemma nextPos_outcome_witness :
  nextPos Fixture.platform
    (Fixture.engine Fixture.fourWords (Fixture.options 100 100 false)) 15 15
  = Ok (Fixture.engine Fixture.fourWords (Fixture.options 100 100 false),
        (51, 50, true))
  /\ valid (Fixture.engine Fixture.fourWords (Fixture.options 100 100 false))
       (candidate 51 50 15 15).
Proof.
  assert (nextPos Fixture.platform
            (Fixture.engine Fixture.fourWords (Fixture.options 100 100 false))
            15 15
          = Ok (Fixture.engine Fixture.fourWords
                  (Fixture.options 100 100 false),
                (51, 50, true))) as Hrun
    by (vm_compute; reflexivity).
  split; [exact Hrun |].
  destruct (nextPos_outcome _ _ _ _ _ _ _ _ Hrun) as (_ & _ & Hvalid & _).
  by apply Hvalid.
Defined.

(** ** Properties of the word store *)

(** X6: a store filled through [Add] has one row per call, in call order:
    the three columns have the length of the entry list and row [i] holds
    the word, count and colour index of the [i]-th call; the size, position
    and rectangle columns are still empty. *)
Theorem Add_rows (es : list (string * Z * Z)) :
  Length (fromEntries es) = length es
  /\ length (Count (fromEntries es)) = length es
  /\ length (ColorIndex (fromEntries es)) = length es
  /\ (forall i word count colorIndex,
        es !! i = Some (word, count, colorIndex) <->
        Word (fromEntries es) !! i = Some word
        /\ Count (fromEntries es) !! i = Some count
        /\ ColorIndex (fromEntries es) !! i = Some colorIndex)
  /\ FontSize (fromEntries es) = [] /\ Pos (fromEntries es) = []
  /\ Rect (fromEntries es) = [].
Proof.
  destruct (fromEntries_fields es) as (Hw & Hc & Hi & Hf & Hp & Hr).
  unfold Length. rewrite Hw, Hc, Hi, !length_fmap.
  split; [done |]. split; [done |]. split; [done |].
  split; [| done].
  intros i word count colorIndex. rewrite !list_lookup_fmap. split.
  - intros ->. done.
  - intros (H1 & H2 & H3).
    destruct (es !! i) as [[[a b] c] |]; simpl in *; congruence.
Qed.


Lemma applyPaletteLoop_ok ci sz :
  sz <> 0%Z ->
  applyPaletteLoop ci sz = Ok ((fun idx => idx `rem` sz)%Z <$> ci).
Proof.
  intros Hsz. induction ci as [| idx rest IH]; simpl; [done |].
  destruct (Z.eqb_spec sz 0); [done |]. by rewrite IH.
Qed.

(** X8: [ApplyColorPaletteSize(sz)] on [uint16] values.  With a palette
    size of zero it panics (integer division by zero) unless the store has
    no words.  Otherwise every colour index is replaced by its remainder
    modulo [sz], so all indices end up below [sz]; the other columns are
    untouched, and applying the same size again changes nothing. *)
Theorem ApplyColorPaletteSize_range (inst : WordDataCoArrays) (sz : Z) :
  isUint16 sz ->
  Forall isUint16 (ColorIndex inst) ->
  if decide (sz = 0%Z /\ ColorIndex inst <> []) then
    ApplyColorPaletteSize inst sz = Panic IntegerDivideByZero
  else
    exists inst',
      ApplyColorPaletteSize inst sz = Ok inst'
      /\ length (ColorIndex inst') = length (ColorIndex inst)
      /\ (forall i idx, ColorIndex inst !! i = Some idx ->
            ColorIndex inst' !! i = Some (idx `mod` sz)%Z)
      /\ (sz <> 0%Z ->
          Forall (fun c => (0 <= c < sz)%Z) (ColorIndex inst'))
      /\ Word inst' = Word inst /\ Count inst' = Count inst
      /\ FontSize inst' = FontSize inst /\ Pos inst' = Pos inst
      /\ Rect inst' = Rect inst
      /\ ApplyColorPaletteSize inst' sz = Ok inst'.
Proof.
  intros Hsz Hci. unfold ApplyColorPaletteSize.
  destruct (decide (sz = 0%Z /\ ColorIndex inst <> [])) as [[-> Hne] | Hok].
  - destruct (ColorIndex inst); [done |]. reflexivity.
  - destruct (decide (sz = 0%Z)) as [-> | Hnz].
    + assert (ColorIndex inst = []) as Hnil.
      { destruct (ColorIndex inst); [done |]. destruct Hok. done. }
      rewrite Hnil. simpl. eexists. split; [reflexivity |]. simpl.
      rewrite ?Hnil. repeat split; try done.
    + rewrite applyPaletteLoop_ok by done. simpl.
      assert (forall idx, isUint16 idx -> (idx `rem` sz = idx `mod` sz)%Z) as Hrem.
      { intros idx [H0 _]. apply Z.rem_mod_nonneg; unfold isUint16 in Hsz; lia. }
      eexists. split; [reflexivity |]. simpl.
      split; [by rewrite length_fmap |]. split.
      { intros i idx Hi. rewrite list_lookup_fmap, Hi. simpl.
        rewrite Hrem; [done |]. by eapply Forall_lookup_1. }
      split.
      { intros _. apply Forall_fmap. eapply Forall_impl; [exact Hci |].
        intros idx Hidx. simpl. rewrite (Hrem idx Hidx).
        apply Z.mod_pos_bound. unfold isUint16 in Hsz. lia. }
      assert ((fun idx => idx `rem` sz)%Z
                <$> ((fun idx => idx `rem` sz)%Z <$> ColorIndex inst)
              = (fun idx => idx `rem` sz)%Z <$> ColorIndex inst) as Heq.
      { rewrite <- list_fmap_compose. apply list_fmap_ext.
        intros i idx Hi. simpl.
        assert (isUint16 idx) as Hidx by (by eapply Forall_lookup_1).
        rewrite !(Hrem idx Hidx). rewrite Z.rem_mod_nonneg.
        - apply Z.mod_mod. done.
        - apply Z.mod_pos_bound. unfold isUint16 in Hsz. lia.
        - unfold isUint16 in Hsz. lia. }
      repeat split; try done.
      rewrite applyPaletteLoop_ok by done. simpl. by rewrite Heq.
Qed.

Lemma ApplyColorPaletteSize_range_witness :
  exists inst',
    ApplyColorPaletteSize Fixture.colourful 5 = Ok inst'
    /\ ColorIndex inst' = [2; 2; 3; 0]%Z.
Proof.
  assert (isUint16 5) as Hsz by (unfold isUint16; lia).
  assert (Forall isUint16 (ColorIndex Fixture.colourful)) as Hci.
  { change (ColorIndex Fixture.colourful) with [7; 12; 3; 65535]%Z.
    repeat constructor; unfold isUint16; lia. }
  pose proof (ApplyColorPaletteSize_range Fixture.colourful 5 Hsz Hci) as H.
  destruct (decide (5%Z = 0%Z /\ ColorIndex Fixture.colourful <> []))
    as [[H5 _] | _]; [discriminate |].
  destruct H as (inst' & Hrun & _).
  exists inst'. split; [exact Hrun |].
  vm_compute in Hrun. injection Hrun as <-. reflexivity.
Defined.

Lemma placedIndices_spec pos :
  forall i j,
    j ∈ placedIndices pos i <->
    (i <= j)%nat /\ exists p, pos !! (j - i)%nat = Some p /\ isPlaced p = true.
Proof.
  induction pos as [| p rest IH]; intros i j; simpl.
  - split; [intros H; by apply elem_of_nil in H |]. intros (_ & q & Hq & _). done.
  - assert (j ∈ placedIndices rest (S i) <->
            (S i <= j)%nat /\ exists q, (p :: rest) !! (j - i)%nat = Some q
                                       /\ isPlaced q = true) as Hrest.
    { rewrite IH. split.
      - intros (Hle & q & Hq & Hpl). split; [done |]. exists q. split; [| done].
        replace (j - i)%nat with (S (j - S i)) by lia. done.
      - intros (Hle & q & Hq & Hpl). split; [done |]. exists q. split; [| done].
        replace (j - i)%nat with (S (j - S i)) in Hq by lia. done. }
    destruct (isPlaced p) eqn:Hp.
    + rewrite elem_of_cons, Hrest. split.
      * intros [-> | (Hle & Hq)].
        -- split; [lia |]. exists p. rewrite Nat.sub_diag. done.
        -- split; [lia | done].
      * intros (Hle & q & Hq & Hpl).
        destruct (decide (j = i)) as [-> | Hne]; [by left |].
        right. split; [lia |]. eauto.
    + rewrite Hrest. split.
      * intros (Hle & Hq). split; [lia | done].
      * intros (Hle & q & Hq & Hpl).
        destruct (decide (j = i)) as [-> | Hne].
        -- rewrite Nat.sub_diag in Hq. simpl in Hq. congruence.
        -- split; [lia |]. eauto.
Qed.

Lemma placedIndices_sorted pos :
  forall i, StronglySorted lt (placedIndices pos i).
Proof.
  induction pos as [| p rest IH]; intros i; simpl; [constructor |].
  destruct (isPlaced p); [| apply IH].
  constructor; [apply IH |].
  apply Forall_forall. intros j Hj. apply placedIndices_spec in Hj. lia.
Qed.

Lemma placedIndices_length pos i :
  length (placedIndices pos i)
  = length (filter (fun p => complex64_eqb p notPlacedPos = false) pos).
Proof.
  revert i. induction pos as [| p rest IH]; intros i; simpl; [done |].
  unfold isPlaced. destruct (complex64_eqb p notPlacedPos) eqn:E; simpl.
  - rewrite filter_cons_False by congruence. apply IH.
  - rewrite filter_cons_True by done. simpl. by rewrite IH.
Qed.

(** What the iterator hands over, for any consumer. *)
Lemma allPlacedLoop_spec yield pos :
  forall i handed,
    exists rest,
      allPlacedLoop pos i yield handed = handed ++ rest
      /\ rest `prefix_of` placedIndices pos i
      /\ (rest <> placedIndices pos i -> yield (handed ++ rest) = false)
      /\ forall k, (0 < k < length rest)%nat ->
           yield (handed ++ take k rest) = true.
Proof.
  induction pos as [| p ps IH]; intros i handed; simpl.
  - exists []. rewrite app_nil_r. split; [done |]. split; [done |].
    split; [done |]. intros k Hk. simpl in Hk. lia.
  - unfold isPlaced. destruct (complex64_eqb p notPlacedPos); simpl.
    + apply IH.
    + destruct (yield (handed ++ [i])) eqn:Hy; simpl.
      * destruct (IH (S i) (handed ++ [i])) as (rest & Hrun & Hpre & Hstop & Hgo).
        exists (i :: rest). rewrite Hrun, <- app_assoc. split; [done |].
        split; [by apply prefix_cons |]. split.
        -- intros Hne. rewrite (cons_middle i handed rest), app_assoc.
           apply Hstop. congruence.
        -- intros [| k] Hk; [lia |]. simpl.
           rewrite (cons_middle i handed (take k rest)), app_assoc.
           destruct k as [| k]; [by rewrite take_0, app_nil_r |].
           apply Hgo. simpl in Hk. lia.
      * exists [i]. split; [done |]. split.
        -- apply prefix_cons. apply prefix_nil.
        -- split; [done |]. intros k Hk. simpl in Hk. lia.
Qed.

(** X9: the iterator [AllPlaced].  A consumer that never stops is handed
    exactly the indices of the words whose position is not the sentinel,
    in increasing order, [PlacedCount] of them.  Any consumer is handed a
    prefix of that sequence; it has answered true to every index but the
    last, and when it is handed less than the whole sequence its last
    answer was false (the iterator stops at once). *)
Theorem AllPlaced_indices (inst : WordDataCoArrays) (yield : list nat -> bool) :
  AllPlaced inst (fun _ => true) = placedIndices (Pos inst) 0
  /\ length (placedIndices (Pos inst) 0) = PlacedCount inst
  /\ StronglySorted lt (placedIndices (Pos inst) 0)
  /\ (forall j, j ∈ placedIndices (Pos inst) 0 <->
        exists p, Pos inst !! j = Some p /\ isPlaced p = true)
  /\ AllPlaced inst yield `prefix_of` placedIndices (Pos inst) 0
  /\ (AllPlaced inst yield <> placedIndices (Pos inst) 0 ->
      yield (AllPlaced inst yield) = false)
  /\ forall k, (0 < k < length (AllPlaced inst yield))%nat ->
       yield (take k (AllPlaced inst yield)) = true.
Proof.
  unfold AllPlaced. split; [| split; [| split; [| split]]].
  - destruct (allPlacedLoop_spec (fun _ => true) (Pos inst) 0 [])
      as (rest & -> & _ & Hstop & _). simpl.
    destruct (decide (rest = placedIndices (Pos inst) 0)) as [-> | Hne]; [done |].
    by apply Hstop in Hne.
  - apply placedIndices_length.
  - apply placedIndices_sorted.
  - intros j. rewrite placedIndices_spec, Nat.sub_0_r. split.
    + intros [_ H]. done.
    + intros H. split; [lia | done].
  - destruct (allPlacedLoop_spec yield (Pos inst) 0 [])
      as (rest & -> & Hpre & Hstop & Hgo). simpl. done.
Qed.

(** ** The ring table *)

Section RingTable.

Context (P : Platform) (cx cy : Q) (diag2 : Z).

Lemma step_radius (radius : Q) (n : nat) :
  radius == inject_Z (1 + 5 * Z.of_nat n) ->
  radius + 5 == inject_Z (1 + 5 * Z.of_nat (S n)).
Proof.
  intros ->. change 5 with (inject_Z 5) at 1. rewrite <- inject_Z_plus.
  replace (1 + 5 * Z.of_nat n + 5)%Z with (1 + 5 * Z.of_nat (S n))%Z by lia.
  reflexivity.
Qed.

Lemma below_diagonal (radius : Q) (n : Z) :
  radius == inject_Z n ->
  (radius * radius < inject_Z diag2 <-> (n * n < diag2)%Z).
Proof.
  intros ->. rewrite <- inject_Z_mult, <- Zlt_Qlt. reflexivity.
Qed.

(** The ring loop, from any round on: the table keeps one ring per radius
    [1 + 5 k] below the diagonal, and with enough rounds left none is
    missing. *)
Lemma ringLoop_spec fuel :
  forall radius cs rs,
    radius == inject_Z (1 + 5 * Z.of_nat (length rs)) ->
    (forall k r, rs !! k = Some r ->
       r == inject_Z (1 + 5 * Z.of_nat k)
       /\ r * r < inject_Z diag2
       /\ qlookup cs r = Some (newCircle P cx cy r 512)) ->
    (0 <= diag2)%Z ->
    (Z.sqrt diag2 <= Z.of_nat fuel + Z.of_nat (length rs))%Z ->
    (forall k r, (ringLoop P fuel cx cy diag2 radius cs rs).2 !! k = Some r ->
       r == inject_Z (1 + 5 * Z.of_nat k)
       /\ r * r < inject_Z diag2
       /\ qlookup (ringLoop P fuel cx cy diag2 radius cs rs).1 r
          = Some (newCircle P cx cy r 512))
    /\ forall k : nat,
         ((1 + 5 * Z.of_nat k) * (1 + 5 * Z.of_nat k) < diag2)%Z ->
         (k < length (ringLoop P fuel cx cy diag2 radius cs rs).2)%nat.
Proof.
  induction fuel as [| fuel IH]; intros radius cs rs Hradius Hinv Hdiag Hfuel.
  - simpl. split; [exact Hinv |]. intros k Hk.
    pose proof (Z.sqrt_spec diag2 Hdiag) as Hs.
    pose proof (Z.sqrt_nonneg diag2) as Hs0.
    destruct (decide (k < length rs)%nat) as [Hlt | Hge]; [done |].
    assert (Z.succ (Z.sqrt diag2) * Z.succ (Z.sqrt diag2)
            <= (1 + 5 * Z.of_nat k) * (1 + 5 * Z.of_nat k))%Z
      by (apply Z.mul_le_mono_nonneg; lia).
    simpl in Hs. lia.
  - simpl. destruct (Qltb (radius * radius) (inject_Z diag2)) eqn:Hcond.
    + apply Qltb_lt in Hcond. apply IH.
      * rewrite length_app. simpl. rewrite Nat.add_1_r. by apply step_radius.
      * intros k r Hk. apply lookup_app_Some in Hk as [Hk | [Hlen Hk]].
        -- destruct (Hinv k r Hk) as (Hr & Hbelow & Hlook).
           split; [done |]. split; [done |]. simpl.
           destruct (Qeq_bool radius r) eqn:E; [| done].
           apply Qeq_bool_iff in E. rewrite Hradius, Hr in E.
           apply lookup_lt_Some in Hk.
           assert (1 + 5 * Z.of_nat (length rs) = 1 + 5 * Z.of_nat k)%Z
             by (by apply inject_Z_injective). lia.
        -- assert (k = length rs) as ->.
           { apply lookup_lt_Some in Hk. simpl in Hk. lia. }
           rewrite Nat.sub_diag in Hk. simpl in Hk. injection Hk as <-.
           split; [done |]. split; [done |]. simpl.
           assert (Qeq_bool radius radius = true) as ->
             by (by apply Qeq_bool_iff). done.
      * done.
      * rewrite length_app. simpl. lia.
    + simpl. split; [exact Hinv |]. intros k Hk.
      apply Qltb_ge in Hcond.
      assert (~ (1 + 5 * Z.of_nat (length rs)) * (1 + 5 * Z.of_nat (length rs))
                < diag2)%Z as Hstop.
      { intros Hlt. apply (below_diagonal radius _ Hradius) in Hlt. lra. }
      destruct (decide (k < length rs)%nat) as [Hlt | Hge]; [done |].
      assert ((1 + 5 * Z.of_nat (length rs)) * (1 + 5 * Z.of_nat (length rs))
              <= (1 + 5 * Z.of_nat k) * (1 + 5 * Z.of_nat k))%Z
        by (apply Z.mul_le_mono_nonneg; lia).
      lia.
Qed.

End RingTable.

Lemma ring_table (P : Platform) (wl : WordDataCoArrays) (o : Options)
    (w : Wordcloud) :
  NewWordcloud P wl o = Ok w ->
  (forall k r, radii w !! k = Some r ->
     r == inject_Z (1 + 5 * Z.of_nat k)
     /\ r * r < inject_Z (Width o * Width o + Height o * Height o)
     /\ positions w r
        = newCircle P (inject_Z (Width o ÷ 2)) (inject_Z (Height o ÷ 2)) r 512)
  /\ (forall k : nat,
        ((1 + 5 * Z.of_nat k) * (1 + 5 * Z.of_nat k)
         < Width o * Width o + Height o * Height o)%Z ->
        (k < length (radii w))%nat)
  /\ increasing (radii w).
Proof.
  rewrite NewWordcloud_outcome. destruct (Count wl); [done |].
  destruct (assignSizes _ _ _ _ _ _); [| done | done].
  intros H. injection H as <-. simpl.
  set (diag2 := (Width o * Width o + Height o * Height o)%Z).
  destruct (ringLoop_spec P (inject_Z (Width o ÷ 2)) (inject_Z (Height o ÷ 2))
              diag2 (Z.to_nat (Z.sqrt diag2)) 1 [] []) as [Hrings Hall].
  { reflexivity. }
  { intros k r Hk. done. }
  { unfold diag2. nia. }
  { pose proof (Z.sqrt_nonneg diag2). simpl. lia. }
  assert (forall k r,
    (ringLoop P (Z.to_nat (Z.sqrt diag2)) (inject_Z (Width o ÷ 2))
       (inject_Z (Height o ÷ 2)) diag2 1 [] []).2 !! k = Some r ->
    r == inject_Z (1 + 5 * Z.of_nat k)) as Hval.
  { intros k r Hk. by destruct (Hrings k r Hk). }
  split; [| split; [exact Hall |]].
  - intros k r Hk. destruct (Hrings k r Hk) as (Hr & Hbelow & Hlook).
    split; [done |]. split; [done |].
    unfold positions. simpl. by rewrite Hlook.
  - intros i j ri rj Hij Hi Hj.
    rewrite (Hval i ri Hi), (Hval j rj Hj). rewrite <- Zlt_Qlt. lia.
Qed.



(** ** The fresh engine, the font cache, and what every engine keeps *)

Lemma addMask_spec debug mask c g :
  (addMask debug mask c g).2 = foldl Add g mask
  /\ dcOps (addMask debug mask c g).1
     = dcOps c ++ (if debug then (fun b => OpStrokeRect b (dcColor c)) <$> mask
                   else [])
  /\ dcColor (addMask debug mask c g).1 = dcColor c.
Proof.
  revert c g. induction mask as [| b rest IH]; intros c g; simpl.
  - destruct debug; by rewrite app_nil_r.
  - destruct (IH (if debug then strokeBox c b else c) (Add g b))
      as (Hg & Hops & Hcol).
    split; [done |]. rewrite Hops, Hcol.
    destruct debug; simpl; [| done]. by rewrite <- app_assoc.
Qed.

Lemma assignSizes_length o wordCountMax counts :
  forall idx m sizes sizes',
    assignSizes o wordCountMax counts idx m sizes = Ok sizes' ->
    length sizes' = length sizes.
Proof.
  induction counts as [| c rest IH]; intros idx m sizes sizes' H; simpl in H.
  - by injection H as <-.
  - destruct (m <? c)%Z; [done |].
    apply bind_Ok_inv in H as (s1 & Hs1 & H).
    apply assign_Ok_inv in Hs1 as [_ ->].
    rewrite (IH _ _ _ _ H). apply length_insert.
Qed.

Lemma initial_engine (P : Platform) (wl : WordDataCoArrays)
    (o : Options) (w : Wordcloud) :
  NewWordcloud P wl o = Ok w ->
  grid w = foldl Add (newSpatialHashMap (inject_Z (Width o))
                        (inject_Z (Height o)) (Height o ÷ 10)) (Mask o)
  /\ inserted (grid w) = Mask o
  /\ dcOps (dc w)
     = OpClear (BackgroundColor o)
       :: (if Debug o then (fun b => OpStrokeRect b black) <$> Mask o else [])
  /\ PlacedCount (sortedWordList w) = 0%nat
  /\ fonts w = ∅
  /\ Word (sortedWordList w) = Word wl
  /\ Count (sortedWordList w) = Count wl
  /\ ColorIndex (sortedWordList w) = ColorIndex wl
  /\ length (FontSize (sortedWordList w)) = length (Word wl)
  /\ length (Rect (sortedWordList w)) = length (Word wl)
  /\ width w = inject_Z (Width o) /\ height w = inject_Z (Height o)
  /\ randomPlacement w = RandomPlacement o /\ opts w = o
  /\ randDraws w = 0%nat.
Proof.
  intros Hnew. pose proof (NewWordcloud_positions P _ _ _ Hnew) as Hpos.
  revert Hnew Hpos.
  rewrite NewWordcloud_outcome. destruct (Count wl) as [| m rest] eqn:Hc; [done |].
  destruct (assignSizes _ _ _ _ _ _) as [sizes | |] eqn:Hs; [| done | done].
  apply assignSizes_length in Hs. rewrite regrow_length in Hs.
  intros H Hpos. injection H as <-. simpl in *.
  destruct (addMask_spec (Debug o) (Mask o)
              (SetColor (Clear (SetColor (NewContext (Width o) (Height o))
                                  (BackgroundColor o))) black)
              (newSpatialHashMap (inject_Z (Width o)) (inject_Z (Height o))
                 (Height o ÷ 10))) as (Hg & Hops & _).
  rewrite Hg, Hops, inserted_foldl_Add. simpl.
  split; [done |]. split; [done |]. split; [done |]. split.
  { unfold PlacedCount. simpl. apply placed_count_none. intros p Hp.
    by apply elem_of_replicate in Hp as [-> _]. }
  split; [done |]. split; [done |]. split; [done |]. split; [done |].
  split; [done |]. repeat split; try done. by rewrite regrow_length.
Qed.

(** X11: the engine [NewWordcloud] returns.  The index holds exactly the
    mask rectangles, inserted in mask order; the canvas was cleared with
    the background colour and, in debug mode only, shows the mask
    rectangles stroked in black; no word is placed, no font is cached; the
    words, counts and colour indices are those handed in; canvas size,
    placement mode and options are copied from the options. *)
Theorem NewWordcloud_initial (P : Platform) (wl : WordDataCoArrays)
    (o : Options) (w : Wordcloud) :
  NewWordcloud P wl o = Ok w ->
  grid w = foldl Add (newSpatialHashMap (inject_Z (Width o))
                        (inject_Z (Height o)) (Height o ÷ 10)) (Mask o)
  /\ inserted (grid w) = Mask o
  /\ dcOps (dc w)
     = OpClear (BackgroundColor o)
       :: (if Debug o then (fun b => OpStrokeRect b black) <$> Mask o else [])
  /\ PlacedCount (sortedWordList w) = 0%nat
  /\ fonts w = ∅
  /\ Word (sortedWordList w) = Word wl
  /\ Count (sortedWordList w) = Count wl
  /\ ColorIndex (sortedWordList w) = ColorIndex wl
  /\ length (FontSize (sortedWordList w)) = length (Word wl)
  /\ length (Rect (sortedWordList w)) = length (Word wl)
  /\ width w = inject_Z (Width o) /\ height w = inject_Z (Height o)
  /\ randomPlacement w = RandomPlacement o /\ opts w = o
  /\ randDraws w = 0%nat.
Proof. exact (initial_engine P wl o w). Qed.

Lemma NewWordcloud_initial_witness :
  inserted (grid (Fixture.engine Fixture.fourWords Fixture.maskedOptions))
  = Mask Fixture.maskedOptions
  /\ PlacedCount
       (sortedWordList (Fixture.engine Fixture.fourWords Fixture.maskedOptions))
     = 0%nat.
Proof.
  assert (NewWordcloud Fixture.platform (fromEntries Fixture.fourWords)
            Fixture.maskedOptions
          = Ok (Fixture.engine Fixture.fourWords Fixture.maskedOptions)) as Hnew
    by (vm_compute; reflexivity).
  destruct (NewWordcloud_initial _ _ _ _ Hnew) as (_ & Hins & _ & Hcount & _).
  split; [exact Hins | exact Hcount].
Defined.

Lemma setFont_outcome (P : Platform) (w : Wordcloud) (fontSize : Q) :
  match setFont P w fontSize with
  | Ok w' =>
      dcFace (dc w') = Some (Qround fontSize)
      /\ fonts w' = {[Qround fontSize]} ∪ fonts w
      /\ (size (fonts w') <= Nat.max (size (fonts w)) 101)%nat
      /\ (Qround fontSize ∉ fonts w ->
          LoadFontFace P (FontFile (opts w)) (Qround fontSize) = true
          /\ (size (fonts w) <= 100)%nat
          /\ size (fonts w') = S (size (fonts w)))
      /\ sameIndex w w'
  | Panic p =>
      (Qround fontSize ∉ fonts w)
      /\ ((p = FontLoadFailed
           /\ LoadFontFace P (FontFile (opts w)) (Qround fontSize) = false)
          \/ (p = TooManyFontSizes
              /\ LoadFontFace P (FontFile (opts w)) (Qround fontSize) = true
              /\ (100 < size (fonts w))%nat))
  | Blocked => False
  end.
Proof.
  unfold setFont.
  destruct (decide (Qround fontSize ∈ fonts w)) as [Hin | Hnew]; simpl.
  - split; [done |].
    assert ({[Qround fontSize]} ∪ fonts w = fonts w) as Heq.
    { apply subseteq_union_1_L. by apply singleton_subseteq_l. }
    rewrite Heq. split; [done |]. split; [lia |]. split; [done |].
    by repeat split.
  - destruct (LoadFontFace P (FontFile (opts w)) (Qround fontSize)) eqn:Hload;
      simpl.
    + destruct (decide (100 < size (fonts w))%nat) as [Hfull | Hroom]; simpl.
      * split; [done |]. right. done.
      * assert (size ({[Qround fontSize]} ∪ fonts w) = S (size (fonts w)))
          as Hsize.
        { rewrite size_union by (by apply disjoint_singleton_l).
          by rewrite size_singleton. }
        split; [done |]. split; [done |]. split; [lia |].
        split; [intros _; split; [done |]; split; [lia | done] |].
        by repeat split.
    + split; [done |]. left. done.
Qed.

(** X12: the font cache of [setFont].  A size is rounded to the nearest
    integer (halves away from zero) and that is the face selected.  A
    cached size is reused without loading anything and cannot fail.  A new
    size is loaded and cached; it panics when the load fails, and, after a
    successful load, when the cache already holds more than 100 sizes.
    Hence the cache only grows and never holds more than 101 sizes unless
    it already did.  The index, the words and the ring table are not
    touched. *)
Theorem setFont_cache (P : Platform) (w : Wordcloud) (fontSize : Q) :
  match setFont P w fontSize with
  | Ok w' =>
      dcFace (dc w') = Some (Qround fontSize)
      /\ fonts w' = {[Qround fontSize]} ∪ fonts w
      /\ (size (fonts w') <= Nat.max (size (fonts w)) 101)%nat
      /\ (Qround fontSize ∉ fonts w ->
          LoadFontFace P (FontFile (opts w)) (Qround fontSize) = true
          /\ (size (fonts w) <= 100)%nat
          /\ size (fonts w') = S (size (fonts w)))
      /\ sameIndex w w'
  | Panic p =>
      (Qround fontSize ∉ fonts w)
      /\ ((p = FontLoadFailed
           /\ LoadFontFace P (FontFile (opts w)) (Qround fontSize) = false)
          \/ (p = TooManyFontSizes
              /\ LoadFontFace P (FontFile (opts w)) (Qround fontSize) = true
              /\ (100 < size (fonts w))%nat))
  | Blocked => False
  end.
Proof. exact (setFont_outcome P w fontSize). Qed.

Section Keeping.

Context (P : Platform).

Lemma nextPos_fonts w width height w' v :
  nextPos P w width height = Ok (w', v) ->
  fonts w' = fonts w /\ (randDraws w <= randDraws w')%nat.
Proof.
  unfold nextPos. destruct (randomPlacement w).
  - unfold nextRandom. intros H. apply bind_Ok_inv in H as (o & Ho & H).
    injection H as <- <-. split; [done |]. simpl.
    assert (maxTries - 0 <= Z.of_nat (Z.to_nat maxTries))%Z as Hbudget.
    { rewrite Z2Nat.id; unfold maxTries; lia. }
    assert (0 <= 0 <= maxTries)%Z as Hstart by (unfold maxTries; lia).
    revert Ho Hbudget. generalize (Z.to_nat maxTries). intros budget Ho Hbudget.
    destruct (nextRandomLoop_spec P w width height budget 0%Z 0 0 (randDraws w)
                o Hstart Hbudget Ho) as (_ & -> & _).
    lia.
  - destruct (aggregate _ _ _); [| done]. intros H. by injection H as <- <-.
Qed.

(** The colour and the font [Place] selects before it searches. *)
Lemma Place_font w idx w' b :
  Place P w idx = Ok (w', b) ->
  exists ci c fs w1,
    ColorIndex (sortedWordList w) !! idx = Some ci
    /\ Colors (opts w) <> []
    /\ Colors (opts w) !! Z.to_nat (ci `rem` Z.of_nat (length (Colors (opts w))))
       = Some c
    /\ FontSize (sortedWordList w) !! idx = Some fs
    /\ setFont P (withDc w (SetColor (dc w) c)) fs = Ok w1
    /\ fonts w' = fonts w1
    /\ (randDraws w <= randDraws w')%nat.
Proof.
  unfold Place. intros H.
  apply bind_Ok_inv in H as (word & Hword & H).
  apply bind_Ok_inv in H as (ci & Hci & H). apply index_Ok_inv in Hci.
  apply bind_Ok_inv in H as (k & Hk & H).
  destruct (decide (length (Colors (opts w)) = 0%nat)) as [| Hne]; [done |].
  injection Hk as <-.
  apply bind_Ok_inv in H as (c & Hc & H). apply index_Ok_inv in Hc.
  apply bind_Ok_inv in H as (fs & Hfs & H). apply index_Ok_inv in Hfs.
  apply bind_Ok_inv in H as (w1 & Hfont & H).
  exists ci, c, fs, w1. split; [done |].
  split; [intros Hnil; by rewrite Hnil in Hne |].
  split; [done |]. split; [done |]. split; [done |].
  assert (randDraws w1 = randDraws w) as Hd1.
  { unfold setFont in Hfont. apply bind_Ok_inv in Hfont as (w0 & H0 & Hfont).
    injection Hfont as <-. simpl.
    destruct (decide _); [by injection H0 as <- |].
    destruct (negb _); [done |].
    destruct (decide _); [done |]. by injection H0 as <-. }
  destruct (MeasureString P (dcFace (dc w1)) word) as [wd ht].
  apply bind_Ok_inv in H as ([w2 [[x y] space]] & Hpos & H).
  apply nextPos_fonts in Hpos as [Hf Hd]. rewrite <- Hf, <- Hd1.
  destruct space; simpl in H.
  - apply bind_Ok_inv in H as (pos & _ & H).
    apply bind_Ok_inv in H as (rect & _ & H).
    destruct (Qltb 40 (ht + 5)).
    + destruct (addPrecise _ _ _ _) as [dc' g]. by injection H as <- <-.
    + by injection H as <- <-.
  - apply bind_Ok_inv in H as (pos & _ & H).
    apply bind_Ok_inv in H as (rect & _ & H).
    by injection H as <- <-.
Qed.

(** What one call of [Place] keeps. *)
Lemma Place_keeps w idx w' b :
  Place P w idx = Ok (w', b) ->
  sameTable w w'
  /\ fonts w ⊆ fonts w'
  /\ (size (fonts w') <= Nat.max (size (fonts w)) 101)%nat
  /\ length (Pos (sortedWordList w')) = length (Pos (sortedWordList w))
  /\ length (Rect (sortedWordList w')) = length (Rect (sortedWordList w))
  /\ Word (sortedWordList w') = Word (sortedWordList w)
  /\ Count (sortedWordList w') = Count (sortedWordList w)
  /\ ColorIndex (sortedWordList w') = ColorIndex (sortedWordList w)
  /\ FontSize (sortedWordList w') = FontSize (sortedWordList w)
  /\ inserted (grid w) `prefix_of` inserted (grid w')
  /\ (randDraws w <= randDraws w')%nat.
Proof.
  intros H.
  split; [by eapply Place_sameTable |].
  destruct (Place_font _ _ _ _ H)
    as (ci & c & fs & w1 & _ & _ & _ & _ & Hfont & -> & Hdraws).
  pose proof (setFont_outcome P (withDc w (SetColor (dc w) c)) fs) as Hcache.
  rewrite Hfont in Hcache. destruct Hcache as (_ & Hunion & Hsize & _).
  simpl in Hunion, Hsize.
  split; [rewrite Hunion; apply union_subseteq_r |]. split; [done |].
  destruct (Place_inv P _ _ _ _ H)
    as (word & w1' & wd & ht & w2 & x & y & _ & (_ & Hg1 & Hw1) & _ & Hpos
        & _ & _ & Hw').
  apply nextPos_sameIndex in Hpos as [(_ & Hg2 & Hw2) _].
  rewrite Hw1 in Hw2. rewrite Hg1 in Hg2.
  assert (sortedWordList w' =
          setPosRect (sortedWordList w2)
            (Pos (sortedWordList w')) (Rect (sortedWordList w'))
          /\ length (Pos (sortedWordList w')) = length (Pos (sortedWordList w2))
          /\ length (Rect (sortedWordList w')) = length (Rect (sortedWordList w2))
          /\ inserted (grid w2) `prefix_of` inserted (grid w')) as (Hl & Hp & Hr & Hi).
  { destruct b.
    - destruct Hw' as (Hg & Hl & _). rewrite Hl, Hg, inserted_foldl_Add. simpl.
      rewrite !length_insert. split; [done |]. split; [done |].
      split; [done |]. by apply prefix_app_r.
    - subst w'. simpl. rewrite !length_insert. done. }
  rewrite Hp, Hr, Hw2. rewrite Hg2 in Hi.
  split; [done |]. split; [done |].
  rewrite Hl. simpl. rewrite Hw2. repeat split; done.
Qed.

End Keeping.

Lemma engine_keeps (P : Platform) (w : Wordcloud) :
  engineState P w ->
  increasing (radii w)
  /\ width w = inject_Z (Width (opts w))
  /\ height w = inject_Z (Height (opts w))
  /\ randomPlacement w = RandomPlacement (opts w)
  /\ length (Pos (sortedWordList w)) = Length (sortedWordList w)
  /\ length (Rect (sortedWordList w)) = Length (sortedWordList w)
  /\ length (FontSize (sortedWordList w)) = Length (sortedWordList w)
  /\ (size (fonts w) <= 101)%nat
  /\ Mask (opts w) `prefix_of` inserted (grid w).
Proof.
  induction 1 as [wl o w Hnew | w idx w' b Hstate IH Hplace].
  - destruct (ring_table _ _ _ _ Hnew) as (_ & _ & Hinc).
    pose proof (NewWordcloud_positions P _ _ _ Hnew) as Hpos.
    destruct (initial_engine _ _ _ _ Hnew)
      as (_ & Hins & _ & _ & Hfonts & Hword & _ & _ & Hfs & Hrect & Hw & Hh
          & Hmode & Hopts & _).
    unfold Length. rewrite Hopts, Hword, Hins, Hfonts, Hpos, length_replicate.
    unfold Length. rewrite Hword, size_empty.
    repeat split; try done. lia.
  - destruct IH as (Hinc & Hw & Hh & Hmode & Hpos & Hrect & Hfs & Hfonts & Hmask).
    destruct (Place_keeps P _ _ _ _ Hplace)
      as ((Hr & _ & Hw' & Hh' & Ho' & Hm') & _ & Hsize & Hp' & Hr' & Hword & _
          & _ & Hfs' & Hins & _).
    unfold Length in *.
    rewrite Hr, Hw', Hh', Ho', Hm', Hp', Hr', Hword, Hfs'.
    repeat split; try done; [lia |].
    by etrans.
Qed.

(** X13: what every engine keeps, from [NewWordcloud] through any calls of
    [Place].  The radii stay strictly increasing; canvas size, options and
    placement mode stay those of construction; the three result columns
    keep the length of the word list; the font cache holds at most 101
    sizes; and the index is append-only: it starts with the mask
    rectangles, in mask order, and nothing inserted is ever removed or
    reordered. *)
Theorem engineState_keeps (P : Platform) (w : Wordcloud) :
  engineState P w ->
  increasing (radii w)
  /\ width w = inject_Z (Width (opts w))
  /\ height w = inject_Z (Height (opts w))
  /\ randomPlacement w = RandomPlacement (opts w)
  /\ length (Pos (sortedWordList w)) = Length (sortedWordList w)
  /\ length (Rect (sortedWordList w)) = Length (sortedWordList w)
  /\ length (FontSize (sortedWordList w)) = Length (sortedWordList w)
  /\ (size (fonts w) <= 101)%nat
  /\ Mask (opts w) `prefix_of` inserted (grid w).
Proof. exact (engine_keeps P w). Qed.

Lemma engineState_keeps_witness :
  increasing
    (radii (Fixture.placed
              (Fixture.engine Fixture.fourWords (Fixture.options 100 100 false))
              0))
  /\ (size (fonts (Fixture.placed
                     (Fixture.engine Fixture.fourWords
                        (Fixture.options 100 100 false)) 0)) <= 101)%nat.
Proof.
  assert (engineState Fixture.platform
            (Fixture.placed
               (Fixture.engine Fixture.fourWords (Fixture.options 100 100 false))
               0)) as Hstate.
  { apply (engine_place Fixture.platform
             (Fixture.engine Fixture.fourWords (Fixture.options 100 100 false))
             0 _ true).
    - apply (engine_new Fixture.platform (fromEntries Fixture.fourWords)
               (Fixture.options 100 100 false)).
      vm_compute. reflexivity.
    - vm_compute. reflexivity. }
  destruct (engineState_keeps _ _ Hstate) as (Hinc & _ & _ & _ & _ & _ & _ & Hf & _).
  split; [exact Hinc | exact Hf].
Defined.

(** ** The refined rectangles *)

Lemma stepsBelow_spec lo hi x :
  x ∈ stepsBelow lo hi <-> exists k, (0 <= k)%Z /\ x = (lo + 5 * k)%Z /\ (x < hi)%Z.
Proof.
  unfold stepsBelow. rewrite list_elem_of_fmap. split.
  - intros (k & -> & Hk). apply elem_of_seqZ in Hk.
    exists k. split; [lia |]. split; [done |].
    assert (k < (hi - lo + 4) `div` 5)%Z as Hlt by lia.
    revert Hlt. Z.div_mod_to_equations. lia.
  - intros (k & Hk & -> & Hlt). exists k. split; [done |].
    apply elem_of_seqZ. split; [lia |].
    revert Hlt. Z.div_mod_to_equations. lia.
Qed.

(** X14: [getPreciseBoundingBoxes].  The scan visits the pixels
    (i, j) with i = floor(Left) + 5a below trunc(Right) and
    j = trunc(Bottom) + 5c below trunc(Top); it returns one rectangle for
    each visited pixel that differs from the background colour, and
    nothing else.  Each rectangle is the 5 x 5 cell starting at the pixel,
    padded by 5 on every side: a square of side 15. *)
Theorem getPreciseBoundingBoxes_cells (P : Platform) (w : Wordcloud)
    (b pb : Box) :
  (pb ∈ getPreciseBoundingBoxes P w b <->
   exists a c : Z,
     (0 <= a)%Z /\ (0 <= c)%Z
     /\ (Qfloor (Left b) + 5 * a < Qtrunc (Right b))%Z
     /\ (Qtrunc (Bottom b) + 5 * c < Qtrunc (Top b))%Z
     /\ ImageAt P (dc w) (Qfloor (Left b) + 5 * a) (Qtrunc (Bottom b) + 5 * c)
        <> BackgroundColor (opts w)
     /\ pb = {| Top := inject_Z (Qtrunc (Bottom b) + 5 * c + 5) + 5;
                Left := inject_Z (Qfloor (Left b) + 5 * a) - 5;
                Right := inject_Z (Qfloor (Left b) + 5 * a + 5) + 5;
                Bottom := inject_Z (Qtrunc (Bottom b) + 5 * c) - 5 |})
  /\ (pb ∈ getPreciseBoundingBoxes P w b ->
      Right pb - Left pb == 15 /\ Top pb - Bottom pb == 15).
Proof.
  assert (pb ∈ getPreciseBoundingBoxes P w b <->
   exists a c : Z,
     (0 <= a)%Z /\ (0 <= c)%Z
     /\ (Qfloor (Left b) + 5 * a < Qtrunc (Right b))%Z
     /\ (Qtrunc (Bottom b) + 5 * c < Qtrunc (Top b))%Z
     /\ ImageAt P (dc w) (Qfloor (Left b) + 5 * a) (Qtrunc (Bottom b) + 5 * c)
        <> BackgroundColor (opts w)
     /\ pb = {| Top := inject_Z (Qtrunc (Bottom b) + 5 * c + 5) + 5;
                Left := inject_Z (Qfloor (Left b) + 5 * a) - 5;
                Right := inject_Z (Qfloor (Left b) + 5 * a + 5) + 5;
                Bottom := inject_Z (Qtrunc (Bottom b) + 5 * c) - 5 |}) as Hiff.
  { unfold getPreciseBoundingBoxes. rewrite list_elem_of_bind. split.
    - intros (i & Hpb & Hi). apply list_elem_of_bind in Hpb as (j & Hpb & Hj).
      apply stepsBelow_spec in Hi as (a & Ha & -> & Hlt).
      apply stepsBelow_spec in Hj as (c & Hc & -> & Hlt').
      destruct (decide _) as [Hink | _]; [| by apply elem_of_nil in Hpb].
      apply list_elem_of_singleton in Hpb as ->.
      exists a, c. done.
    - intros (a & c & Ha & Hc & Hlt & Hlt' & Hink & ->).
      exists (Qfloor (Left b) + 5 * a)%Z. split.
      + apply list_elem_of_bind. exists (Qtrunc (Bottom b) + 5 * c)%Z. split.
        * destruct (decide _) as [_ | Hno]; [| done].
          by apply list_elem_of_singleton.
        * apply stepsBelow_spec. exists c. done.
      + apply stepsBelow_spec. exists a. done. }
  split; [exact Hiff |].
  intros Hpb. apply Hiff in Hpb as (a & c & _ & _ & _ & _ & _ & ->). simpl.
  rewrite !inject_Z_plus. split; ring.
Qed.

(** ** The answer does not depend on the schedule *)

Section Schedule.

Context (w : Wordcloud) (width height : Q).

Lemma testRadiusLoop_any_radius points x y r r' :
  failed (testRadiusLoop w points x y r width height)
  = failed (testRadiusLoop w points x y r' width height)
  /\ resx (testRadiusLoop w points x y r width height)
     = resx (testRadiusLoop w points x y r' width height)
  /\ resy (testRadiusLoop w points x y r width height)
     = resy (testRadiusLoop w points x y r' width height).
Proof.
  revert x y. induction points as [| p ps IH]; intros x y; simpl; [done |].
  destruct (fits _ _ _); simpl; [| apply IH].
  destruct (colliding _ _); simpl; [apply IH | done].
Qed.

Lemma ringResult_key_eq r r' :
  r == r' ->
  failed (ringResult w width height r) = failed (ringResult w width height r')
  /\ resx (ringResult w width height r) = resx (ringResult w width height r')
  /\ resy (ringResult w width height r) = resy (ringResult w width height r').
Proof.
  intros H. unfold ringResult, testRadius.
  rewrite (positions_key_eq w r r' H). apply testRadiusLoop_any_radius.
Qed.

Lemma searchResult_skip before rest :
  (forall r, r ∈ before -> failed (ringResult w width height r) = true) ->
  searchResult w width height (before ++ rest) = searchResult w width height rest.
Proof.
  induction before as [| r before IH]; intros H; simpl; [done |].
  rewrite (H r) by (apply elem_of_cons; by left).
  apply IH. intros r' Hr'. apply H. apply elem_of_cons. by right.
Qed.

Lemma scan_skip before rest t :
  (forall r, r ∈ before -> isDone t r = true /\ failed (resultOf t r) = true) ->
  scan (before ++ rest) t = scan rest t.
Proof.
  induction before as [| r before IH]; intros H; simpl; [done |].
  destruct (H r) as [-> ->]; [apply elem_of_cons; by left |]. simpl.
  apply IH. intros r' Hr'. apply H. apply elem_of_cons. by right.
Qed.

(** The verdict of the inner loop agrees with the ring table whenever the
    bookkeeping holds ring results only. *)
Lemma answer_is_searchResult seen t v :
  booked seen t ->
  (forall d, d ∈ seen -> exists r, r ∈ radii w /\ d = ringResult w width height r) ->
  answer w (scan (radii w) t) = Some v ->
  v = searchResult w width height (radii w).
Proof.
  intros Hbooked Hseen Hans.
  assert (forall r, isDone t r = true ->
            failed (resultOf t r) = failed (ringResult w width height r)
            /\ resx (resultOf t r) = resx (ringResult w width height r)
            /\ resy (resultOf t r) = resy (ringResult w width height r)) as Hres.
  { intros r Hd. destruct (Hbooked r Hd) as (d & Hin & Hrad & ->).
    destruct (Hseen d Hin) as (r0 & _ & ->).
    rewrite ringResult_radius in Hrad. by apply ringResult_key_eq. }
  destruct (scan (radii w) t) eqn:Hscan; simpl in Hans; [| | done].
  - injection Hans as <-.
    destruct (scan_found _ _ _ _ Hscan)
      as (before & r & after & -> & Hbefore & Hdone & Hok & -> & ->).
    destruct (Hres r Hdone) as (Hf & Hx & Hy).
    rewrite searchResult_skip.
    + simpl. rewrite <- Hf, Hok, Hx, Hy. done.
    + intros r' Hr'. destruct (Hbefore r' Hr') as [Hd' Hf'].
      destruct (Hres r' Hd') as (<- & _). done.
  - injection Hans as <-.
    rewrite <- (app_nil_r (radii w)). rewrite searchResult_skip; [done |].
    intros r Hr. destruct (proj1 (scan_exhausted _ _) Hscan r Hr) as [Hd Hf].
    destruct (Hres r Hd) as (<- & _). done.
Qed.

(** The rings reporting in table order: the aggregator answers, with the
    answer read off the ring table. *)
Lemma aggregate_in_order before :
  forall after t,
    radii w = before ++ after ->
    increasing (radii w) ->
    after <> [] ->
    (forall r, r ∈ before ->
       isDone t r = true /\ failed (resultOf t r) = true) ->
    (forall r, r ∈ after -> isDone t r = false) ->
    (forall r, r ∈ before -> failed (ringResult w width height r) = true) ->
    aggregate w (map (ringResult w width height) after) t
    = Some (searchResult w width height (radii w)).
Proof.
  intros after. revert before.
  induction after as [| r after IH]; intros before t Hsplit Hinc Hne Hbefore Hafter Hfailed;
    [done |].
  simpl.
  assert (forall r', r' ∈ before \/ r' ∈ after -> Qeq_bool r r' = false) as Hother.
  { intros r' Hr'. apply not_true_iff_false. intros E. apply Qeq_bool_iff in E.
    assert (exists i j, i <> j /\ radii w !! i = Some r /\ radii w !! j = Some r')
      as (i & j & Hij & Hi & Hj).
    { rewrite Hsplit. destruct Hr' as [Hr' | Hr'];
        apply list_elem_of_lookup_1 in Hr' as [k Hk].
      - exists (length before), k. split; [apply lookup_lt_Some in Hk; lia |].
        split; [by rewrite list_lookup_middle | by apply lookup_app_l_Some].
      - exists (length before), (length before + S k)%nat. split; [lia |].
        split; [by rewrite list_lookup_middle |].
        rewrite lookup_app_r by lia.
        replace (length before + S k - length before)%nat with (S k) by lia.
        done. }
    destruct (Nat.lt_total i j) as [Hlt | [-> | Hlt]]; [| done |].
    - pose proof (Hinc i j r r' Hlt Hi Hj). lra.
    - pose proof (Hinc j i r' r Hlt Hj Hi). lra. }
  set (t' := record (ringResult w width height r) t).
  assert (isDone t' r = true /\ resultOf t' r = ringResult w width height r)
    as [Hdone Hres].
  { unfold t'. rewrite isDone_record, resultOf_record, ringResult_radius.
    assert (Qeq_bool r r = true) as -> by (by apply Qeq_bool_iff). done. }
  assert (forall r', r' ∈ before \/ r' ∈ after ->
            isDone t' r' = isDone t r' /\ resultOf t' r' = resultOf t r')
    as Hkeep.
  { intros r' Hr'. unfold t'.
    rewrite isDone_record, resultOf_record, ringResult_radius.
    by rewrite (Hother r' Hr'). }
  assert (forall r', r' ∈ before ->
            isDone t' r' = true /\ failed (resultOf t' r') = true) as Hbefore'.
  { intros r' Hr'. destruct (Hkeep r' (or_introl Hr')) as [-> ->].
    by apply Hbefore. }
  rewrite Hsplit at 1. rewrite (scan_skip before (r :: after) t' Hbefore').
  simpl. rewrite Hdone, Hres. simpl.
  destruct (failed (ringResult w width height r)) eqn:Hf; simpl.
  - destruct after as [| r2 after'].
    + simpl. rewrite Hsplit, searchResult_skip by done. simpl. by rewrite Hf.
    + assert (isDone t' r2 = false) as Hr2.
      { destruct (Hkeep r2) as [-> _];
          [right; apply elem_of_cons; by left |].
        apply Hafter. apply elem_of_cons. right. apply elem_of_cons. by left. }
      simpl. rewrite Hr2. simpl.
      apply (IH (before ++ [r])).
      * by rewrite <- app_assoc.
      * done.
      * done.
      * intros r' Hr'. apply elem_of_app in Hr' as [Hr' | Hr'].
        -- by apply Hbefore'.
        -- apply list_elem_of_singleton in Hr' as ->. by rewrite Hdone, Hres.
      * intros r' Hr'. destruct (Hkeep r' (or_intror Hr')) as [-> _].
        apply Hafter. apply elem_of_cons. by right.
      * intros r' Hr'. apply elem_of_app in Hr' as [Hr' | Hr'].
        -- by apply Hfailed.
        -- by apply list_elem_of_singleton in Hr' as ->.
  - rewrite Hsplit, searchResult_skip by done. simpl. by rewrite Hf.
Qed.

End Schedule.

(** X15: the answer of the aggregator does not depend on the order in
    which the rings report.  Whatever results of rings of the table arrive
    in whatever order, an answer of the aggregator is the one read off the
    ring table: the first valid point of the first ring that has one, or
    failure with the canvas size.  And when the radii increase strictly
    and there is at least one ring, the rings reporting in table order do
    produce that answer. *)
Theorem aggregate_schedule_independent (w : Wordcloud) (width height : Q) :
  (forall arrivals v,
     (forall d, d ∈ arrivals ->
        exists r, r ∈ radii w /\ d = ringResult w width height r) ->
     aggregate w arrivals emptyTally = Some v ->
     v = searchResult w width height (radii w))
  /\ (increasing (radii w) -> radii w <> [] ->
      aggregate w (map (ringResult w width height) (radii w)) emptyTally
      = Some (searchResult w width height (radii w))).
Proof.
  split.
  - intros arrivals v Hrings Hagg.
    destruct (aggregate_answer w _ _ _ Hagg) as (n & _ & Hans & _).
    apply (answer_is_searchResult w width height (take n arrivals)
             (bookAll (take n arrivals) emptyTally)); [| | done].
    + exact (booked_bookAll (take n arrivals) [] emptyTally booked_empty).
    + intros d Hd. apply Hrings. apply elem_of_take in Hd as (i & Hd & _).
      by eapply list_elem_of_lookup_2.
  - intros Hinc Hne.
    apply (aggregate_in_order w width height []); try done.
    + intros r Hr. by apply elem_of_nil in Hr.
    + intros r Hr. by apply elem_of_nil in Hr.
Qed.

Lemma aggregate_schedule_independent_witness :
  aggregate
    (Fixture.engine Fixture.fourWords (Fixture.options 100 100 false))
    (map (ringResult
            (Fixture.engine Fixture.fourWords (Fixture.options 100 100 false))
            15 15)
       (reverse
          (radii (Fixture.engine Fixture.fourWords
                    (Fixture.options 100 100 false)))))
    emptyTally
  = Some (searchResult
            (Fixture.engine Fixture.fourWords (Fixture.options 100 100 false))
            15 15
            (radii (Fixture.engine Fixture.fourWords
                      (Fixture.options 100 100 false)))).
Proof.
  assert (aggregate
            (Fixture.engine Fixture.fourWords (Fixture.options 100 100 false))
            (map (ringResult
                    (Fixture.engine Fixture.fourWords
                       (Fixture.options 100 100 false)) 15 15)
               (reverse
                  (radii (Fixture.engine Fixture.fourWords
                            (Fixture.options 100 100 false)))))
            emptyTally
          = Some (51, 50, true)) as Hrun
    by (vm_compute; reflexivity).
  assert (forall d,
            d ∈ map (ringResult
                       (Fixture.engine Fixture.fourWords
                          (Fixture.options 100 100 false)) 15 15)
                  (reverse
                     (radii (Fixture.engine Fixture.fourWords
                               (Fixture.options 100 100 false)))) ->
            exists r,
              r ∈ radii (Fixture.engine Fixture.fourWords
                           (Fixture.options 100 100 false))
              /\ d = ringResult
                       (Fixture.engine Fixture.fourWords
                          (Fixture.options 100 100 false)) 15 15 r) as Hrings.
  { intros d Hd. apply list_elem_of_fmap in Hd as (r & -> & Hr).
    exists r. split; [| reflexivity]. by apply elem_of_reverse. }
  pose proof (proj1 (aggregate_schedule_independent _ 15 15) _ _ Hrings Hrun)
    as Heq.
  rewrite Hrun, <- Heq. reflexivity.
Defined.

(** ** The goroutines: joining the workers *)

Lemma liveCount_app ws k :
  liveCount (ws ++ [k]) = (liveCount ws + (if isLive k then 1 else 0))%nat.
Proof.
  induction ws as [| k' ws IH]; simpl.
  - destruct (isLive k); done.
  - rewrite IH. destruct (isLive k'); lia.
Qed.

Lemma liveCount_insert ws i k k' :
  ws !! i = Some k ->
  (liveCount (<[i := k']> ws) + (if isLive k then 1 else 0)
   = liveCount ws + (if isLive k' then 1 else 0))%nat.
Proof.
  revert i. induction ws as [| k0 ws IH]; intros i Hi; [done |].
  destruct i as [| i]; simpl in *.
  - injection Hi as ->. destruct (isLive k), (isLive k'); lia.
  - specialize (IH i Hi). destruct (isLive k0); lia.
Qed.

Lemma liveCount_zero ws :
  liveCount ws = 0%nat -> Forall (fun k => k = WStopped) ws.
Proof.
  induction ws as [| k ws IH]; simpl; [constructor |].
  destruct k; simpl; try done. intros H. constructor; [done | by apply IH].
Qed.

Section Join.

Context (P : Platform) (w : Wordcloud) (width height : Q).

(** An invariant of the start state that every step keeps holds in every
    state a schedule leads to. *)
Lemma run_invariant (I : search -> Prop) :
  (forall a s s', I s -> fire P w width height a s = Some s' -> I s') ->
  forall schedule s s',
    I s -> run P w width height schedule s = Some s' -> I s'.
Proof.
  intros Hstep. induction schedule as [| a rest IH]; intros s s' Hs Hrun.
  - simpl in Hrun. by injection Hrun as <-.
  - simpl in Hrun. destruct (fire P w width height a s) as [s1 |] eqn:Hfire;
      [| done].
    simpl in Hrun. apply (IH s1 s'); [| done]. by eapply Hstep.
Qed.

Lemma joinInv_start : joinInv P w (searchStart P).
Proof. by repeat split. Qed.

Lemma joinInv_step a s s' :
  joinInv P w s -> fire P w width height a s = Some s' -> joinInv P w s'.
Proof.
  intros (Hwg & Hlen & Hmain) Hfire.
  destruct a; simpl in Hfire.
  - (* the caller *)
    unfold stepMain in Hfire. destruct (main s) eqn:Hm.
    + destruct (randomPlacement w) eqn:Hmode.
      * destruct (nextRandom P w width height) as [[w' v] | |]; [| done | done].
        injection Hfire as <-. unfold joinInv. simpl.
        split; [done |]. split; [done |]. left. done.
      * injection Hfire as <-. unfold joinInv. simpl.
        split; [done |]. split; [done |]. rewrite Hmain. simpl.
        split; [done |]. split; [lia | done].
    + destruct Hmain as (Hi & Hle & Hmode).
      destruct (decide (i < NumCPU P)%nat).
      * injection Hfire as <-. unfold joinInv. simpl.
        rewrite liveCount_app, !length_app. simpl.
        repeat split; try done; lia.
      * injection Hfire as <-. unfold joinInv. simpl.
        repeat split; try done. lia.
    + injection Hfire as <-. unfold joinInv. simpl. done.
    + destruct (receive (aggCh s)) as [[d c] |]; [| done]. simpl in Hfire.
      destruct (answer w _); injection Hfire as <-; unfold joinInv; simpl;
        rewrite ?Hm; done.
    + destruct (send (stopSendingCh s) ()) as [c |]; [| done].
      injection Hfire as <-. unfold joinInv. simpl. done.
    + destruct (stopChannels s !! i) as [ch |].
      * destruct (send ch ()) as [c |]; [| done].
        injection Hfire as <-. unfold joinInv. simpl.
        rewrite length_insert. done.
      * injection Hfire as <-. unfold joinInv. simpl. done.
    + injection Hfire as <-. unfold joinInv. simpl. done.
    + destruct (decide (wg s = 0%nat)) as [Hzero |]; [| done].
      injection Hfire as <-. unfold joinInv. simpl.
      split; [done |]. split; [done |]. right. destruct Hmain. done.
    + done.
  - (* a worker takes a ring *)
    destruct (workers s !! i) as [[] |] eqn:Hk; try done.
    destruct (receive (workCh s)) as [[d c] |]; [| done].
    injection Hfire as <-. unfold joinInv. simpl.
    pose proof (liveCount_insert _ _ _ (WTesting d) Hk) as Hlive. simpl in Hlive.
    rewrite length_insert. split; [lia |]. split; [done |].
    destruct (main s); try done.
    + by rewrite Hmain in Hk.
    + destruct Hmain as [[? Hnil] | (? & ? & ?)];
        [by rewrite Hnil in Hk | right; done].
  - (* a worker finds the work channel closed *)
    destruct (workers s !! i) as [[] |] eqn:Hk; try done.
    destruct (buffer (workCh s)); [| done].
    destruct (closed (workCh s)); [| done].
    injection Hfire as <-. unfold joinInv. simpl.
    pose proof (liveCount_insert _ _ _ WReturning Hk) as Hlive. simpl in Hlive.
    rewrite length_insert. split; [lia |]. split; [done |].
    destruct (main s); try done.
    + by rewrite Hmain in Hk.
    + destruct Hmain as [[? Hnil] | (? & ? & ?)];
        [by rewrite Hnil in Hk | right; done].
  - (* a worker takes its stop signal *)
    destruct (workers s !! i) as [[] |] eqn:Hk; try done.
    destruct (stopChannels s !! i) as [ch |]; [| done].
    destruct (receive ch) as [[u c] |]; [| done].
    injection Hfire as <-. unfold joinInv. simpl.
    pose proof (liveCount_insert _ _ _ WReturning Hk) as Hlive. simpl in Hlive.
    rewrite !length_insert. split; [lia |]. split; [done |].
    destruct (main s); try done.
    + by rewrite Hmain in Hk.
    + destruct Hmain as [[? Hnil] | (? & ? & ?)];
        [by rewrite Hnil in Hk | right; done].
  - (* a worker tests its ring *)
    destruct (workers s !! i) as [[] |] eqn:Hk; try done.
    injection Hfire as <-. unfold joinInv. simpl.
    pose proof (liveCount_insert _ _ _
                  (WPosting (testRadius w (wdRadius d) (wdPositions d)
                               (wdWidth d) (wdHeight d))) Hk) as Hlive.
    simpl in Hlive.
    rewrite length_insert. split; [lia |]. split; [done |].
    destruct (main s); try done.
    + by rewrite Hmain in Hk.
    + destruct Hmain as [[? Hnil] | (? & ? & ?)];
        [by rewrite Hnil in Hk | right; done].
  - (* a worker posts its result *)
    destruct (workers s !! i) as [[] |] eqn:Hk; try done.
    destruct (send (aggCh s) r) as [c |]; [| done].
    injection Hfire as <-. unfold joinInv. simpl.
    pose proof (liveCount_insert _ _ _ WSelect Hk) as Hlive. simpl in Hlive.
    rewrite length_insert. split; [lia |]. split; [done |].
    destruct (main s); try done.
    + by rewrite Hmain in Hk.
    + destruct Hmain as [[? Hnil] | (? & ? & ?)];
        [by rewrite Hnil in Hk | right; done].
  - (* the deferred wg.Done of a worker *)
    destruct (workers s !! i) as [[] |] eqn:Hk; try done.
    injection Hfire as <-. unfold joinInv. simpl.
    pose proof (liveCount_insert _ _ _ WStopped Hk) as Hlive. simpl in Hlive.
    rewrite length_insert. split; [lia |]. split; [done |].
    destruct (main s); try done.
    + by rewrite Hmain in Hk.
    + destruct Hmain as [[? Hnil] | (? & ? & Hz)]; [by rewrite Hnil in Hk |].
      right. split; [done |]. split; [done |]. lia.
  - (* the posting goroutine is told to stop *)
    destruct (sender s) as [| [| r rest] |]; try done.
    destruct (receive (stopSendingCh s)) as [[u c] |]; [| done].
    injection Hfire as <-. unfold joinInv. simpl. done.
  - (* the posting goroutine posts a ring *)
    destruct (sender s) as [| [| r rest] |]; try done.
    destruct (send (workCh s) _) as [c |]; [| done].
    injection Hfire as <-. unfold joinInv. simpl. done.
  - (* the posting goroutine closes the work channel *)
    destruct (sender s) as [| [| r rest] |]; try done.
    injection Hfire as <-. unfold joinInv. simpl. done.
  - (* the purger drains a result *)
    destruct (purger s); try done.
    destruct (receive (aggCh s)) as [[d c] |]; [| done].
    injection Hfire as <-. unfold joinInv. simpl. done.
  - (* the purger leaves *)
    destruct (purger s); try done.
    destruct (buffer (aggCh s)); [| done].
    injection Hfire as <-. unfold joinInv. simpl. done.
Qed.

End Join.

(** X16: the join of [nextPos].  In every state any schedule of the
    goroutines can lead to, if the caller has returned then the wait group
    is at zero and every worker goroutine has run its deferred
    [wg.Done()]: none is left inside [testRadius] reading the index.  This
    holds for a return with success and for a return with failure alike.
    In the concurrent mode all [NumCPU] workers had been started; in the
    random mode none was. *)
Theorem nextPos_joins_workers (P : Platform) (w : Wordcloud) (width height : Q)
    (s : search) (v : Q * Q * bool) :
  reachable P w width height s ->
  main s = MReturned v ->
  Forall (fun k => k = WStopped) (workers s)
  /\ (forall i k, workers s !! i = Some k -> readsIndex k = false)
  /\ wg s = 0%nat
  /\ length (workers s) = (if randomPlacement w then 0 else NumCPU P)%nat.
Proof.
  intros [schedule Hrun] Hmain.
  pose proof (run_invariant P w width height (joinInv P w)
                (joinInv_step P w width height) schedule _ _
                (joinInv_start P w) Hrun) as (Hwg & _ & Hm).
  rewrite Hmain in Hm.
  assert (Forall (fun k => k = WStopped) (workers s)) as Hall.
  { destruct Hm as [[_ ->] | (_ & _ & Hzero)]; [constructor |].
    apply liveCount_zero. congruence. }
  split; [done |]. split.
  { intros i k Hk. rewrite Forall_lookup in Hall. by rewrite (Hall i k Hk). }
  destruct Hm as [[-> Hnil] | (-> & Hlen & Hzero)].
  - rewrite Hwg, Hnil. done.
  - done.
Qed.

Lemma nextPos_joins_workers_witness :
  reachable Fixture.platform
    (Fixture.engine Fixture.fourWords (Fixture.options 100 100 false)) 15 15
    (Fixture.finalState
       (Fixture.engine Fixture.fourWords (Fixture.options 100 100 false)))
  /\ main (Fixture.finalState
             (Fixture.engine Fixture.fourWords (Fixture.options 100 100 false)))
     = MReturned (51, 50, true)
  /\ Forall (fun k => k = WStopped)
       (workers
          (Fixture.finalState
             (Fixture.engine Fixture.fourWords (Fixture.options 100 100 false)))).
Proof.
  assert (reachable Fixture.platform
            (Fixture.engine Fixture.fourWords (Fixture.options 100 100 false))
            15 15
            (Fixture.finalState
               (Fixture.engine Fixture.fourWords
                  (Fixture.options 100 100 false)))) as Hreach.
  { exists Fixture.schedule. vm_compute. reflexivity. }
  assert (main (Fixture.finalState
                  (Fixture.engine Fixture.fourWords
                     (Fixture.options 100 100 false)))
          = MReturned (51, 50, true)) as Hmain
    by (vm_compute; reflexivity).
  split; [exact Hreach |]. split; [exact Hmain |].
  destruct (nextPos_joins_workers _ _ _ _ _ _ Hreach Hmain) as [Hall _].
  exact Hall.
Defined.

(** ** The goroutines: what the caller returns *)

Lemma receive_buffer {A} (c c' : chan A) (a : A) :
  receive c = Some (a, c') -> buffer c = a :: buffer c'.
Proof.
  unfold receive. destruct (buffer c) as [| a0 rest]; [done |].
  intros H. injection H as <- <-. done.
Qed.

Lemma send_buffer {A} (c c' : chan A) (a : A) :
  send c a = Some c' -> buffer c' = buffer c ++ [a].
Proof.
  unfold send. destruct (decide _); [| done]. intros H. by injection H as <-.
Qed.

Lemma bookAll_snoc seen d t :
  bookAll (seen ++ [d]) t = record d (bookAll seen t).
Proof. unfold bookAll. by rewrite foldl_app. Qed.

Section Results.

Context (P : Platform) (w : Wordcloud) (width height : Q).

Lemma resultInv_start : resultInv P w width height (searchStart P).
Proof.
  split.
  - repeat split; simpl; try done.
    + intros d Hd. by apply elem_of_nil in Hd.
    + intros d Hd. by apply elem_of_nil in Hd.
  - split; [by left |]. exists []. split; [done |]. split.
    + intros d Hd. by apply elem_of_nil in Hd.
    + done.
Qed.

Lemma inFlight_frame s s' :
  (forall d, d ∈ buffer (aggCh s') -> d ∈ buffer (aggCh s)) ->
  (forall d, d ∈ buffer (workCh s') -> d ∈ buffer (workCh s)) ->
  workers s' = workers s ->
  sender s' = sender s ->
  inFlight w width height s -> inFlight w width height s'.
Proof.
  intros Hagg Hwork Hworkers Hsender (H1 & H2 & H3 & H4).
  unfold inFlight. rewrite Hworkers, Hsender. repeat split; auto.
Qed.

Lemma settledInv_frame s s' :
  main s' = main s ->
  book s' = book s ->
  settledInv P w width height s -> settledInv P w width height s'.
Proof.
  intros Hmain Hbook H. unfold settledInv. by rewrite Hmain, Hbook.
Qed.

Lemma workers_insert_ok (ws : list workerPc) i k :
  (forall j k', ws !! j = Some k' -> workerOk w width height k') ->
  workerOk w width height k ->
  forall j k', <[i := k]> ws !! j = Some k' -> workerOk w width height k'.
Proof.
  intros Hws Hk j k' Hj. destruct (decide (i = j)) as [-> | Hne].
  - destruct (decide (j < length ws)%nat) as [Hlt | Hge].
    + rewrite list_lookup_insert_eq in Hj by done. by injection Hj as <-.
    + rewrite list_insert_ge in Hj by lia. by eapply Hws.
  - rewrite list_lookup_insert_ne in Hj by done. by eapply Hws.
Qed.

(** A settled caller keeps its answer. *)
Lemma settledInv_keep s s' v :
  settled (main s) = Some v ->
  settled (main s') = Some v ->
  (forall v', main s <> MReturned v') ->
  main s <> MEntry ->
  book s' = book s ->
  settledInv P w width height s -> settledInv P w width height s'.
Proof.
  intros Hs Hs' Hnr Hne Hbook (Hrandom & seen & Hseen & Hrings & Hans).
  split.
  - intros Hmode. destruct (Hrandom Hmode) as [E | (v' & w' & E & _)];
      [done | by destruct (Hnr v')].
  - exists seen. rewrite Hbook. split; [done |]. split; [done |].
    intros Hmode v0 Hv0. rewrite Hs' in Hv0. injection Hv0 as <-.
    by apply Hans.
Qed.

Lemma resultInv_step a s s' :
  resultInv P w width height s ->
  fire P w width height a s = Some s' ->
  resultInv P w width height s'.
Proof.
  intros [Hflight Hsettled] Hfire.
  destruct a; simpl in Hfire.
  - (* the caller *)
    unfold stepMain in Hfire. destruct (main s) eqn:Hm.
    + (* entry *)
      destruct (randomPlacement w) eqn:Hmode.
      * destruct (nextRandom P w width height) as [[w' v] | |] eqn:Hr;
          [| done | done].
        injection Hfire as <-. split.
        -- by apply (inFlight_frame s).
        -- destruct Hsettled as (_ & seen & Hseen & Hrings & _).
           split; [intros _; right; by exists v, w' |].
           exists seen. split; [done |]. split; [done |]. intros E.
           by rewrite Hmode in E.
      * injection Hfire as <-. split.
        -- by apply (inFlight_frame s).
        -- destruct Hsettled as (_ & seen & Hseen & Hrings & _).
           split; [intros E; by rewrite Hmode in E |].
           exists seen. split; [done |]. split; [done |]. done.
    + (* starting the workers *)
      destruct Hsettled as (Hrandom & seen & Hseen & Hrings & _).
      assert (randomPlacement w = false) as Hmode.
      { destruct (randomPlacement w); [| done].
        destruct Hrandom as [E | (v & w' & E & _)]; [done | | ];
          by rewrite Hm in E. }
      destruct (decide (i < NumCPU P)%nat).
      * injection Hfire as <-. split.
        -- destruct Hflight as (H1 & H2 & H3 & H4).
           repeat split; simpl; try done.
           intros j k Hj. apply lookup_app_Some in Hj as [Hj | [_ Hj]].
           ++ by eapply H3.
           ++ destruct (j - length (workers s))%nat; [| done].
              simpl in Hj. by injection Hj as <-.
        -- split; [intros E; by rewrite Hmode in E |].
           exists seen. done.
      * injection Hfire as <-. split.
        -- by apply (inFlight_frame s).
        -- split; [intros E; by rewrite Hmode in E |]. exists seen. done.
    + (* starting the posting goroutine *)
      destruct Hsettled as (Hrandom & seen & Hseen & Hrings & _).
      assert (randomPlacement w = false) as Hmode.
      { destruct (randomPlacement w); [| done].
        destruct Hrandom as [E | (v & w' & E & _)]; [done | | ];
          by rewrite Hm in E. }
      injection Hfire as <-. split.
      * destruct Hflight as (H1 & H2 & H3 & H4). repeat split; simpl; done.
      * split; [intros E; by rewrite Hmode in E |]. exists seen. done.
    + (* the aggregator books a result *)
      destruct Hsettled as (Hrandom & seen & Hseen & Hrings & _).
      assert (randomPlacement w = false) as Hmode.
      { destruct (randomPlacement w); [| done].
        destruct Hrandom as [E | (v & w' & E & _)]; [done | | ];
          by rewrite Hm in E. }
      destruct (receive (aggCh s)) as [[d c] |] eqn:Hrecv; [| done].
      simpl in Hfire. apply receive_buffer in Hrecv.
      destruct Hflight as (H1 & H2 & H3 & H4).
      assert (isRingResult w width height d) as Hd.
      { apply H1. rewrite Hrecv. by left. }
      assert (forall d', d' ∈ seen ++ [d] -> isRingResult w width height d')
        as Hrings'.
      { intros d' Hd'. apply elem_of_app in Hd' as [Hd' | Hd']; [by apply Hrings |].
        by apply list_elem_of_singleton in Hd' as ->. }
      assert (forall d', d' ∈ buffer c -> isRingResult w width height d') as H1'.
      { intros d' Hd'. apply H1. rewrite Hrecv. by right. }
      destruct (answer w (scan (radii w) (record d (book s)))) as [v |] eqn:Hans;
        injection Hfire as <-.
      * split; [repeat split; simpl; done |].
        split; [intros E; by rewrite Hmode in E |].
        exists (seen ++ [d]). simpl. rewrite bookAll_snoc, <- Hseen.
        split; [done |]. split; [done |].
        intros _ v0 Hv0. injection Hv0 as <-. split; [| done].
        by destruct seen.
      * split; [repeat split; simpl; done |].
        split; [intros E; by rewrite Hmode in E |].
        exists (seen ++ [d]). simpl. rewrite bookAll_snoc, <- Hseen.
        split; [done |]. split; [done |].
        intros _ v0 Hv0. by rewrite Hm in Hv0.
    + (* the deferred function: stop the posting goroutine *)
      destruct (send (stopSendingCh s) ()) as [c |]; [| done].
      injection Hfire as <-. split.
      * by apply (inFlight_frame s).
      * apply (settledInv_keep s _ v); simpl; rewrite ?Hm; done.
    + (* the deferred function: stop the workers *)
      destruct (stopChannels s !! i) as [ch |].
      * destruct (send ch ()) as [c |]; [| done].
        injection Hfire as <-. split.
        -- by apply (inFlight_frame s).
        -- apply (settledInv_keep s _ v); simpl; rewrite ?Hm; done.
      * injection Hfire as <-. split.
        -- by apply (inFlight_frame s).
        -- apply (settledInv_keep s _ v); simpl; rewrite ?Hm; done.
    + (* the deferred function: start the purger *)
      injection Hfire as <-. split.
      * by apply (inFlight_frame s).
      * apply (settledInv_keep s _ v); simpl; rewrite ?Hm; done.
    + (* the deferred function: wait for the workers *)
      destruct (decide (wg s = 0%nat)); [| done].
      injection Hfire as <-. split.
      * by apply (inFlight_frame s).
      * destruct Hsettled as (Hrandom & seen & Hseen & Hrings & Hans).
        assert (randomPlacement w = false) as Hmode.
        { destruct (randomPlacement w); [| done].
          destruct Hrandom as [E | (v' & w' & E & _)]; [done | | ];
            by rewrite Hm in E. }
        split; [intros E; by rewrite Hmode in E |].
        exists seen. simpl. split; [done |]. split; [done |].
        intros _ v0 Hv0. injection Hv0 as <-. apply Hans; [done |].
        by rewrite Hm.
    + done.
  - (* a worker takes a ring *)
    destruct (workers s !! i) as [[] |] eqn:Hk; try done.
    destruct (receive (workCh s)) as [[d c] |] eqn:Hrecv; [| done].
    injection Hfire as <-. apply receive_buffer in Hrecv.
    split; [| by apply (settledInv_frame s)].
    destruct Hflight as (H1 & H2 & H3 & H4). repeat split; simpl; try done.
    + intros d' Hd'. apply H2. rewrite Hrecv. by right.
    + apply workers_insert_ok; [done |]. simpl. apply H2. rewrite Hrecv. by left.
  - (* a worker finds the work channel closed *)
    destruct (workers s !! i) as [[] |] eqn:Hk; try done.
    destruct (buffer (workCh s)) eqn:Hbuf; [| done].
    destruct (closed (workCh s)); [| done].
    injection Hfire as <-.
    split; [| by apply (settledInv_frame s)].
    destruct Hflight as (H1 & H2 & H3 & H4). repeat split; simpl; try done.
    by apply workers_insert_ok.
  - (* a worker takes its stop signal *)
    destruct (workers s !! i) as [[] |] eqn:Hk; try done.
    destruct (stopChannels s !! i) as [ch |]; [| done].
    destruct (receive ch) as [[u c] |]; [| done].
    injection Hfire as <-.
    split; [| by apply (settledInv_frame s)].
    destruct Hflight as (H1 & H2 & H3 & H4). repeat split; simpl; try done.
    by apply workers_insert_ok.
  - (* a worker tests its ring *)
    destruct (workers s !! i) as [[] |] eqn:Hk; try done.
    injection Hfire as <-.
    split; [| by apply (settledInv_frame s)].
    destruct Hflight as (H1 & H2 & H3 & H4). repeat split; simpl; try done.
    apply workers_insert_ok; [done |]. simpl.
    destruct (H3 i _ Hk) as (r & Hr & ->). exists r. done.
  - (* a worker posts its result *)
    destruct (workers s !! i) as [[] |] eqn:Hk; try done.
    destruct (send (aggCh s) r) as [c |] eqn:Hsend; [| done].
    injection Hfire as <-. apply send_buffer in Hsend.
    split; [| by apply (settledInv_frame s)].
    destruct Hflight as (H1 & H2 & H3 & H4). repeat split; simpl; try done.
    + intros d Hd. rewrite Hsend in Hd. apply elem_of_app in Hd as [Hd | Hd];
        [by apply H1 |].
      apply list_elem_of_singleton in Hd as ->. exact (H3 i _ Hk).
    + by apply workers_insert_ok.
  - (* the deferred wg.Done of a worker *)
    destruct (workers s !! i) as [[] |] eqn:Hk; try done.
    injection Hfire as <-.
    split; [| by apply (settledInv_frame s)].
    destruct Hflight as (H1 & H2 & H3 & H4). repeat split; simpl; try done.
    by apply workers_insert_ok.
  - (* the posting goroutine is told to stop *)
    destruct (sender s) as [| [| r rest] |] eqn:Hsender; try done.
    destruct (receive (stopSendingCh s)) as [[u c] |]; [| done].
    injection Hfire as <-.
    split; [| by apply (settledInv_frame s)].
    destruct Hflight as (H1 & H2 & H3 & H4). repeat split; simpl; done.
  - (* the posting goroutine posts a ring *)
    destruct (sender s) as [| [| r rest] |] eqn:Hsender; try done.
    destruct (send (workCh s) _) as [c |] eqn:Hsend; [| done].
    injection Hfire as <-. apply send_buffer in Hsend.
    split; [| by apply (settledInv_frame s)].
    destruct Hflight as (H1 & H2 & H3 & H4). rewrite Hsender in H4.
    repeat split; simpl; try done.
    + intros d Hd. rewrite Hsend in Hd. apply elem_of_app in Hd as [Hd | Hd];
        [by apply H2 |].
      apply list_elem_of_singleton in Hd as ->. exists r. split; [| done].
      apply H4. by left.
    + intros r' Hr'. apply H4. by right.
  - (* the posting goroutine closes the work channel *)
    destruct (sender s) as [| [| r rest] |] eqn:Hsender; try done.
    injection Hfire as <-.
    split; [| by apply (settledInv_frame s)].
    destruct Hflight as (H1 & H2 & H3 & H4). repeat split; simpl; done.
  - (* the purger drains a result *)
    destruct (purger s); try done.
    destruct (receive (aggCh s)) as [[d c] |] eqn:Hrecv; [| done].
    injection Hfire as <-. apply receive_buffer in Hrecv.
    split; [| by apply (settledInv_frame s)].
    destruct Hflight as (H1 & H2 & H3 & H4). repeat split; simpl; try done.
    intros d' Hd'. apply H1. rewrite Hrecv. by right.
  - (* the purger leaves *)
    destruct (purger s); try done.
    destruct (buffer (aggCh s)); [| done].
    injection Hfire as <-.
    split; [| by apply (settledInv_frame s)].
    by apply (inFlight_frame s).
Qed.

End Results.

(** The rings of the example engine. *)
Lemma fixture_rings_increasing :
  increasing
    (radii (Fixture.engine Fixture.fourWords (Fixture.options 100 100 false))).
Proof.
  intros i j a b Hij Hi Hj.
  assert (i < 29)%nat by (apply lookup_lt_Some in Hi; exact Hi).
  assert (j < 29)%nat by (apply lookup_lt_Some in Hj; exact Hj).
  do 29 (destruct i as [| i];
         [do 29 (destruct j as [| j];
                 [first [lia
                        | vm_compute in Hi, Hj; injection Hi as <-;
                          injection Hj as <-; reflexivity] |]); lia |]).
  lia.
Qed.

(** X17: what the concurrent search returns under any schedule.  Whatever
    the interleaving of the caller, the workers, the posting goroutine and
    the purger, a call of [nextPos] that has returned has returned the
    value of the sequential reading [nextPos] of the search, provided the
    radii of the table increase strictly (as they do in every table
    [NewWordcloud] builds).  In the concurrent mode that value is the one
    read off the ring table: the first valid point of the first ring that
    has one, or failure with the canvas size; and the table is not
    empty. *)
Theorem nextPos_any_schedule (P : Platform) (w : Wordcloud) (width height : Q)
    (s : search) (v : Q * Q * bool) :
  reachable P w width height s ->
  main s = MReturned v ->
  increasing (radii w) ->
  (exists w', nextPos P w width height = Ok (w', v))
  /\ (randomPlacement w = false ->
      radii w <> [] /\ v = searchResult w width height (radii w)).
Proof.
  intros [schedule Hrun] Hmain Hinc.
  pose proof (run_invariant P w width height (resultInv P w width height)
                (resultInv_step P w width height) schedule _ _
                (resultInv_start P w width height) Hrun)
    as (_ & Hrandom & seen & Hseen & Hrings & Hans).
  destruct (randomPlacement w) eqn:Hmode.
  - split; [| done].
    destruct (Hrandom eq_refl) as [E | (v' & w' & E & Hr)];
      [by rewrite Hmain in E |].
    rewrite Hmain in E. injection E as <-.
    exists w'. unfold nextPos. by rewrite Hmode.
  - destruct (Hans eq_refl v) as [Hne Hv]; [by rewrite Hmain |].
    assert (radii w <> []) as Hradii.
    { destruct seen as [| d seen']; [done |].
      destruct (Hrings d) as (r & Hr & _); [by left |].
      intros E. rewrite E in Hr. by apply elem_of_nil in Hr. }
    assert (v = searchResult w width height (radii w)) as Hv'.
    { apply (answer_is_searchResult w width height seen (book s)); [| done | done].
      rewrite Hseen. exact (booked_bookAll seen [] emptyTally booked_empty). }
    split; [| done].
    exists w. unfold nextPos. rewrite Hmode.
    rewrite (aggregate_in_order w width height [] (radii w) emptyTally);
      try done.
    + by rewrite Hv'.
    + intros r Hr. by apply elem_of_nil in Hr.
    + intros r Hr. by apply elem_of_nil in Hr.
Qed.

Lemma nextPos_any_schedule_witness :
  exists w',
    nextPos Fixture.platform
      (Fixture.engine Fixture.fourWords (Fixture.options 100 100 false)) 15 15
    = Ok (w', (51, 50, true)).
Proof.
  assert (reachable Fixture.platform
            (Fixture.engine Fixture.fourWords (Fixture.options 100 100 false))
            15 15
            (Fixture.finalState
               (Fixture.engine Fixture.fourWords
                  (Fixture.options 100 100 false)))) as Hreach.
  { exists Fixture.schedule. vm_compute. reflexivity. }
  assert (main (Fixture.finalState
                  (Fixture.engine Fixture.fourWords
                     (Fixture.options 100 100 false)))
          = MReturned (51, 50, true)) as Hmain
    by (vm_compute; reflexivity).
  pose proof fixture_rings_increasing as Hinc.
  exact (proj1 (nextPos_any_schedule _ _ _ _ _ _ Hreach Hmain Hinc)).
Defined.

(** X18: a table without rings.  In the concurrent mode, with no ring in
    the table, no schedule of the goroutines ever makes the caller leave
    the loop over the results, let alone return: no work is posted, no
    result arrives, and the result channel is never closed.  The
    sequential reading [nextPos] is blocked accordingly. *)
Theorem nextPos_without_rings_blocks (P : Platform) (w : Wordcloud)
    (width height : Q) :
  randomPlacement w = false ->
  radii w = [] ->
  nextPos P w width height = Blocked
  /\ forall s, reachable P w width height s ->
       settled (main s) = None /\ buffer (aggCh s) = [].
Proof.
  intros Hmode Hradii. split.
  - unfold nextPos. by rewrite Hmode, Hradii.
  - intros s [schedule Hrun].
    pose proof (run_invariant P w width height (resultInv P w width height)
                  (resultInv_step P w width height) schedule _ _
                  (resultInv_start P w width height) Hrun)
      as ((Hagg & _) & _ & seen & Hseen & Hrings & Hans).
    split.
    + destruct (settled (main s)) as [v |] eqn:Hv; [| done].
      destruct (Hans Hmode v eq_refl) as [Hne _].
      destruct seen as [| d seen']; [done |].
      destruct (Hrings d) as (r & Hr & _); [by left |].
      rewrite Hradii in Hr. by apply elem_of_nil in Hr.
    + destruct (buffer (aggCh s)) as [| d rest]; [done |].
      destruct (Hagg d) as (r & Hr & _); [by left |].
      rewrite Hradii in Hr. by apply elem_of_nil in Hr.
Qed.

Lemma nextPos_without_rings_blocks_witness :
  NewWordcloud Fixture.platform (fromEntries Fixture.fourWords)
    (Fixture.options 1 0 false)
  = Ok (Fixture.engine Fixture.fourWords (Fixture.options 1 0 false))
  /\ nextPos Fixture.platform
       (Fixture.engine Fixture.fourWords (Fixture.options 1 0 false)) 15 15
     = Blocked.
Proof.
  split; [vm_compute; reflexivity |].
  assert (randomPlacement
            (Fixture.engine Fixture.fourWords (Fixture.options 1 0 false))
          = false) as Hmode by (vm_compute; reflexivity).
  assert (radii (Fixture.engine Fixture.fourWords (Fixture.options 1 0 false))
          = []) as Hradii by (vm_compute; reflexivity).
  exact (proj1 (nextPos_without_rings_blocks Fixture.platform _ 15 15
                  Hmode Hradii)).
Defined.

(** ** The goroutines: a schedule on which the caller returns *)

Section Progress.

Context (P : Platform) (w : Wordcloud) (width height : Q).

Lemma run_app (a b : list action) (s : search) :
  run P w width height (a ++ b) s
  = s' ← run P w width height a s; run P w width height b s'.
Proof.
  revert s. induction a as [| x a IH]; intros s; simpl; [done |].
  destruct (fire P w width height x s) as [s1 |]; simpl; [apply IH | done].
Qed.

Lemma run_cons (a : action) (rest : list action) (s s1 : search) :
  fire P w width height a s = Some s1 ->
  run P w width height (a :: rest) s = run P w width height rest s1.
Proof. intros H. simpl. by rewrite H. Qed.

(** The loop that starts the workers. *)
Lemma run_spawn (m : nat) :
  forall i, (i + m)%nat = NumCPU P ->
    run P w width height (replicate m ActMain)
      (mkSearch (MSpawn i) emptyTally (replicate i WSelect)
         (replicate i (makeChan 1)) SNotStarted PNotStarted (makeChan 1)
         (makeChan 100) (makeChan (NumCPU P)) i)
    = Some (mkSearch (MSpawn (NumCPU P)) emptyTally
              (replicate (NumCPU P) WSelect)
              (replicate (NumCPU P) (makeChan 1)) SNotStarted PNotStarted
              (makeChan 1) (makeChan 100) (makeChan (NumCPU P)) (NumCPU P)).
Proof.
  induction m as [| m IH]; intros i Hi.
  - simpl. rewrite Nat.add_0_r in Hi. by rewrite Hi.
  - simpl. unfold stepMain. simpl.
    destruct (decide (i < NumCPU P)%nat) as [_ | Hge]; [| lia]. simpl.
    unfold spawnWorker, setMain. simpl.
    rewrite <- !replicate_S_end. apply (IH (S i)). lia.
Qed.

Lemma run_startWorkers :
  randomPlacement w = false ->
  run P w width height (startWorkers (NumCPU P)) (searchStart P)
  = Some (mkSearch MAggregate emptyTally (replicate (NumCPU P) WSelect)
            (replicate (NumCPU P) (makeChan 1)) (SSelect (radii w))
            PNotStarted (makeChan 1) (makeChan 100) (makeChan (NumCPU P))
            (NumCPU P)).
Proof.
  intros Hmode. unfold startWorkers.
  change (ActMain :: replicate (NumCPU P) ActMain ++ [ActMain; ActMain])
    with ([ActMain] ++ replicate (NumCPU P) ActMain ++ [ActMain; ActMain]).
  rewrite !run_app.
  assert (run P w width height [ActMain] (searchStart P)
          = Some (mkSearch (MSpawn 0) emptyTally (replicate 0 WSelect)
                    (replicate 0 (makeChan 1)) SNotStarted PNotStarted
                    (makeChan 1) (makeChan 100) (makeChan (NumCPU P)) 0))
    as ->.
  { simpl. unfold stepMain. simpl. by rewrite Hmode. }
  pose proof (run_spawn (NumCPU P) 0 eq_refl) as Hspawn.
  simpl in *. rewrite run_app, Hspawn. simpl.
  unfold stepMain. simpl.
  destruct (decide (NumCPU P < NumCPU P)%nat) as [Hlt | _]; [lia |]. done.
Qed.

(** One ring, handled by worker 0. *)
Lemma run_ringRound t ws cs r rest p c g :
  (0 < c)%nat ->
  run P w width height ringRound
    (mkSearch MAggregate t (WSelect :: ws) cs (SSelect (r :: rest)) p
       (makeChan 1) (makeChan 100) (makeChan c) g)
  = Some (mkSearch
            (match answer w (scan (radii w)
                               (record (ringResult w width height r) t)) with
             | Some v => MDeferStopSending v
             | None => MAggregate
             end)
            (record (ringResult w width height r) t) (WSelect :: ws) cs
            (SSelect rest) p (makeChan 1) (makeChan 100) (makeChan c) g).
Proof.
  intros Hc. unfold ringRound.
  rewrite (run_cons _ _ _
             (mkSearch MAggregate t (WSelect :: ws) cs (SSelect rest) p
                (makeChan 1) (makeChan 100)
                {| buffer := [workFor w width height r]; capacity := c;
                   closed := false |} g)).
  2: { simpl. unfold send. simpl.
       destruct (decide (0 < c)%nat); [done | lia]. }
  rewrite (run_cons _ _ _
             (mkSearch MAggregate t (WTesting (workFor w width height r) :: ws)
                cs (SSelect rest) p (makeChan 1) (makeChan 100) (makeChan c) g))
    by reflexivity.
  rewrite (run_cons _ _ _
             (mkSearch MAggregate t
                (WPosting (ringResult w width height r) :: ws)
                cs (SSelect rest) p (makeChan 1) (makeChan 100) (makeChan c) g))
    by reflexivity.
  rewrite (run_cons _ _ _
             (mkSearch MAggregate t (WSelect :: ws) cs (SSelect rest) p
                (makeChan 1)
                {| buffer := [ringResult w width height r]; capacity := 100;
                   closed := false |} (makeChan c) g))
    by reflexivity.
  cbn [run fire]. unfold stepMain.
  cbn [main aggCh receive buffer capacity closed mbind option_bind book].
  unfold setMain, setBook, setAggCh.
  cbn [main book workers stopChannels sender purger stopSendingCh aggCh workCh
       wg].
  by destruct (answer w (scan (radii w) (record (ringResult w width height r) t))).
Qed.

(** The rings one after the other, until the aggregator answers. *)
Lemma run_rounds ws cs p c g :
  (0 < c)%nat ->
  forall after t v,
    aggregate w (map (ringResult w width height) after) t = Some v ->
    exists rounds t' rest,
      (rounds <= length after)%nat
      /\ run P w width height (concat (replicate rounds ringRound))
           (mkSearch MAggregate t (WSelect :: ws) cs (SSelect after) p
              (makeChan 1) (makeChan 100) (makeChan c) g)
         = Some (mkSearch (MDeferStopSending v) t' (WSelect :: ws) cs
                   (SSelect rest) p (makeChan 1) (makeChan 100) (makeChan c) g).
Proof.
  intros Hc. induction after as [| r after IH]; intros t v Hagg; [done |].
  simpl in Hagg.
  destruct (answer w (scan (radii w) (record (ringResult w width height r) t)))
    as [v' |] eqn:Hans.
  - injection Hagg as ->.
    exists 1%nat, (record (ringResult w width height r) t), after.
    split; [simpl; lia |].
    cbn [replicate concat]. rewrite app_nil_r, (run_ringRound _ _ _ _ _ _ _ _ Hc).
    by rewrite Hans.
  - destruct (IH _ _ Hagg) as (rounds & t' & rest & Hle & Hrun).
    exists (S rounds), t', rest. split; [simpl; lia |].
    cbn [replicate concat]. rewrite run_app, (run_ringRound _ _ _ _ _ _ _ _ Hc).
    rewrite Hans. simpl. exact Hrun.
Qed.

(** The deferred function signals the workers one after the other. *)
Lemma run_signals v t ws k p ssc agg work g (m : nat) :
  forall i pre, length pre = i ->
    run P w width height (replicate m ActMain)
      (mkSearch (MDeferStopWorkers v i) t ws (pre ++ replicate m (makeChan 1))
         k p ssc agg work g)
    = Some (mkSearch (MDeferStopWorkers v (i + m)) t ws
              (pre ++ replicate m signalled) k p ssc agg work g).
Proof.
  induction m as [| m IH]; intros i pre Hpre.
  - simpl. by rewrite Nat.add_0_r.
  - simpl. unfold stepMain. simpl.
    rewrite list_lookup_middle by done. simpl.
    unfold setMain, setStopChannel. simpl.
    rewrite insert_app_r_alt by lia. rewrite Hpre, Nat.sub_diag. simpl.
    fold signalled. rewrite (cons_middle _ pre), app_assoc.
    rewrite (IH (S i) (pre ++ [signalled])) by (rewrite length_app; simpl; lia).
    rewrite <- app_assoc. simpl. by rewrite Nat.add_succ_r.
Qed.

(** The workers take their stop signals and leave, one after the other. *)
Lemma run_leave mn t k p ssc agg work (m : nat) :
  forall i preW preC g, length preW = i -> length preC = i ->
    run P w width height
      (flat_map (fun i => [ActWorkerStop i; ActWorkerDone i]) (seq i m))
      (mkSearch mn t (preW ++ replicate m WSelect)
         (preC ++ replicate m signalled) k p ssc agg work (g + m))
    = Some (mkSearch mn t (preW ++ replicate m WStopped)
              (preC ++ replicate m (makeChan 1)) k p ssc agg work g).
Proof.
  induction m as [| m IH]; intros i preW preC g HW HC.
  - simpl. by rewrite Nat.add_0_r.
  - cbn [seq flat_map app replicate].
    rewrite (run_cons _ _ _
               (mkSearch mn t (preW ++ WReturning :: replicate m WSelect)
                  (preC ++ makeChan 1 :: replicate m signalled) k p ssc agg
                  work (g + S m))).
    2: { cbn [fire workers stopChannels]. rewrite !list_lookup_middle by done.
         cbn. unfold setWorker, setStopChannel. cbn.
         rewrite !insert_app_r_alt by lia. rewrite HW, HC, Nat.sub_diag.
         done. }
    rewrite (run_cons _ _ _
               (mkSearch mn t (preW ++ WStopped :: replicate m WSelect)
                  (preC ++ makeChan 1 :: replicate m signalled) k p ssc agg
                  work (g + m))).
    2: { cbn [fire workers]. rewrite list_lookup_middle by done.
         unfold wgDone, setWorker. cbn.
         rewrite insert_app_r_alt by lia.
         rewrite HW, Nat.sub_diag, Nat.add_succ_r. done. }
    rewrite (cons_middle _ preW), (cons_middle _ preC), !app_assoc.
    rewrite (IH (S i) (preW ++ [WStopped]) (preC ++ [makeChan 1]) g)
      by (rewrite length_app; simpl; lia).
    by rewrite <- !app_assoc.
Qed.

Lemma run_stopWorkers v t k n :
  run P w width height (stopWorkers n)
    (mkSearch (MDeferStopSending v) t (replicate n WSelect)
       (replicate n (makeChan 1)) k PNotStarted (makeChan 1) (makeChan 100)
       (makeChan (NumCPU P)) n)
  = Some (mkSearch (MReturned v) t (replicate n WStopped)
            (replicate n (makeChan 1)) k PRunning signalled (makeChan 100)
            (makeChan (NumCPU P)) 0).
Proof.
  unfold stopWorkers.
  rewrite (run_cons _ _ _
             (mkSearch (MDeferStopWorkers v 0) t (replicate n WSelect)
                (replicate n (makeChan 1)) k PNotStarted signalled
                (makeChan 100) (makeChan (NumCPU P)) n)) by reflexivity.
  pose proof (run_signals v t (replicate n WSelect) k PNotStarted signalled
                (makeChan 100) (makeChan (NumCPU P)) n n 0 [] eq_refl)
    as Hsignals.
  cbn [app Nat.add] in Hsignals.
  rewrite run_app, Hsignals. cbn [mbind option_bind app].
  rewrite (run_cons _ _ _
             (mkSearch (MDeferPurge v) t (replicate n WSelect)
                (replicate n signalled) k PNotStarted signalled
                (makeChan 100) (makeChan (NumCPU P)) n)).
  2: { cbn [fire]. unfold stepMain. cbn [main stopChannels].
       rewrite (proj1 (lookup_replicate_None n signalled n)) by lia. done. }
  rewrite (run_cons _ _ _
             (mkSearch (MDeferWait v) t (replicate n WSelect)
                (replicate n signalled) k PRunning signalled
                (makeChan 100) (makeChan (NumCPU P)) n)) by reflexivity.
  pose proof (run_leave (MDeferWait v) t k PRunning signalled (makeChan 100)
                (makeChan (NumCPU P)) n 0 [] [] 0 eq_refl eq_refl) as Hleave.
  cbn [app Nat.add] in Hleave.
  rewrite run_app, Hleave. reflexivity.
Qed.

End Progress.

(** X19: the concurrent search can return.  In the concurrent mode, with
    at least one CPU, at least one ring and strictly increasing radii,
    there is a schedule of the goroutines on which the caller returns, and
    it returns the answer read off the ring table: the workers and the
    posting goroutine are started, the rings are posted in table order and
    handled by worker 0 until the aggregator answers (after at most as
    many rounds as there are rings), and the deferred function signals
    the workers and waits until all have left. *)
Theorem nextPos_returns_on_schedule (P : Platform) (w : Wordcloud)
    (width height : Q) :
  randomPlacement w = false ->
  (0 < NumCPU P)%nat ->
  radii w <> [] ->
  increasing (radii w) ->
  exists rounds s,
    (rounds <= length (radii w))%nat
    /\ run P w width height (oneWorkerSchedule (NumCPU P) rounds)
         (searchStart P) = Some s
    /\ main s = MReturned (searchResult w width height (radii w))
    /\ workers s = replicate (NumCPU P) WStopped.
Proof.
  intros Hmode Hcpu Hne Hinc.
  assert (aggregate w (map (ringResult w width height) (radii w)) emptyTally
          = Some (searchResult w width height (radii w))) as Hagg.
  { apply (aggregate_in_order w width height []); try done.
    - intros r Hr. by apply elem_of_nil in Hr.
    - intros r Hr. by apply elem_of_nil in Hr. }
  assert (replicate (NumCPU P) WSelect
          = WSelect :: replicate (pred (NumCPU P)) WSelect) as Hws.
  { destruct (NumCPU P); [lia | done]. }
  destruct (run_rounds P w width height (replicate (pred (NumCPU P)) WSelect)
              (replicate (NumCPU P) (makeChan 1)) PNotStarted (NumCPU P)
              (NumCPU P) Hcpu _ _ _ Hagg)
    as (rounds & t' & rest & Hle & Hrounds).
  exists rounds. eexists. split; [done |].
  unfold oneWorkerSchedule.
  rewrite run_app, (run_startWorkers P w width height Hmode).
  cbn [mbind option_bind]. rewrite run_app, Hws, Hrounds, <- Hws.
  cbn [mbind option_bind]. rewrite run_stopWorkers. done.
Qed.

Lemma nextPos_returns_on_schedule_witness :
  exists rounds s,
    (rounds <= 29)%nat
    /\ run Fixture.platform
         (Fixture.engine Fixture.fourWords (Fixture.options 100 100 false))
         15 15 (oneWorkerSchedule (NumCPU Fixture.platform) rounds)
         (searchStart Fixture.platform)
       = Some s
    /\ main s = MReturned (51, 50, true).
Proof.
  assert (randomPlacement
            (Fixture.engine Fixture.fourWords (Fixture.options 100 100 false))
          = false) as Hmode by (vm_compute; reflexivity).
  assert (0 < NumCPU Fixture.platform)%nat as Hcpu by (simpl; lia).
  assert (radii (Fixture.engine Fixture.fourWords
                   (Fixture.options 100 100 false)) <> []) as Hne
    by (vm_compute; discriminate).
  assert (searchResult
            (Fixture.engine Fixture.fourWords (Fixture.options 100 100 false))
            15 15
            (radii (Fixture.engine Fixture.fourWords
                      (Fixture.options 100 100 false)))
          = (51, 50, true)) as Hres by (vm_compute; reflexivity).
  assert (length (radii (Fixture.engine Fixture.fourWords
                           (Fixture.options 100 100 false))) = 29%nat) as Hlen
    by (vm_compute; reflexivity).
  destruct (nextPos_returns_on_schedule Fixture.platform _ 15 15 Hmode Hcpu Hne
              fixture_rings_increasing) as (rounds & s & Hle & Hrun & Hmain & _).
  exists rounds, s. split; [rewrite <- Hlen; exact Hle |].
  split; [exact Hrun |]. rewrite <- Hres. exact Hmain.
Defined.

(** ** The occupancy index and the collision test *)

Lemma bucket_foldr_keeps (b : Box) (cs : list (Z * Z))
    (m : gmap (Z * Z) (list Box)) (a : Box) (c : Z * Z) :
  a ∈ bucket m c ->
  a ∈ bucket (foldr (fun c m => <[c := bucket m c ++ [b]]> m) m cs) c.
Proof.
  intros Ha. induction cs as [| c' cs IH]; simpl; [done |].
  unfold bucket at 1. destruct (decide (c' = c)) as [-> | Hne].
  - rewrite lookup_insert_eq. simpl. apply elem_of_app. by left.
  - rewrite lookup_insert_ne by done. exact IH.
Qed.

Lemma bucket_foldr_adds (b : Box) (cs : list (Z * Z))
    (m : gmap (Z * Z) (list Box)) (c : Z * Z) :
  c ∈ cs ->
  b ∈ bucket (foldr (fun c m => <[c := bucket m c ++ [b]]> m) m cs) c.
Proof.
  induction cs as [| c' cs IH]; intros Hc; [by apply elem_of_nil in Hc |].
  simpl. unfold bucket at 1. destruct (decide (c' = c)) as [-> | Hne].
  - rewrite lookup_insert_eq. simpl. apply elem_of_app. right. by left.
  - rewrite lookup_insert_ne by done. apply IH.
    apply elem_of_cons in Hc as [-> | Hc]; done.
Qed.

Lemma indexed_new width height cellSize :
  indexed (newSpatialHashMap width height cellSize).
Proof. intros a c Ha. by apply elem_of_nil in Ha. Qed.

Lemma indexed_Add g b : indexed g -> indexed (Add g b).
Proof.
  intros Hg a c Ha Hc. simpl in Ha.
  change (spannedCells (Add g b) a) with (spannedCells g a) in Hc.
  simpl. apply elem_of_app in Ha as [Ha | Ha].
  - apply bucket_foldr_keeps. by apply Hg.
  - apply list_elem_of_singleton in Ha as ->. by apply bucket_foldr_adds.
Qed.

Lemma indexed_foldl_Add boxes :
  forall g, indexed g -> indexed (foldl Add g boxes).
Proof.
  induction boxes as [| b bs IH]; intros g Hg; simpl; [done |].
  apply IH. by apply indexed_Add.
Qed.

Lemma cellSize_foldl_Add boxes :
  forall g, cellSize (foldl Add g boxes) = cellSize g.
Proof.
  induction boxes as [| b bs IH]; intros g; simpl; [done |]. by rewrite IH.
Qed.

Lemma cellOf_monotone g (x y : Q) :
  (0 < cellSize g)%Z -> x <= y -> (cellOf g x <= cellOf g y)%Z.
Proof.
  intros Hs Hxy. unfold cellOf. apply Qfloor_resp_le.
  unfold Qdiv. apply Qmult_le_compat_r; [done |].
  apply Qinv_le_0_compat. change 0 with (inject_Z 0). rewrite <- Zle_Qle. lia.
Qed.

Lemma elem_of_spannedCells g (b : Box) (i j : Z) :
  (i, j) ∈ spannedCells g b
  <-> (cellOf g (Left b) <= i <= cellOf g (Right b))%Z
      /\ (cellOf g (Bottom b) <= j <= cellOf g (Top b))%Z.
Proof.
  unfold spannedCells. rewrite list_elem_of_bind. split.
  - intros (i' & Hin & Hi). apply list_elem_of_bind in Hin as (j' & Hin & Hj).
    apply list_elem_of_singleton in Hin. injection Hin as -> ->.
    apply elem_of_seqZ in Hi, Hj. lia.
  - intros [Hi Hj]. exists i. split; [| apply elem_of_seqZ; lia].
    apply list_elem_of_bind. exists j. split; [by left | apply elem_of_seqZ; lia].
Qed.

(** The collision test misses no inserted rectangle: with a positive cell
    size two overlapping well-formed rectangles span a common cell. *)
Lemma TestCollision_complete g (a b : Box) :
  indexed g ->
  (0 < cellSize g)%Z ->
  a ∈ inserted g ->
  wellFormed a -> wellFormed b ->
  overlaps a b = true ->
  (TestCollision g b overlaps).1 = true.
Proof.
  intros Hg Hs Ha [Hax Hay] [Hbx Hby] Hov.
  apply overlaps_spec in Hov as (H1 & H2 & H3 & H4).
  set (i := Z.max (cellOf g (Left a)) (cellOf g (Left b))).
  set (j := Z.max (cellOf g (Bottom a)) (cellOf g (Bottom b))).
  pose proof (cellOf_monotone g _ _ Hs Hax).
  pose proof (cellOf_monotone g _ _ Hs Hay).
  pose proof (cellOf_monotone g _ _ Hs Hbx).
  pose proof (cellOf_monotone g _ _ Hs Hby).
  pose proof (cellOf_monotone g _ _ Hs (Qlt_le_weak _ _ H1)).
  pose proof (cellOf_monotone g _ _ Hs (Qlt_le_weak _ _ H2)).
  pose proof (cellOf_monotone g _ _ Hs (Qlt_le_weak _ _ H3)).
  pose proof (cellOf_monotone g _ _ Hs (Qlt_le_weak _ _ H4)).
  assert ((i, j) ∈ spannedCells g a) as Hca
    by (apply elem_of_spannedCells; unfold i, j; lia).
  assert ((i, j) ∈ spannedCells g b) as Hcb
    by (apply elem_of_spannedCells; unfold i, j; lia).
  unfold TestCollision.
  destruct (List.find _ _) as [a' |] eqn:Hfind; [done |].
  exfalso.
  assert (overlaps a b = false) as Hno.
  { apply (List.find_none _ _ Hfind a). apply list_elem_of_In.
    apply list_elem_of_bind. exists (i, j). split; [| done]. by apply Hg. }
  assert (overlaps a b = true) as Hyes by (apply overlaps_spec; done).
  congruence.
Qed.

(** ** What a placement records *)

Lemma Qmax_nonneg (a : Q) : 0 <= a -> Qmax a 0 == a.
Proof.
  intros Ha. unfold Qmax. destruct (Qle_bool a 0) eqn:E; [| reflexivity].
  apply Qle_bool_iff in E. lra.
Qed.

Section Hit.

Context (P : Platform).

Lemma setFont_dc w fs w' :
  setFont P w fs = Ok w' -> dc w' = SetFontFace (dc w) (Qround fs).
Proof.
  unfold setFont. intros H. apply bind_Ok_inv in H as (w0 & H0 & H).
  injection H as <-. simpl.
  destruct (decide _); [by injection H0 as <- |].
  destruct (negb _); [done |].
  destruct (decide _); [done |]. by injection H0 as <-.
Qed.

Lemma addPrecise_dc boxes c g :
  (addPrecise false boxes c g).1 = c.
Proof.
  revert c g. induction boxes as [| b bs IH]; intros c g; simpl; [done |].
  apply IH.
Qed.

Lemma valid_sameIndex w w1 box :
  sameIndex w w1 -> valid w1 box -> valid w box.
Proof.
  intros ((_ & _ & Hw & Hh & _) & Hg & _). unfold valid, colliding.
  unfold canvasWidth, canvasHeight. by rewrite Hw, Hh, Hg.
Qed.

Lemma engineState_indexed w :
  engineState P w ->
  indexed (grid w) /\ cellSize (grid w) = (Height (opts w) ÷ 10)%Z.
Proof.
  induction 1 as [wl o w Hnew | w idx w' b Hstate IH Hplace].
  - revert Hnew. rewrite NewWordcloud_outcome.
    destruct (Count wl); [done |].
    destruct (assignSizes _ _ _ _ _ _); [| done | done].
    intros H. injection H as <-. simpl.
    destruct (addMask_spec (Debug o) (Mask o)
                (SetColor (Clear (SetColor (NewContext (Width o) (Height o))
                                    (BackgroundColor o))) black)
                (newSpatialHashMap (inject_Z (Width o)) (inject_Z (Height o))
                   (Height o ÷ 10))) as (-> & _).
    split; [apply indexed_foldl_Add, indexed_new |].
    by rewrite cellSize_foldl_Add.
  - destruct IH as [Hidx Hcell].
    destruct (Place_sameTable P _ _ _ _ Hplace) as (_ & _ & _ & _ & -> & _).
    destruct (Place_inv P _ _ _ _ Hplace)
      as (word & w1 & wd & ht & w2 & x & y & _ & (_ & Hg1 & _) & _ & Hpos
          & _ & _ & Hw').
    apply nextPos_sameIndex in Hpos as [(_ & Hg2 & _) _].
    destruct b.
    + destruct Hw' as (-> & _). simpl. rewrite Hg2, Hg1.
      split; [by apply indexed_foldl_Add | by rewrite cellSize_foldl_Add].
    + subst w'. simpl. by rewrite Hg2, Hg1.
Qed.

End Hit.

(** X20: what a successful call of [Place] records.  The word is measured
    with the face of its rounded font size and padded by 5 in both
    directions; the padded rectangle around the point found was valid in
    the engine as it was (it fits the canvas and collides with nothing
    recorded); the word is drawn centred on that point in its palette
    colour; the stored position is the corner x - width/2, y - height/2 of
    the unpadded rectangle and the stored size is the measured one.  The
    index is extended, at its end, by the rectangles computed from the
    reserved rectangle on the canvas as it is right after the word was
    drawn: the reserved rectangle itself when the padded height is at most
    40, the refined rectangles otherwise.  The reserved rectangle has the
    sides and the bottom of the tested rectangle, but its top is higher by
    0.3 times the padded height. *)
Theorem Place_hit_records (P : Platform) (w w' : Wordcloud) (idx : nat) :
  Place P w idx = Ok (w', true) ->
  exists word ci c fs wd ht x y w3,
    Word (sortedWordList w) !! idx = Some word
    /\ ColorIndex (sortedWordList w) !! idx = Some ci
    /\ Colors (opts w) !! Z.to_nat (ci `rem` Z.of_nat (length (Colors (opts w))))
       = Some c
    /\ FontSize (sortedWordList w) !! idx = Some fs
    /\ MeasureString P (Some (Qround fs)) word = (wd, ht)
    /\ valid w (candidate x y (wd + 5) (ht + 5))
    /\ opts w3 = opts w
    /\ dc w3 = DrawStringAnchored
                 (SetFontFace (SetColor (dc w) c) (Qround fs)) word x y 0.5 0.5
    /\ inserted (grid w')
       = inserted (grid w) ++ boxesFor P w3 x y (wd + 5) (ht + 5)
    /\ (Debug (opts w) = false -> dc w' = dc w3)
    /\ (exists px py rw rh,
          Pos (sortedWordList w') !! idx = Some (Complex (Fin px) (Fin py))
          /\ Rect (sortedWordList w') !! idx = Some (Complex (Fin rw) (Fin rh))
          /\ px == x - wd / 2 /\ py == y - ht / 2 /\ rw == wd /\ rh == ht)
    /\ Left (reservedBox x y (wd + 5) (ht + 5))
       = Left (candidate x y (wd + 5) (ht + 5))
    /\ Right (reservedBox x y (wd + 5) (ht + 5))
       = Right (candidate x y (wd + 5) (ht + 5))
    /\ Bottom (reservedBox x y (wd + 5) (ht + 5))
       == Bottom (candidate x y (wd + 5) (ht + 5))
    /\ Top (reservedBox x y (wd + 5) (ht + 5))
       == Top (candidate x y (wd + 5) (ht + 5)) + 0.3 * (ht + 5).
Proof.
  unfold Place. intros H.
  apply bind_Ok_inv in H as (word & Hword & H). apply index_Ok_inv in Hword.
  apply bind_Ok_inv in H as (ci & Hci & H). apply index_Ok_inv in Hci.
  apply bind_Ok_inv in H as (k & Hk & H).
  destruct (decide (length (Colors (opts w)) = 0%nat)) as [| Hne]; [done |].
  injection Hk as <-.
  apply bind_Ok_inv in H as (c & Hc & H). apply index_Ok_inv in Hc.
  apply bind_Ok_inv in H as (fs & Hfs & H). apply index_Ok_inv in Hfs.
  apply bind_Ok_inv in H as (w1 & Hfont & H).
  pose proof (setFont_dc P _ _ _ Hfont) as Hdc1. simpl in Hdc1.
  apply setFont_sameIndex in Hfont.
  assert (sameIndex w w1) as Hsame.
  { eapply sameIndex_trans; [| exact Hfont]. by repeat split. }
  destruct (MeasureString P (dcFace (dc w1)) word) as [wd ht] eqn:Hm.
  rewrite Hdc1 in Hm. simpl in Hm.
  apply bind_Ok_inv in H as ([w2 [[x y] space]] & Hpos & H).
  pose proof Hpos as Hpos'.
  apply nextPos_sameIndex in Hpos' as [Hsame2 Hdc2].
  destruct space; simpl in H.
  2: { apply bind_Ok_inv in H as (pos & _ & H).
       apply bind_Ok_inv in H as (rect & _ & H). by injection H. }
  apply nextPos_success_valid in Hpos.
  apply (valid_sameIndex w w1) in Hpos; [| done].
  pose proof (sameIndex_trans _ _ _ Hsame Hsame2)
    as ((_ & _ & _ & _ & Hopts & _) & Hgrid & Hwords).
  apply bind_Ok_inv in H as (pos & Hp & H). apply assign_Ok_inv in Hp as [Hlp ->].
  apply bind_Ok_inv in H as (rect & Hr & H). apply assign_Ok_inv in Hr as [Hlr ->].
  set (w3 := withWords
               (withDc w2 (DrawStringAnchored (dc w2) word x y 0.5 0.5))
               (setPosRect (sortedWordList w2)
                  (<[idx := Complex (Fin (x - 0.5 * (wd + 5 - 5)))
                                    (Fin (y - 0.5 * (ht + 5 - 5)))]>
                     (Pos (sortedWordList w2)))
                  (<[idx := Complex (Fin (wd + 5 - 5)) (Fin (ht + 5 - 5))]>
                     (Rect (sortedWordList w2))))) in *.
  exists word, ci, c, fs, wd, ht, x, y, w3.
  split; [done |]. split; [done |]. split; [done |]. split; [done |].
  split; [done |]. split; [done |]. split; [done |].
  split; [simpl; by rewrite Hdc2, Hdc1 |].
  assert (inserted (grid w')
          = inserted (grid w) ++ boxesFor P w3 x y (wd + 5) (ht + 5)
          /\ (Debug (opts w) = false -> dc w' = dc w3)
          /\ sortedWordList w' = sortedWordList w3) as (Hins & Hdebug & Hlist).
  { unfold boxesFor. rewrite <- Hgrid, <- Hopts.
    destruct (Qltb 40 (ht + 5)).
    - destruct (addPrecise _ _ _ _) as [dc' g] eqn:Hadd.
      injection H as <-. simpl.
      pose proof (addPrecise_grid (Debug (opts w2))
                    (getPreciseBoundingBoxes P w3
                       (reservedBox x y (wd + 5) (ht + 5)))
                    (DrawStringAnchored (dc w2) word x y 0.5 0.5) (grid w2))
        as Hg.
      rewrite Hadd in Hg. simpl in Hg. rewrite Hg, inserted_foldl_Add.
      split; [done |]. split; [| done].
      intros Hdebug. rewrite Hdebug in Hadd.
      pose proof (addPrecise_dc
                    (getPreciseBoundingBoxes P w3
                       (reservedBox x y (wd + 5) (ht + 5)))
                    (DrawStringAnchored (dc w2) word x y 0.5 0.5) (grid w2))
        as Hd.
      rewrite Hadd in Hd. done.
    - injection H as <-. simpl. done. }
  split; [done |]. split; [done |]. split.
  { rewrite Hlist. simpl.
    exists (x - 0.5 * (wd + 5 - 5)), (y - 0.5 * (ht + 5 - 5)),
           (wd + 5 - 5), (ht + 5 - 5).
    rewrite !list_lookup_insert_eq by done.
    split; [done |]. split; [done |]. repeat split; qarith. }
  split; [done |]. split; [done |]. split.
  - simpl. apply Qmax_nonneg. destruct Hpos as [Hfit _].
    apply fits_spec in Hfit as (_ & _ & Hb & _). exact Hb.
  - done.
Qed.

Lemma Place_hit_records_witness :
  exists word x y wd ht,
    Word (sortedWordList
            (Fixture.engine Fixture.fourWords (Fixture.options 100 100 false)))
      !! 0%nat = Some word
    /\ valid (Fixture.engine Fixture.fourWords (Fixture.options 100 100 false))
         (candidate x y (wd + 5) (ht + 5))
    /\ Top (reservedBox x y (wd + 5) (ht + 5))
       == Top (candidate x y (wd + 5) (ht + 5)) + 0.3 * (ht + 5).
Proof.
  assert (Place Fixture.platform
            (Fixture.engine Fixture.fourWords (Fixture.options 100 100 false)) 0
          = Ok (Fixture.placed
                  (Fixture.engine Fixture.fourWords
                     (Fixture.options 100 100 false)) 0,
                true)) as Hhit
    by (vm_compute; reflexivity).
  destruct (Place_hit_records _ _ _ _ Hhit)
    as (word & ci & c & fs & wd & ht & x & y & w3 & Hword & _ & _ & _ & _
        & Hvalid & _ & _ & _ & _ & _ & _ & _ & _ & Htop).
  exists word, x, y, wd, ht. split; [exact Hword |].
  split; [exact Hvalid | exact Htop].
Defined.

(** X22: a valid rectangle overlaps nothing inserted.  In every engine
    built by [NewWordcloud] and changed by [Place] only, on a canvas at
    least 10 high (so that the cells of the index, a tenth of the height,
    have a positive size), a well-formed rectangle that the search accepts
    as valid overlaps no well-formed rectangle ever inserted into the
    index, mask rectangles included: the collision test, which looks only
    into the cells the rectangle spans, misses none.  Hence the tested
    rectangle of a word placed later never overlaps the reserved
    rectangles of the words placed before. *)
Theorem valid_avoids_inserted (P : Platform) (w : Wordcloud) (box a : Box) :
  engineState P w ->
  (10 <= Height (opts w))%Z ->
  valid w box ->
  wellFormed box ->
  a ∈ inserted (grid w) ->
  wellFormed a ->
  overlaps a box = false.
Proof.
  intros Hstate Hheight [_ Hfree] Hbox Ha Hwf.
  destruct (engineState_indexed P w Hstate) as [Hidx Hcell].
  destruct (overlaps a box) eqn:Hov; [| done].
  assert (0 < cellSize (grid w))%Z as Hpos.
  { rewrite Hcell. apply Z.quot_str_pos. lia. }
  pose proof (TestCollision_complete (grid w) a box Hidx Hpos Ha Hwf Hbox Hov)
    as Hhit.
  unfold colliding in Hfree. congruence.
Qed.

Lemma valid_avoids_inserted_witness :
  overlaps (reservedBox 51 50 55 15) (candidate 50 34 45 15) = false.
Proof.
  assert (engineState Fixture.platform
            (Fixture.placed
               (Fixture.engine Fixture.fourWords (Fixture.options 100 100 false))
               0)) as Hstate.
  { apply (engine_place Fixture.platform
             (Fixture.engine Fixture.fourWords (Fixture.options 100 100 false))
             0 _ true).
    - apply (engine_new Fixture.platform (fromEntries Fixture.fourWords)
               (Fixture.options 100 100 false)).
      vm_compute. reflexivity.
    - vm_compute. reflexivity. }
  assert (10 <= Height (opts (Fixture.placed
                                (Fixture.engine Fixture.fourWords
                                   (Fixture.options 100 100 false)) 0)))%Z
    as Hheight by (vm_compute; discriminate).
  assert (valid (Fixture.placed
                   (Fixture.engine Fixture.fourWords
                      (Fixture.options 100 100 false)) 0)
            (candidate 50 34 45 15)) as Hvalid
    by (split; vm_compute; reflexivity).
  assert (wellFormed (candidate 50 34 45 15)) as Hbox
    by (split; vm_compute; discriminate).
  assert (wellFormed (reservedBox 51 50 55 15)) as Hwf
    by (split; vm_compute; discriminate).
  assert (inserted (grid (Fixture.placed
                            (Fixture.engine Fixture.fourWords
                               (Fixture.options 100 100 false)) 0))
          = [reservedBox 51 50 55 15]) as Hins
    by (vm_compute; reflexivity).
  apply (valid_avoids_inserted Fixture.platform _ _ _ Hstate Hheight Hvalid
           Hbox); [| exact Hwf].
  rewrite Hins. apply list_elem_of_singleton. reflexivity.
Defined.

(** ** When [Place] returns *)

Section Totality.

Context (P : Platform).






End Totality.




(** X24: the two panics of [Place] before the search.  An index past the
    end of the word list panics with the index and the length of the
    list; on an empty palette the modulo by the palette length panics with
    an integer division by zero, whatever the word. *)
Theorem Place_panics (P : Platform) (w : Wordcloud) (idx : nat) :
  ((Length (sortedWordList w) <= idx)%nat ->
   Place P w idx
   = Panic (IndexOutOfRange (Z.of_nat idx) (Length (sortedWordList w))))
  /\ ((idx < Length (sortedWordList w))%nat ->
      (idx < length (ColorIndex (sortedWordList w)))%nat ->
      Colors (opts w) = [] ->
      Place P w idx = Panic IntegerDivideByZero).
Proof.
  unfold Length, Place, index. split.
  - intros Hidx. by rewrite (proj2 (lookup_ge_None _ _) Hidx).
  - intros Hidx Hci Hcolors.
    destruct (Word (sortedWordList w) !! idx) eqn:Hword.
    2: { apply lookup_ge_None in Hword. lia. }
    destruct (ColorIndex (sortedWordList w) !! idx) eqn:Hc.
    2: { apply lookup_ge_None in Hc. lia. }
    simpl. by rewrite Hcolors.
Qed.

Lemma Place_panics_witness :
  Place Fixture.platform
    (Fixture.engine Fixture.fourWords (Fixture.options 100 100 false)) 4
  = Panic (IndexOutOfRange 4 4).
Proof.
  apply (proj1 (Place_panics Fixture.platform
                  (Fixture.engine Fixture.fourWords
                     (Fixture.options 100 100 false)) 4)).
  vm_compute. lia.
Defined.

(** ** When [Draw] returns *)

Section DrawTotality.

Context (P : Platform).



End DrawTotality.



(** ** The rectangles of a whole pass *)

Section Apart.

Context (P : Platform).

(** What a hit on the coarse path adds to the index. *)
Lemma Place_hit_coarse w idx w' :
  (forall face s, (MeasureString P face s).2 + 5 <= 40) ->
  Place P w idx = Ok (w', true) ->
  exists face word x y,
    valid w (candidate x y ((MeasureString P face word).1 + 5)
               ((MeasureString P face word).2 + 5))
    /\ inserted (grid w')
       = inserted (grid w)
         ++ [reservedBox x y ((MeasureString P face word).1 + 5)
               ((MeasureString P face word).2 + 5)].
Proof.
  intros Hcoarse H.
  destruct (Place_inv P _ _ _ _ H)
    as (word & w1 & wd & ht & w2 & x & y & _ & Hsame & Hm & Hpos & _ & _
        & Hg & _).
  exists (dcFace (dc w1)), word, x, y. rewrite Hm. simpl.
  pose proof Hpos as Hvalid. apply nextPos_success_valid in Hvalid.
  apply (valid_sameIndex w w1) in Hvalid; [| done].
  apply nextPos_sameIndex in Hpos as [(_ & Hg2 & _) _].
  destruct Hsame as (_ & Hg1 & _).
  split; [done |].
  rewrite Hg, inserted_foldl_Add. simpl. rewrite Hg2, Hg1.
  unfold boxesFor.
  specialize (Hcoarse (dcFace (dc w1)) word). rewrite Hm in Hcoarse.
  simpl in Hcoarse.
  destruct (Qltb 40 (ht + 5)) eqn:E; [| done].
  apply Qltb_lt in E. lra.
Qed.

Lemma reserved_wellFormed x y width height :
  0 <= width -> 0 <= height -> 0 <= y - height / 2 ->
  wellFormed (reservedBox x y width height).
Proof.
  intros Hw Hh Hy. unfold wellFormed. simpl.
  pose proof (Qmax_nonneg _ Hy) as ->. split; qarith.
Qed.

(** The tested part of a reserved rectangle is the rectangle tested. *)
Lemma overlaps_testedPart a x y width height :
  0 <= y - height / 2 ->
  overlaps a (candidate x y width height) = false ->
  overlaps a (testedPart (reservedBox x y width height)) = false.
Proof.
  intros Hy Hno. apply not_true_iff_false. intros Hov.
  apply not_true_iff_false in Hno. apply Hno.
  apply overlaps_spec in Hov. apply overlaps_spec. simpl in *.
  pose proof (Qmax_nonneg _ Hy) as Hmax.
  destruct Hov as (H1 & H2 & H3 & H4).
  rewrite Hmax in H3, H4.
  split; [done |]. split; [done |]. split; qarith.
Qed.

Lemma apart_snoc masks log x y width height :
  apart masks log ->
  0 <= width -> 0 <= height -> 0 <= y - height / 2 ->
  (forall a, a ∈ log -> wellFormed a ->
     overlaps a (candidate x y width height) = false) ->
  apart masks (log ++ [reservedBox x y width height]).
Proof.
  intros [Hwf Hpairs] Hw Hh Hy Hfree. split.
  - intros a Ha. apply elem_of_app in Ha as [Ha | Ha]; [by apply Hwf |].
    apply list_elem_of_singleton in Ha as ->. by apply reserved_wellFormed.
  - intros i j a b Hij Hmask Hi Hj.
    apply lookup_app_Some in Hj as [Hj | [Hlen Hj]].
    + apply (Hpairs i j); try done.
      apply lookup_lt_Some in Hj. rewrite lookup_app_l in Hi by lia. done.
    + assert (j = length log) as ->.
      { apply lookup_lt_Some in Hj. simpl in Hj. lia. }
      rewrite Nat.sub_diag in Hj. simpl in Hj. injection Hj as <-.
      rewrite lookup_app_l in Hi by lia.
      apply list_elem_of_lookup_2 in Hi.
      apply overlaps_testedPart; [done |]. apply Hfree; [done | by apply Hwf].
Qed.

End Apart.

(** The invariant of the insertion log, from [NewWordcloud] through any
    calls of [Place]. *)
Lemma engine_apart (P : Platform) (w : Wordcloud) :
  engineState P w ->
  (10 <= Height (opts w))%Z ->
  (forall a, a ∈ Mask (opts w) -> wellFormed a) ->
  (forall face s,
     0 <= (MeasureString P face s).1
     /\ 0 <= (MeasureString P face s).2
     /\ (MeasureString P face s).2 + 5 <= 40) ->
  apart (length (Mask (opts w))) (inserted (grid w)).
Proof.
  intros Hstate. induction Hstate as [wl o w Hnew | w idx w' b Hstate IH Hplace];
    intros Hheight Hmask Hmeasure.
  - destruct (initial_engine P _ _ _ Hnew)
      as (_ & -> & _ & _ & _ & _ & _ & _ & _ & _ & _ & _ & _ & Hopts & _).
    rewrite Hopts in *. split; [done |].
    intros i j a b Hij Hj _ Hb. apply lookup_lt_Some in Hb. lia.
  - destruct (Place_sameTable P _ _ _ _ Hplace)
      as (_ & _ & _ & _ & Hopts & _).
    rewrite Hopts in *. specialize (IH Hheight Hmask Hmeasure).
    destruct b.
    2: { destruct (Place_inv P _ _ _ _ Hplace)
           as (word & w1 & wd & ht & w2 & x & y & _ & (_ & Hg1 & _) & _ & Hpos
               & _ & _ & ->).
         apply nextPos_sameIndex in Hpos as [(_ & Hg2 & _) _].
         simpl. by rewrite Hg2, Hg1. }
    destruct (Place_hit_coarse P _ _ _
                (fun face s => proj2 (proj2 (Hmeasure face s))) Hplace)
      as (face & word & x & y & Hvalid & ->).
    destruct (Hmeasure face word) as (Hwd & Hht & _).
    pose proof Hvalid as [Hfit _].
    apply fits_spec in Hfit as (_ & _ & Hbottom & _). simpl in Hbottom.
    apply apart_snoc; try done; try lra.
    intros a Ha Hwf.
    destruct (engineState_indexed P w Hstate) as [Hidx Hcell].
    destruct (overlaps a _) eqn:Hov; [| done].
    assert (0 < cellSize (grid w))%Z as Hpos.
    { rewrite Hcell. apply Z.quot_str_pos. lia. }
    assert (wellFormed
              (candidate x y ((MeasureString P face word).1 + 5)
                 ((MeasureString P face word).2 + 5))) as Hbox.
    { unfold wellFormed. simpl. split; qarith. }
    pose proof (TestCollision_complete (grid w) a _ Hidx Hpos Ha Hwf Hbox Hov)
      as Hhit.
    destruct Hvalid as [_ Hfree]. unfold colliding in Hfree. congruence.
Qed.

(** X26: the rectangles of a whole pass keep apart, in the sense the code
    enforces.  Take an engine built by [NewWordcloud] and changed by
    [Place] only, on a canvas at least 10 high, with well-formed mask
    rectangles and a font that measures every word with a non-negative
    width and a height between 0 and 35 (so that every placement takes
    the coarse path).  Then every rectangle in the insertion log of the
    index is well formed, and for any two of them, the later one inserted
    for a word, the tested part of the later one (the word's rectangle
    without its head room of 0.3 times the height) does not overlap the
    earlier one.  The reserved rectangles themselves may overlap: the
    head room of a word is not tested against what was placed before. *)
Theorem reserved_keep_apart (P : Platform) (w : Wordcloud) :
  engineState P w ->
  (10 <= Height (opts w))%Z ->
  (forall a, a ∈ Mask (opts w) -> wellFormed a) ->
  (forall face s,
     0 <= (MeasureString P face s).1
     /\ 0 <= (MeasureString P face s).2
     /\ (MeasureString P face s).2 + 5 <= 40) ->
  (forall a, a ∈ inserted (grid w) -> wellFormed a)
  /\ forall i j a b,
       (i < j)%nat -> (length (Mask (opts w)) <= j)%nat ->
       inserted (grid w) !! i = Some a ->
       inserted (grid w) !! j = Some b ->
       overlaps a (testedPart b) = false.
Proof.
  intros Hstate Hheight Hmask Hmeasure.
  exact (engine_apart P w Hstate Hheight Hmask Hmeasure).
Qed.

Lemma reserved_keep_apart_witness :
  overlaps (reservedBox 51 50 55 15) (testedPart (reservedBox 50 34 45 15))
  = false
  /\ overlaps (reservedBox 51 50 55 15) (reservedBox 50 34 45 15) = true.
Proof.
  assert (engineState Fixture.platform
            (Fixture.placed
               (Fixture.placed
                  (Fixture.engine Fixture.fourWords
                     (Fixture.options 100 100 false)) 0) 1)) as Hstate.
  { apply (engine_place Fixture.platform
             (Fixture.placed
                (Fixture.engine Fixture.fourWords
                   (Fixture.options 100 100 false)) 0) 1 _ true).
    - apply (engine_place Fixture.platform
               (Fixture.engine Fixture.fourWords
                  (Fixture.options 100 100 false)) 0 _ true).
      + apply (engine_new Fixture.platform (fromEntries Fixture.fourWords)
                 (Fixture.options 100 100 false)).
        vm_compute. reflexivity.
      + vm_compute. reflexivity.
    - vm_compute. reflexivity. }
  assert (opts (Fixture.placed
                  (Fixture.placed
                     (Fixture.engine Fixture.fourWords
                        (Fixture.options 100 100 false)) 0) 1)
          = Fixture.options 100 100 false) as Hopts
    by (vm_compute; reflexivity).
  assert (inserted
            (grid (Fixture.placed
                     (Fixture.placed
                        (Fixture.engine Fixture.fourWords
                           (Fixture.options 100 100 false)) 0) 1))
          = [reservedBox 51 50 55 15; reservedBox 50 34 45 15]) as Hins
    by (vm_compute; reflexivity).
  assert (10 <= Height (opts (Fixture.placed
                                (Fixture.placed
                                   (Fixture.engine Fixture.fourWords
                                      (Fixture.options 100 100 false)) 0) 1)))%Z
    as Hheight.
  { rewrite Hopts. simpl. lia. }
  assert (forall a,
            a ∈ Mask (opts (Fixture.placed
                              (Fixture.placed
                                 (Fixture.engine Fixture.fourWords
                                    (Fixture.options 100 100 false)) 0) 1)) ->
            wellFormed a) as Hmask.
  { intros a Ha. rewrite Hopts in Ha. simpl in Ha.
    apply elem_of_nil in Ha. destruct Ha. }
  assert (forall face s,
            0 <= (MeasureString Fixture.platform face s).1
            /\ 0 <= (MeasureString Fixture.platform face s).2
            /\ (MeasureString Fixture.platform face s).2 + 5 <= 40) as Hmeasure.
  { intros face s.
    change (MeasureString Fixture.platform face s)
      with (inject_Z (Z.of_nat (String.length s)) * 10, 10).
    cbn [fst snd].
    split; [| split; [lra | lra]].
    apply Qmult_le_0_compat; [| lra].
    change 0 with (inject_Z 0). rewrite <- Zle_Qle. lia. }
  destruct (reserved_keep_apart Fixture.platform _ Hstate Hheight Hmask
              Hmeasure) as [_ Hpairs].
  split; [| vm_compute; reflexivity].
  apply (Hpairs 0%nat 1%nat).
  - lia.
  - rewrite Hopts. simpl. lia.
  - rewrite Hins. reflexivity.
  - rewrite Hins. reflexivity.
Defined.
